(** * The calendar-occurrence engine of the ICS "next meeting" lambda

    A shallow embedding of the handler in [src/unnamed/part_000] (the
    ical.js based variant, the one the test-suite drives) together with
    the parts of the older node-ical variant in [src/index.mjs] that
    differ from it.  Instants are epoch milliseconds, modelled as [Z];
    JS [Map]s are insertion-ordered association lists; JS [Set]s that
    are only ever queried with [has] are [gset]s; nullable fields are
    [option]s.  Logging is the only side effect of the modelled
    functions and is left out. *)

From Stdlib Require Import ZArith List Bool Ascii String Lia.
From stdpp Require Import base list strings gmap pretty sorting.

Local Open Scope string_scope.
Local Open Scope list_scope.
Local Open Scope Z_scope.

(** ** JavaScript value conventions on nullable strings *)

(** Truthiness of a nullable string: [null], [undefined] and the empty
    string are falsy. *)
Definition truthy (s : option string) : bool :=
  match s with
  | Some s => negb (String.eqb s "")
  | None => false
  end.

(** [a || b] on nullable strings. *)
Definition jsOr (a b : option string) : option string :=
  if truthy a then a else b.

(** [a || "literal"]: the result is always a string. *)
Definition jsOrStr (a : option string) (b : string) : string :=
  match a with
  | Some s => if String.eqb s "" then b else s
  | None => b
  end.

(** [a ?? b]: only [null]/[undefined] fall through. *)
Definition nullish {A} (a b : option A) : option A :=
  match a with
  | Some _ => a
  | None => b
  end.

(** [s.startsWith(p)]. *)
Definition startsWith (s p : string) : bool := String.prefix p s.

(** ** Insertion-ordered maps ([Map] of JavaScript) *)

Module JsMap.
Section JsMap.
Context {K V : Type} `{EqDecision K}.

(** [m.get(k)] *)
Fixpoint get (m : list (K * V)) (k : K) : option V :=
  match m with
  | [] => None
  | (k', v) :: m' => if decide (k' = k) then Some v else get m' k
  end.

(** [m.set(k, v)]: an existing key keeps its position. *)
Fixpoint set (m : list (K * V)) (k : K) (v : V) : list (K * V) :=
  match m with
  | [] => [(k, v)]
  | (k', v') :: m' =>
      if decide (k' = k) then (k, v) :: m' else (k', v') :: set m' k v
  end.

(** [m.entries()] in iteration order. *)
Definition entries (m : list (K * V)) : list (K * V) := m.

(** Removal of a key (not used by the handler; used to state that a
    binding is irrelevant). *)
Fixpoint remove (m : list (K * V)) (k : K) : list (K * V) :=
  match m with
  | [] => []
  | (k', v) :: m' =>
      if decide (k' = k) then remove m' k else (k', v) :: remove m' k
  end.
End JsMap.
End JsMap.

(** ** Data model *)

(** The object [mkOcc] and the standalone-override paths build.  The
    standalone paths leave [status] out. *)
Record Occurrence := mkOccurrence {
  uid : option string;
  title : string;
  location : option string;
  organizer : option string;
  startMs : Z;
  endMs : Z;
  status : option string
}.

(** What [toDtoWithTz] returns: instants rendered as strings. *)
Record Dto := mkDto {
  dto_uid : option string;
  dto_title : string;
  dto_location : option string;
  dto_organizer : option string;
  dto_start : string;
  dto_end : string
}.

Record Triple := mkTriple {
  next : option Dto;
  nextOverlapping : option Dto;
  nextNonOverlapping : option Dto
}.

Record Metrics := mkMetrics {
  now : string;
  minutesUntilNext : option Z;
  isOverlappingNow : bool;
  current : option Dto
}.

(** ** Array helpers of JavaScript *)

(** [arr.findIndex(p)]: the index of the first hit, [-1] when none. *)
Fixpoint findIndex {A} (p : A -> bool) (l : list A) : Z :=
  match l with
  | [] => -1
  | x :: l' =>
      if p x then 0
      else let i := findIndex p l' in if i <? 0 then -1 else i + 1
  end.

(** [idx >= 0 ? arr[idx] : null] *)
Definition atIndex {A} (l : list A) (idx : Z) : option A :=
  if 0 <=? idx then l !! Z.to_nat idx else None.

(** ** TimelineAnalyzer: [computeNextTriple] and [computeMetrics] *)

(** The predicate both functions pass to [find]/[some]:
    [nowMs >= o.startMs && nowMs < o.endMs]. *)
Definition coversNow (nowMs : Z) (o : Occurrence) : bool :=
  (nowMs >=? startMs o) && (nowMs <? endMs o).

(** First loop of [computeNextTriple], over [occs[nextIdx+1 ..]]. *)
Fixpoint scanOverlapping (nxt : Occurrence) (rest : list Occurrence)
  : option Occurrence :=
  match rest with
  | [] => None
  | o :: rest' =>
      if startMs o >=? endMs nxt then None
      else if endMs o >? startMs nxt then Some o
      else scanOverlapping nxt rest'
  end.

(** Second loop: growing [clusterEnd]. *)
Fixpoint growCluster (clusterEnd : Z) (rest : list Occurrence) : Z :=
  match rest with
  | [] => clusterEnd
  | o :: rest' =>
      if startMs o >=? clusterEnd then clusterEnd
      else growCluster (if endMs o >? clusterEnd then endMs o else clusterEnd) rest'
  end.

(** Third loop: the first occurrence at or after the cluster end. *)
Fixpoint scanNonOverlapping (clusterEnd : Z) (rest : list Occurrence)
  : option Occurrence :=
  match rest with
  | [] => None
  | o :: rest' =>
      if startMs o >=? clusterEnd then Some o
      else scanNonOverlapping clusterEnd rest'
  end.

Section Timeline.
(** [isoWithTimeZone] renders an instant with [Intl.DateTimeFormat];
    [Date.parse] reads such a string back.  Both belong to the
    runtime, and the timeline only passes their results along. *)
Variable isoWithTimeZone : Z -> string -> string.
Variable Date_parse : string -> Z.

Definition toDtoWithTz (o : option Occurrence) (tz : string) : option Dto :=
  match o with
  | None => None
  | Some o =>
      Some {| dto_uid := uid o;
              dto_title := title o;
              dto_location := nullish (location o) None;
              dto_organizer := nullish (organizer o) None;
              dto_start := isoWithTimeZone (startMs o) tz;
              dto_end := isoWithTimeZone (endMs o) tz |}
  end.

Definition computeNextTriple (occs : list Occurrence) (nowMs : Z) (tz : string)
  : Triple :=
  let currentEvent := find (coversNow nowMs) occs in
  let searchFromMs :=
    match currentEvent with
    | Some c => endMs c
    | None => nowMs
    end in
  let nextIdx := findIndex (fun o => startMs o >=? searchFromMs) occs in
  match atIndex occs nextIdx with
  | None =>
      {| next := None; nextOverlapping := None; nextNonOverlapping := None |}
  | Some nxt =>
      let rest := drop (Z.to_nat (nextIdx + 1)) occs in
      let nextOverlapping := scanOverlapping nxt rest in
      let clusterEnd := growCluster (endMs nxt) rest in
      let nextNonOverlapping := scanNonOverlapping clusterEnd rest in
      {| next := toDtoWithTz (Some nxt) tz;
         nextOverlapping := toDtoWithTz nextOverlapping tz;
         nextNonOverlapping := toDtoWithTz nextNonOverlapping tz |}
  end.

(** [Math.round(d / 60_000)] on an integer [d]: the nearest integer,
    halves rounded up. *)
Definition roundMinutes (d : Z) : Z := (d + 30000) / 60000.

Definition computeMetrics (occs : list Occurrence) (nowMs : Z)
    (nextDto : option Dto) (tz : string) : Metrics :=
  let isOverlappingNow := existsb (coversNow nowMs) occs in
  let currentEvent := find (coversNow nowMs) occs in
  match nextDto with
  | None =>
      {| now := isoWithTimeZone nowMs tz;
         minutesUntilNext := None;
         isOverlappingNow := isOverlappingNow;
         current := match currentEvent with
                    | Some c => toDtoWithTz (Some c) tz
                    | None => None
                    end |}
  | Some nextDto =>
      let nextStartMs := Date_parse (dto_start nextDto) in
      let minutesUntilNext := Z.max 0 (roundMinutes (nextStartMs - nowMs)) in
      {| now := isoWithTimeZone nowMs tz;
         minutesUntilNext := Some minutesUntilNext;
         isOverlappingNow := isOverlappingNow;
         current := match currentEvent with
                    | Some c => toDtoWithTz (Some c) tz
                    | None => None
                    end |}
  end.
End Timeline.

(** ** Parsed events *)

(** [datetype]: ["date"] for an all-day event, ["date-time"] otherwise. *)
Inductive DateType := DateOnly | DateTime.

(** The object [parseVEvent] builds.  [rrule] keeps the rule's text:
    the handler only tests its presence, the instants come from the
    ical.js iterator of the event's [component]. *)
Record VEvent := mkVEvent {
  ev_uid : option string;
  summary : option string;
  ev_location : option string;
  ev_organizer : option string;
  start : option Z;
  end_ : option Z;
  recurrenceId : option Z;
  rrule : option string;
  exdate : list (list Z);
  ev_status : option string;
  datetype : DateType
}.

(** [Map<recurrenceIdMs, override>] and [Map<uid, Map<..>>]. *)
Abbreviation OverrideMap := (list (Z * VEvent)).
Abbreviation OverridesByUid := (list (string * list (Z * VEvent))).

(** [isExcluded(date, exdates)]: every value of every EXDATE property
    is compared by instant. *)
Definition isExcluded (t : Z) (exdates : list (list Z)) : bool :=
  existsb (fun values => existsb (fun v => v =? t) values) exdates.

(** [7 * 24 * 60 * 60 * 1000] *)
Definition weekMs : Z := 7 * 24 * 60 * 60 * 1000.

(** [24 * 60 * 60 * 1000], the [maxEventDuration] of the smart skip. *)
Definition maxEventDuration : Z := 24 * 60 * 60 * 1000.

(** State of the [while] loop over the iterator. *)
Record LoopState := mkLoopState {
  occs : list Occurrence;
  usedOverrides : gset Z;
  instanceCount : Z
}.

Section Expander.
(** [Number(process.env.DEFAULT_DURATION_MIN || "60")], in minutes. *)
Variable DEFAULT_DURATION_MIN : Z.
(** The ical.js collaborator: [icalIterator ev k] is what the
    [k]-th call of [iterator.next()] returns for the event's
    component, as an instant; [None] is the [null] that ends it. *)
Variable icalIterator : VEvent -> nat -> option Z.

Definition calcDurationMsFromEvent (e : VEvent) : Z :=
  match start e, end_ e with
  | Some s, Some en =>
      let dur := en - s in
      if (dur >? 0) && (dur <? weekMs) then dur
      else DEFAULT_DURATION_MIN * 60000
  | _, _ => DEFAULT_DURATION_MIN * 60000
  end.

Definition calcEndMs (ev : VEvent) (occStart : Z) (overrideEv : option VEvent) : Z :=
  let fallback :=
    occStart + calcDurationMsFromEvent (default ev overrideEv) in
  match overrideEv ≫= end_ with
  | Some endMs => if endMs >? occStart then endMs else fallback
  | None => fallback
  end.

Definition baseTitle (ev : VEvent) : string := jsOrStr (summary ev) "(No title)".
Definition baseLocation (ev : VEvent) : option string := jsOr (ev_location ev) None.
Definition baseOrganizer (ev : VEvent) : option string := ev_organizer ev.

Definition mkOcc (ev : VEvent) (startDate : Z) (overrideEv : option VEvent)
  : Occurrence :=
  {| uid := Some (jsOrStr (ev_uid ev) "");
     title := jsOrStr (nullish (overrideEv ≫= summary) (Some (baseTitle ev)))
                      "(No title)";
     location := nullish (nullish (overrideEv ≫= ev_location) (baseLocation ev)) None;
     organizer := nullish (nullish (overrideEv ≫= ev_organizer) (baseOrganizer ev)) None;
     startMs := startDate;
     endMs := calcEndMs ev startDate overrideEv;
     status := nullish (overrideEv ≫= ev_status) (ev_status ev) |}.

(** [occ.status === "CANCELLED" || occ.title.startsWith("Canceled:")] *)
Definition isCancelledOcc (o : Occurrence) : bool :=
  bool_decide (status o = Some "CANCELLED") || startsWith (title o) "Canceled:".

(** [startMs < windowEndMs && endMs > windowStartMs] *)
Definition overlapsWindow (s e windowStartMs windowEndMs : Z) : bool :=
  (s <? windowEndMs) && (e >? windowStartMs).

(** The loop body from the EXDATE check on, for one candidate. *)
Definition processCandidate (ev : VEvent) (windowStartMs windowEndMs : Z)
    (uidOverrides : option OverrideMap) (st : LoopState) (occMs : Z) : LoopState :=
  if isExcluded occMs (exdate ev) then st
  else
    let override := uidOverrides ≫= (fun m => JsMap.get m occMs) in
    let st :=
      match override with
      | Some _ =>
          {| occs := occs st;
             usedOverrides := {[ occMs ]} ∪ usedOverrides st;
             instanceCount := instanceCount st |}
      | None => st
      end in
    if bool_decide (override ≫= ev_status = Some "CANCELLED") then st
    else
      let startDate := default occMs (override ≫= start) in
      let endMs := calcEndMs ev startDate override in
      if overlapsWindow startDate endMs windowStartMs windowEndMs then
        let occ := mkOcc ev startDate override in
        if isCancelledOcc occ then st
        else {| occs := occs st ++ [occ];
                usedOverrides := usedOverrides st;
                instanceCount := instanceCount st |}
      else st.

(** The smart skip: [occMs + maxEventDuration < windowStartMs]. *)
Definition smartSkip (windowStartMs occMs : Z) : bool :=
  occMs + maxEventDuration <? windowStartMs.

(** One pass of the loop body after the window-end test. *)
Definition loopBody (ev : VEvent) (windowStartMs windowEndMs : Z)
    (uidOverrides : option OverrideMap) (st : LoopState) (occMs : Z) : LoopState :=
  if smartSkip windowStartMs occMs then st
  else processCandidate ev windowStartMs windowEndMs uidOverrides st occMs.

Definition countInstance (st : LoopState) : LoopState :=
  {| occs := occs st;
     usedOverrides := usedOverrides st;
     instanceCount := instanceCount st + 1 |}.

(** [while ((next = iterator.next())) { ... }], the [k]-th call of
    [next] being the first one still to make.  [fuel] bounds the
    number of passes the model follows: [None] means the loop was
    still running after [fuel] passes. *)
Fixpoint iterateRule (fuel : nat) (ev : VEvent) (windowStartMs windowEndMs : Z)
    (uidOverrides : option OverrideMap) (k : nat) (st : LoopState)
  : option LoopState :=
  match fuel with
  | O => None
  | S fuel' =>
      match icalIterator ev k with
      | None => Some st
      | Some occMs =>
          let st := countInstance st in
          if occMs >=? windowEndMs then Some st
          else iterateRule fuel' ev windowStartMs windowEndMs uidOverrides (S k)
                 (loopBody ev windowStartMs windowEndMs uidOverrides st occMs)
      end
  end.

(** One pass of the loop over [uidOverrides.entries()] that appends
    the overrides the iterator never reached. *)
Definition standaloneOverride (ev : VEvent) (windowStartMs windowEndMs : Z)
    (used : gset Z) (acc : list Occurrence) (entry : Z * VEvent) : list Occurrence :=
  let '(recIdMs, override) := entry in
  if bool_decide (recIdMs ∈ used) then acc
  else if bool_decide (ev_status override = Some "CANCELLED") then acc
  else
    match start override with
    | None => acc
    | Some occStartMs =>
        let occEndMs :=
          match end_ override with
          | Some e => e
          | None => occStartMs + DEFAULT_DURATION_MIN * 60000
          end in
        if overlapsWindow occStartMs occEndMs windowStartMs windowEndMs then
          let title :=
            jsOrStr (jsOr (summary override) (Some (baseTitle ev))) "(No title)" in
          if startsWith title "Canceled:" then acc
          else acc ++ [ {| uid := ev_uid override;
                           title := title;
                           location := jsOr (jsOr (ev_location override) (baseLocation ev)) None;
                           organizer := jsOr (jsOr (ev_organizer override) (baseOrganizer ev)) None;
                           startMs := occStartMs;
                           endMs := occEndMs;
                           status := None |} ]
        else acc
    end.

Definition appendUnusedOverrides (ev : VEvent) (windowStartMs windowEndMs : Z)
    (uidOverrides : option OverrideMap) (st : LoopState) : list Occurrence :=
  match uidOverrides with
  | None => occs st
  | Some m =>
      fold_left (standaloneOverride ev windowStartMs windowEndMs (usedOverrides st))
                (JsMap.entries m) (occs st)
  end.

Definition initialLoopState : LoopState :=
  {| occs := []; usedOverrides := ∅; instanceCount := 0 |}.

Definition expandOccurrencesInWindow (fuel : nat) (ev : VEvent)
    (windowStartMs windowEndMs : Z) (overridesByUid : OverridesByUid)
  : option (list Occurrence) :=
  let uid := jsOrStr (ev_uid ev) "" in
  let uidOverrides := JsMap.get overridesByUid uid in
  match datetype ev with
  | DateOnly => Some []
  | DateTime =>
      match start ev with
      | None => Some []
      | Some evStart =>
          match rrule ev with
          | None =>
              let startMs := evStart in
              let endMs := default (startMs + DEFAULT_DURATION_MIN * 60000) (end_ ev) in
              if overlapsWindow startMs endMs windowStartMs windowEndMs then
                let occ := mkOcc ev evStart None in
                if isCancelledOcc occ then Some [] else Some [occ]
              else Some []
          | Some _ =>
              match iterateRule fuel ev windowStartMs windowEndMs uidOverrides
                      0%nat initialLoopState with
              | None => None
              | Some st =>
                  Some (appendUnusedOverrides ev windowStartMs windowEndMs uidOverrides st)
              end
          end
      end
  end.
End Expander.

(** ** OverrideResolver: [separateMasterAndOverrides] *)

Record Separated := mkSeparated {
  masterEvents : list VEvent;
  overridesByUid : OverridesByUid;
  masterUids : gset string
}.

(** First pass: the uids that have a master. *)
Definition collectMasterUids (events : list VEvent) : gset string :=
  fold_left
    (fun acc ev =>
       match ev_uid ev with
       | Some u =>
           if truthy (Some u) && negb (bool_decide (is_Some (recurrenceId ev)))
           then {[ u ]} ∪ acc else acc
       | None => acc
       end)
    events ∅.

(** Second pass, one event. *)
Definition separateStep (acc : list VEvent * OverridesByUid) (ev : VEvent)
  : list VEvent * OverridesByUid :=
  let '(masters, byUid) := acc in
  match ev_uid ev with
  | None => acc
  | Some u =>
      if negb (truthy (Some u)) then acc
      else
        match recurrenceId ev with
        | None => (masters ++ [ev], byUid)
        | Some recIdMs =>
            let innerMap := default [] (JsMap.get byUid u) in
            (masters, JsMap.set byUid u (JsMap.set innerMap recIdMs ev))
        end
  end.

Definition separateMasterAndOverrides (events : list VEvent) : Separated :=
  let '(masters, byUid) := fold_left separateStep events ([], []) in
  {| masterEvents := masters;
     overridesByUid := byUid;
     masterUids := collectMasterUids events |}.

(** ** The handler's occurrence list *)

(** [occs.sort((a, b) => a.startMs - b.startMs)]: a stable sort. *)
Fixpoint insertByStart (o : Occurrence) (sorted : list Occurrence) : list Occurrence :=
  match sorted with
  | [] => [o]
  | x :: sorted' =>
      if startMs o <? startMs x then o :: x :: sorted'
      else x :: insertByStart o sorted'
  end.

Definition sortByStart (l : list Occurrence) : list Occurrence :=
  fold_left (fun acc o => insertByStart o acc) l [].

Section Handler.
Variable DEFAULT_DURATION_MIN : Z.
Variable icalIterator : VEvent -> nat -> option Z.

(** The loop over [masterEvents]: expand, keep what overlaps
    [[nowMs, endMs)]. *)
Fixpoint expandMasters (fuel : nat) (masters : list VEvent) (startMs' endMs' nowMs : Z)
    (byUid : OverridesByUid) (acc : list Occurrence) : option (list Occurrence) :=
  match masters with
  | [] => Some acc
  | ev :: masters' =>
      match expandOccurrencesInWindow DEFAULT_DURATION_MIN icalIterator
              fuel ev startMs' endMs' byUid with
      | None => None
      | Some expanded =>
          expandMasters fuel masters' startMs' endMs' nowMs byUid
            (acc ++ filter (fun o => (startMs o <? endMs') && (endMs o >? nowMs) = true)
                      expanded)
      end
  end.

(** The loop over one orphaned uid's overrides. *)
Definition orphanedOverride (startMs' endMs' : Z) (acc : list Occurrence)
    (entry : Z * VEvent) : list Occurrence :=
  let '(_, override) := entry in
  if bool_decide (ev_status override = Some "CANCELLED") then acc
  else
    match start override with
    | None => acc
    | Some occStartMs =>
        if (occStartMs >=? startMs') && (occStartMs <? endMs') then
          let occEndMs :=
            match end_ override with
            | Some e => e
            | None => occStartMs + DEFAULT_DURATION_MIN * 60000
            end in
          acc ++ [ {| uid := ev_uid override;
                      title := jsOrStr (summary override) "(No title)";
                      location := jsOr (ev_location override) None;
                      organizer := jsOr (ev_organizer override) None;
                      startMs := occStartMs;
                      endMs := occEndMs;
                      status := None |} ]
        else acc
    end.

Definition orphanedOverrides (sep : Separated) (startMs' endMs' : Z)
    (acc : list Occurrence) : list Occurrence :=
  fold_left
    (fun acc '(u, overrideMap) =>
       if bool_decide (u ∈ masterUids sep) then acc
       else fold_left (orphanedOverride startMs' endMs') (JsMap.entries overrideMap) acc)
    (JsMap.entries (overridesByUid sep)) acc.

(** The sorted [occs] the handler hands to the timeline. *)
Definition handlerOccurrences (fuel : nat) (allEvents : list VEvent)
    (startMs' endMs' nowMs : Z) : option (list Occurrence) :=
  let sep := separateMasterAndOverrides allEvents in
  match expandMasters fuel (masterEvents sep) startMs' endMs' nowMs
          (overridesByUid sep) [] with
  | None => None
  | Some occs =>
      Some (sortByStart (orphanedOverrides sep startMs' endMs' occs))
  end.
End Handler.

(** The response body, [{ ...metrics, ...triple }] (the window and the
    generation stamp aside). *)
Record Body := mkBody {
  body_metrics : Metrics;
  body_triple : Triple
}.

Section Response.
Variable isoWithTimeZone : Z -> string -> string.
Variable Date_parse : string -> Z.

Definition responseBody (occs : list Occurrence) (nowMs : Z) (tz : string) : Body :=
  let triple := computeNextTriple isoWithTimeZone occs nowMs tz in
  let metrics := computeMetrics isoWithTimeZone Date_parse occs nowMs (next triple) tz in
  {| body_metrics := metrics; body_triple := triple |}.
End Response.

(** ** WindowCalculator: [todayWindow] *)

(** The numeric fields [Intl.DateTimeFormat(..).formatToParts] reports
    for an instant in a zone. *)
Record DateParts := mkDateParts {
  year : Z;
  month : Z;
  day : Z;
  hour : Z;
  minute : Z;
  second : Z
}.

Record Window := mkWindow {
  w_startMs : Z;
  w_endMs : Z
}.

Definition msPerDay : Z := 86400000.

(** Days between the epoch and a civil date of the proleptic
    Gregorian calendar ([m] from 1 to 12). *)
Definition daysFromCivil (y m d : Z) : Z :=
  let y' := if m <=? 2 then y - 1 else y in
  let era := y' / 400 in
  let yoe := y' - era * 400 in
  let doy := (153 * (if m >? 2 then m - 3 else m + 9) + 2) / 5 + d - 1 in
  let doe := yoe * 365 + yoe / 4 - yoe / 100 + doy in
  era * 146097 + doe - 719468.

(** ECMAScript [MakeDay(year, month, date)], [month] counted from 0. *)
Definition MakeDay (yr mon date : Z) : Z :=
  daysFromCivil (yr + mon / 12) (mon mod 12 + 1) 1 + date - 1.

(** [Date.UTC(year, monthIndex, day, hour, minute, second)]. *)
Definition Date_UTC (yr mon d h mi s : Z) : Z :=
  let yr := if (0 <=? yr) && (yr <=? 99) then 1900 + yr else yr in
  MakeDay yr mon d * msPerDay + (h * 3600000 + mi * 60000 + s * 1000).

(** [new Date(`${y}-${m}-${d}T00:00:00Z`).getTime()] *)
Definition utcMidnightOf (y m d : Z) : Z := MakeDay y (m - 1) d * msPerDay.

(** [date.setUTCDate(date.getUTCDate() + 1)]: [MakeDay] is linear in
    its date argument, so the instant moves by one UTC day. *)
Definition setUTCDateNext (t : Z) : Z := t + msPerDay.

Section WindowCalculator.
(** [formatToParts timeZone t]: the wall-clock fields of instant [t]
    in the zone, as the runtime's zone database gives them. *)
Variable formatToParts : string -> Z -> DateParts.

Definition shiftUtcToZonedMidnightMs (utcMidnightDate : Z) (timeZone : string) : Z :=
  let p := formatToParts timeZone utcMidnightDate in
  let asIfUtc :=
    Date_UTC (year p) (month p - 1) (day p) (hour p) (minute p) (second p) in
  let offsetMs := asIfUtc - utcMidnightDate in
  utcMidnightDate - offsetMs.

Definition todayWindow (nowMs : Z) (timeZone : string) : Window :=
  let parts := formatToParts timeZone nowMs in
  let approxUtcMidnight := utcMidnightOf (year parts) (month parts) (day parts) in
  let startMs := shiftUtcToZonedMidnightMs approxUtcMidnight timeZone in
  let nextDayApproxUtcMidnight := setUTCDateNext approxUtcMidnight in
  let endMs := shiftUtcToZonedMidnightMs nextDayApproxUtcMidnight timeZone in
  {| w_startMs := startMs; w_endMs := endMs |}.

(** The zone offset the round trip of [shiftUtcToZonedMidnightMs]
    measures at an instant. *)
Definition measuredOffset (timeZone : string) (t : Z) : Z :=
  let p := formatToParts timeZone t in
  Date_UTC (year p) (month p - 1) (day p) (hour p) (minute p) (second p) - t.
End WindowCalculator.

(** ** TimeZoneNormalizer: [normalizeIcsTimezones] *)

(** The pieces the two regular expressions of the normalizer are made
    of. *)
Inductive RegexItem :=
| Lit (s : string)
| LazyAny
| GroupPlus (cls : ascii -> bool).

Record MatchResult := mkMatch {
  matched : string;
  group1 : string;
  rest : string
}.

(** [s] without the prefix [p], when it has it. *)
Fixpoint stripPrefix (p s : string) : option string :=
  match p with
  | EmptyString => Some s
  | String a p' =>
      match s with
      | EmptyString => None
      | String b s' => if Ascii.eqb a b then stripPrefix p' s' else None
      end
  end.

Definition extendMatch (pre : string) (r : MatchResult) : MatchResult :=
  {| matched := pre +:+ matched r; group1 := group1 r; rest := rest r |}.

(** A literal, then the rest of the pattern [k]. *)
Definition matchLit (l : string) (k : string -> option MatchResult) (s : string)
  : option MatchResult :=
  match stripPrefix l s with
  | Some s' => extendMatch l <$> k s'
  | None => None
  end.

(** [[\s\S]*?] before the rest of the pattern [k]: the shortest
    stretch after which [k] matches. *)
Fixpoint matchLazy (k : string -> option MatchResult) (s : string)
  : option MatchResult :=
  match k s with
  | Some r => Some r
  | None =>
      match s with
      | EmptyString => None
      | String c s' => extendMatch (String c "") <$> matchLazy k s'
      end
  end.

(** The group [([cls]+)] before the rest of the pattern [k]: the
    longest run of the class after which [k] matches. *)
Fixpoint matchGreedy (cls : ascii -> bool) (k : string -> option MatchResult)
    (s : string) : option MatchResult :=
  match s with
  | EmptyString => None
  | String c s' =>
      if cls c then
        match matchGreedy cls k s' with
        | Some r =>
            Some {| matched := String c (matched r);
                    group1 := String c (group1 r);
                    rest := rest r |}
        | None =>
            match k s' with
            | Some r =>
                Some {| matched := String c (matched r);
                        group1 := String c "";
                        rest := rest r |}
            | None => None
            end
        end
      else None
  end.

(** A backtracking match of the pattern at the start of the text. *)
Fixpoint matchHere (re : list RegexItem) : string -> option MatchResult :=
  match re with
  | [] => fun s => Some {| matched := ""; group1 := ""; rest := s |}
  | Lit l :: re' => matchLit l (matchHere re')
  | LazyAny :: re' => matchLazy (matchHere re')
  | GroupPlus cls :: re' => matchGreedy cls (matchHere re')
  end.

(** The leftmost match at or after the start of [s], with the text
    skipped before it. *)
Fixpoint search (re : list RegexItem) (s : string) : option (string * MatchResult) :=
  match matchHere re s with
  | Some r => Some ("", r)
  | None =>
      match s with
      | EmptyString => None
      | String c s' =>
          match search re s' with
          | Some (pre, r) => Some (String c pre, r)
          | None => None
          end
      end
  end.

(** The [while ((match = re.exec(text)) !== null)] loop of a global
    regular expression, collecting [match[1]].  Every match of the
    patterns below is non-empty, so [fuel] above the length of the
    text is never used up. *)
Fixpoint execAllGroups (fuel : nat) (re : list RegexItem) (s : string) : list string :=
  match fuel with
  | O => []
  | S fuel' =>
      match search re s with
      | Some (_, r) => group1 r :: execAllGroups fuel' re (rest r)
      | None => []
      end
  end.

(** [text.replaceAll(re, callback)], the callback receiving the match
    and its group. *)
Fixpoint replaceAllFuel (fuel : nat) (re : list RegexItem)
    (callback : string -> string -> string) (s : string) : string :=
  match fuel with
  | O => s
  | S fuel' =>
      match search re s with
      | Some (pre, r) =>
          pre +:+ callback (matched r) (group1 r)
              +:+ replaceAllFuel fuel' re callback (rest r)
      | None => s
      end
  end.

(** The matches [replaceAll] visits, in order. *)
Fixpoint allMatches (fuel : nat) (re : list RegexItem) (s : string)
  : list (string * string) :=
  match fuel with
  | O => []
  | S fuel' =>
      match search re s with
      | Some (_, r) => (matched r, group1 r) :: allMatches fuel' re (rest r)
      | None => []
      end
  end.

Definition isCR (c : ascii) : bool := Ascii.eqb c "013"%char.
Definition isLF (c : ascii) : bool := Ascii.eqb c "010"%char.

(** [/BEGIN:VTIMEZONE[\s\S]*?TZID:([^\r\n]+)[\s\S]*?END:VTIMEZONE/g] *)
Definition vtzRegex : list RegexItem :=
  [ Lit "BEGIN:VTIMEZONE"; LazyAny; Lit "TZID:";
    GroupPlus (fun c => negb (isCR c || isLF c));
    LazyAny; Lit "END:VTIMEZONE" ].

(** [/TZID=([^:;\r\n]+)/g] *)
Definition tzidRefRegex : list RegexItem :=
  [ Lit "TZID=";
    GroupPlus (fun c => negb (Ascii.eqb c ":" || Ascii.eqb c ";" || isCR c || isLF c)) ].

Definition scanFuel (s : string) : nat := S (String.length s).

(** The set [vtimezones] the first loop fills. *)
Definition declaredZones (icsText : string) : gset string :=
  list_to_set (execAllGroups (scanFuel icsText) vtzRegex icsText).

(** The zone-identifier references the second scan visits. *)
Definition zoneReferences (icsText : string) : list (string * string) :=
  allMatches (scanFuel icsText) tzidRefRegex icsText.

Section Normalizer.
(** [findIana] of the windows-iana package; no result is [[]]. *)
Variable findIana : string -> list string.

(** The replacement callback. *)
Definition rewriteReference (vtimezones : gset string) (match_ winTz : string) : string :=
  if bool_decide (winTz ∈ vtimezones) then match_
  else
    match findIana winTz with
    | [] => match_
    | first :: _ =>
        if String.eqb winTz "FLE Standard Time" then "TZID=Europe/Nicosia"
        else if String.eqb winTz "Pacific Standard Time" then "TZID=America/Los_Angeles"
        else "TZID=" +:+ first
    end.

Definition normalizeIcsTimezones (icsText : string) : string :=
  let vtimezones := declaredZones icsText in
  replaceAllFuel (scanFuel icsText) tzidRefRegex (rewriteReference vtimezones) icsText.
End Normalizer.

(** ** The older node-ical variant ([src/index.mjs]) *)

Module Legacy.
Section Legacy.
Variable formatToParts : string -> Z -> DateParts.
(** [new Date(ms).toISOString()] *)
Variable toISOString : Z -> string.

Definition toDto (o : option Occurrence) : option Dto :=
  match o with
  | None => None
  | Some o =>
      Some {| dto_uid := uid o;
              dto_title := title o;
              dto_location := nullish (location o) None;
              dto_organizer := nullish (organizer o) None;
              dto_start := toISOString (startMs o);
              dto_end := toISOString (endMs o) |}
  end.

(** This variant has no notion of a current event: [next] is the
    first occurrence starting after [nowMs]. *)
Definition computeNextTriple (occs : list Occurrence) (nowMs : Z) : Triple :=
  let nextIdx := findIndex (fun o => startMs o >? nowMs) occs in
  match atIndex occs nextIdx with
  | None =>
      {| next := None; nextOverlapping := None; nextNonOverlapping := None |}
  | Some nxt =>
      let rest := drop (Z.to_nat (nextIdx + 1)) occs in
      let nextOverlapping := scanOverlapping nxt rest in
      let clusterEnd := growCluster (endMs nxt) rest in
      let nextNonOverlapping := scanNonOverlapping clusterEnd rest in
      {| next := toDto (Some nxt);
         nextOverlapping := toDto nextOverlapping;
         nextNonOverlapping := toDto nextNonOverlapping |}
  end.

(** The filter its handler applies before the timeline:
    [o.startMs > nowMs && o.startMs < endMs]. *)
Definition keepUpcoming (nowMs endMs' : Z) (l : list Occurrence) : list Occurrence :=
  filter (fun o => (startMs o >? nowMs) && (startMs o <? endMs') = true) l.

(** Its window ends a fixed 24 hours after the start. *)
Definition todayWindow (nowMs : Z) (timeZone : string) : Window :=
  let parts := formatToParts timeZone nowMs in
  let approxUtcMidnight := utcMidnightOf (year parts) (month parts) (day parts) in
  let startMs := shiftUtcToZonedMidnightMs formatToParts approxUtcMidnight timeZone in
  let endMs := startMs + 24 * 60 * 60 * 1000 in
  {| w_startMs := startMs; w_endMs := endMs |}.
End Legacy.
End Legacy.

(** ** Vocabulary of the specification *)

(** [r] is the first element of [l] that satisfies [P], or [None] when
    no element does. *)
Definition FirstWhere {A} (P : A -> Prop) (l : list A) (r : option A) : Prop :=
  match r with
  | Some x => exists l1 l2, l = l1 ++ x :: l2 /\ Forall (fun y => ~ P y) l1 /\ P x
  | None => Forall (fun y => ~ P y) l
  end.

(** The half-open membership of the specification:
    [start <= now < end]. *)
Definition HoldsNow (nowMs : Z) (o : Occurrence) : Prop :=
  startMs o <= nowMs < endMs o.

(** [searchFrom]: the end of the current occurrence, else [now]. *)
Definition searchFrom (cur : option Occurrence) (nowMs : Z) : Z :=
  match cur with
  | Some c => endMs c
  | None => nowMs
  end.

(** An occurrence that one of the uid's overrides gave its start. *)
Definition BuiltFromOverride (uidOverrides : option OverrideMap) (o : Occurrence) : Prop :=
  exists t ov, In (t, ov) (default [] uidOverrides) /\ startMs o = default t (start ov).

(** The duration law for one occurrence of a master that starts at
    [s] and ends at [e]: the occurrence lasts [e - s], and its end is
    not the master's literal end unless its start is the master's; or
    else an override gave the occurrence its start. *)
Definition KeepsMasterDuration (s e : Z) (uidOverrides : option OverrideMap)
    (o : Occurrence) : Prop :=
  (endMs o - startMs o = e - s /\ (startMs o <> s -> endMs o <> e))
  \/ BuiltFromOverride uidOverrides o.

(** The recurrence rule has ended at an [iterator.next()] result: the
    iterator is exhausted, or the instant has reached [windowEnd]. *)
Definition RuleEnds (windowEndMs : Z) (x : option Z) : Prop :=
  x = None \/ exists t, x = Some t /\ windowEndMs <= t.

(** The exhaustive scan the specification compares the smart skip
    with: the same loop, every candidate instant going through the
    full body. *)
Section ExhaustiveScan.
Variable DEFAULT_DURATION_MIN : Z.
Variable icalIterator : VEvent -> nat -> option Z.

Fixpoint iterateRuleExhaustive (fuel : nat) (ev : VEvent) (windowStartMs windowEndMs : Z)
    (uidOverrides : option OverrideMap) (k : nat) (st : LoopState)
  : option LoopState :=
  match fuel with
  | O => None
  | S fuel' =>
      match icalIterator ev k with
      | None => Some st
      | Some occMs =>
          let st := countInstance st in
          if occMs >=? windowEndMs then Some st
          else iterateRuleExhaustive fuel' ev windowStartMs windowEndMs uidOverrides (S k)
                 (processCandidate DEFAULT_DURATION_MIN ev windowStartMs windowEndMs
                    uidOverrides st occMs)
      end
  end.

Definition expandOccurrencesExhaustive (fuel : nat) (ev : VEvent)
    (windowStartMs windowEndMs : Z) (overridesByUid : OverridesByUid)
  : option (list Occurrence) :=
  let uid := jsOrStr (ev_uid ev) "" in
  let uidOverrides := JsMap.get overridesByUid uid in
  match datetype ev with
  | DateOnly => Some []
  | DateTime =>
      match start ev with
      | None => Some []
      | Some evStart =>
          match rrule ev with
          | None =>
              let startMs := evStart in
              let endMs := default (startMs + DEFAULT_DURATION_MIN * 60000) (end_ ev) in
              if overlapsWindow startMs endMs windowStartMs windowEndMs then
                let occ := mkOcc DEFAULT_DURATION_MIN ev evStart None in
                if isCancelledOcc occ then Some [] else Some [occ]
              else Some []
          | Some _ =>
              match iterateRuleExhaustive fuel ev windowStartMs windowEndMs uidOverrides
                      0%nat initialLoopState with
              | None => None
              | Some st =>
                  Some (appendUnusedOverrides DEFAULT_DURATION_MIN ev
                          windowStartMs windowEndMs uidOverrides st)
              end
          end
      end
  end.
End ExhaustiveScan.

(** A matcher that splits the text into what it matched and the rest. *)
Definition SplitsText (k : string -> option MatchResult) : Prop :=
  forall s r, k s = Some r -> s = matched r +:+ rest r.

(** ** Sample data *)

Definition hourMs : Z := 3600000.
Definition minuteMs : Z := 60000.

(** A timed event with the given fields and nothing else set. *)
Definition sampleEvent (u : string) (title : string) (s e : option Z)
    (recId : option Z) (rule : option string) (ex : list (list Z))
    (st : option string) : VEvent :=
  {| ev_uid := Some u; summary := Some title; ev_location := None;
     ev_organizer := None; start := s; end_ := e; recurrenceId := recId;
     rrule := rule; exdate := ex; ev_status := st; datetype := DateTime |}.

(** A stand-in for the ical.js iterator on the sample rules: daily
    instances from the event's start, five of them for [COUNT=5], and
    a rule that never advances for ["STUCK"]. *)
Definition sampleIterator (ev : VEvent) (k : nat) : option Z :=
  match start ev, rrule ev with
  | Some s, Some rule =>
      if String.eqb rule "FREQ=DAILY" then Some (s + Z.of_nat k * msPerDay)
      else if String.eqb rule "FREQ=DAILY;COUNT=5" then
        if (k <? 5)%nat then Some (s + Z.of_nat k * msPerDay) else None
      else if String.eqb rule "STUCK" then Some s
      else None
  | _, _ => None
  end.

(** Midnight UTC of the [n]-th day after the epoch. *)
Definition dayMs (n : Z) : Z := n * msPerDay.

(** A daily 15-minute meeting, 11:00 to 11:15 on day 0. *)
Definition sampleTriage : VEvent :=
  sampleEvent "triage" "Daily Bug Triage" (Some (11 * hourMs))
    (Some (11 * hourMs + 15 * minuteMs)) None (Some "FREQ=DAILY") [] None.

(** An override of its day-80 instance that moves the start to 12:00
    and carries no end. *)
Definition sampleMovedNoEnd : VEvent :=
  sampleEvent "triage" "Daily Bug Triage (moved)" (Some (dayMs 80 + 12 * hourMs))
    None (Some (dayMs 80 + 11 * hourMs)) None [] None.

(** The same override as ical.js reports it when the VEVENT has no
    DTEND: the end is the start. *)
Definition sampleMovedEndAtStart : VEvent :=
  sampleEvent "triage" "Daily Bug Triage (moved)" (Some (dayMs 80 + 12 * hourMs))
    (Some (dayMs 80 + 12 * hourMs)) (Some (dayMs 80 + 11 * hourMs)) None [] None.

(** A five-day stand-up, 09:00 to 09:30 from day 0. *)
Definition sampleStandup : VEvent :=
  sampleEvent "standup" "Daily Standup" (Some (9 * hourMs))
    (Some (9 * hourMs + 30 * minuteMs)) None (Some "FREQ=DAILY;COUNT=5") [] None.

(** An override for day 39, long after the series ended, whose VEVENT
    has no DTEND: ical.js then reports the start as its end. *)
Definition sampleRescheduled : VEvent :=
  sampleEvent "standup" "Daily Standup (Rescheduled)"
    (Some (dayMs 39 + 8 * hourMs + 15 * minuteMs))
    (Some (dayMs 39 + 8 * hourMs + 15 * minuteMs))
    (Some (dayMs 39 + 9 * hourMs)) None [] (Some "CONFIRMED").

(** The same override under a uid that has no master. *)
Definition sampleOrphan : VEvent :=
  sampleEvent "gone" "Leftover"
    (Some (dayMs 39 + 8 * hourMs + 15 * minuteMs))
    (Some (dayMs 39 + 8 * hourMs + 15 * minuteMs))
    (Some (dayMs 39 + 9 * hourMs)) None [] (Some "CONFIRMED").

(** A daily event that lasts 48 hours, from 06:00 on day 0. *)
Definition sampleLong : VEvent :=
  sampleEvent "long" "Two-day shift" (Some (6 * hourMs)) (Some (54 * hourMs))
    None (Some "FREQ=DAILY") [] None.

(** An event whose rule never advances and never ends. *)
Definition sampleStuck : VEvent :=
  sampleEvent "stuck" "Stuck" (Some 0) (Some hourMs) None (Some "STUCK") [] None.

(** The triage meeting with its day-80 instance excluded. *)
Definition sampleTriageExcluded : VEvent :=
  sampleEvent "triage" "Daily Bug Triage" (Some (11 * hourMs))
    (Some (11 * hourMs + 15 * minuteMs)) None (Some "FREQ=DAILY")
    [[dayMs 80 + 11 * hourMs]] None.

(** An override of the day-80 instance, moved to 13:00 to 13:30. *)
Definition sampleMoved : VEvent :=
  sampleEvent "triage" "Daily Bug Triage (moved)" (Some (dayMs 80 + 13 * hourMs))
    (Some (dayMs 80 + 13 * hourMs + 30 * minuteMs))
    (Some (dayMs 80 + 11 * hourMs)) None [] None.

(** An override of the day-70 instance with an empty summary, moved
    into day 80. *)
Definition sampleMovedFar : VEvent :=
  {| ev_uid := Some "triage"; summary := Some ""; ev_location := None;
     ev_organizer := None; start := Some (dayMs 80 + 15 * hourMs);
     end_ := Some (dayMs 80 + 16 * hourMs);
     recurrenceId := Some (dayMs 70 + 11 * hourMs);
     rrule := None; exdate := []; ev_status := None; datetype := DateTime |}.

Definition occurrence (u title : string) (s e : Z) : Occurrence :=
  {| uid := Some u; title := title; location := None; organizer := None;
     startMs := s; endMs := e; status := None |}.

(** Civil date of a day count, the inverse of [daysFromCivil]. *)
Definition civilFromDays (z : Z) : Z * Z * Z :=
  let z := z + 719468 in
  let era := z / 146097 in
  let doe := z - era * 146097 in
  let yoe := (doe - doe / 1460 + doe / 36524 - doe / 146096) / 365 in
  let doy := doe - (365 * yoe + yoe / 4 - yoe / 100) in
  let mp := (5 * doy + 2) / 153 in
  let d := doy - (153 * mp + 2) / 5 + 1 in
  let m := if mp <? 10 then mp + 3 else mp - 9 in
  (yoe + era * 400 + (if m <=? 2 then 1 else 0), m, d).

(** The wall-clock fields of instant [t] at the UTC offset [off]. *)
Definition wallClock (off t : Z) : DateParts :=
  let local := t + off in
  let '(y, m, d) := civilFromDays (local / msPerDay) in
  let rem := local mod msPerDay in
  {| year := y; month := m; day := d;
     hour := rem / 3600000;
     minute := (rem / 60000) mod 60;
     second := (rem / 1000) mod 60 |}.

(** 2026-03-29T01:00:00Z, when Europe/Nicosia moves from UTC+2 to
    UTC+3. *)
Definition nicosiaSpringForward2026 : Z := 1774746000000.

(** A stand-in for the zone database: Europe/Nicosia around that
    change, UTC for every other name. *)
Definition sampleFormatToParts (timeZone : string) (t : Z) : DateParts :=
  if String.eqb timeZone "Europe/Nicosia" then
    wallClock (if t <? nicosiaSpringForward2026 then 2 * hourMs else 3 * hourMs) t
  else wallClock 0 t.

(** 2026-03-29T10:00:00Z *)
Definition sampleSpringNow : Z := 1774778400000.

Definition newline : string := String "010"%char "".

(** A calendar whose event refers to a Windows zone name that the
    calendar itself defines. *)
Definition sampleIcsWithZone : string :=
  "BEGIN:VCALENDAR" +:+ newline +:+
  "BEGIN:VTIMEZONE" +:+ newline +:+
  "TZID:FLE Standard Time" +:+ newline +:+
  "BEGIN:STANDARD" +:+ newline +:+
  "DTSTART:16010101T040000" +:+ newline +:+
  "TZOFFSETFROM:+0300" +:+ newline +:+
  "TZOFFSETTO:+0200" +:+ newline +:+
  "END:STANDARD" +:+ newline +:+
  "END:VTIMEZONE" +:+ newline +:+
  "BEGIN:VEVENT" +:+ newline +:+
  "UID:timezone-test-123" +:+ newline +:+
  "DTSTART;TZID=FLE Standard Time:20260209T101500" +:+ newline +:+
  "DTEND;TZID=FLE Standard Time:20260209T104500" +:+ newline +:+
  "END:VEVENT" +:+ newline +:+
  "END:VCALENDAR".

(** The same event in a calendar without the zone definition. *)
Definition sampleIcsWithoutZone : string :=
  "BEGIN:VCALENDAR" +:+ newline +:+
  "BEGIN:VEVENT" +:+ newline +:+
  "UID:timezone-test-123" +:+ newline +:+
  "DTSTART;TZID=FLE Standard Time:20260209T101500" +:+ newline +:+
  "DTEND;TZID=FLE Standard Time:20260209T104500" +:+ newline +:+
  "END:VEVENT" +:+ newline +:+
  "END:VCALENDAR".

Definition sampleIcsRewritten : string :=
  "BEGIN:VCALENDAR" +:+ newline +:+
  "BEGIN:VEVENT" +:+ newline +:+
  "UID:timezone-test-123" +:+ newline +:+
  "DTSTART;TZID=Europe/Nicosia:20260209T101500" +:+ newline +:+
  "DTEND;TZID=Europe/Nicosia:20260209T104500" +:+ newline +:+
  "END:VEVENT" +:+ newline +:+
  "END:VCALENDAR".

(** A stand-in for the windows-iana table. *)
Definition sampleFindIana (winTz : string) : list string :=
  if String.eqb winTz "FLE Standard Time" then ["Europe/Kiev"; "Europe/Helsinki"]
  else if String.eqb winTz "Pacific Standard Time" then ["America/Los_Angeles"]
  else [].

(** Three meetings of day 0: 10:15 to 10:45, 10:30 to 11:00 and 12:30
    to 13:30. *)
Definition sampleTimeline : list Occurrence :=
  [ occurrence "a" "Daily stand-up" (10 * hourMs + 15 * minuteMs) (10 * hourMs + 45 * minuteMs);
    occurrence "x" "Overlapping call" (10 * hourMs + 30 * minuteMs) (11 * hourMs);
    occurrence "b" "PayPal Discussion" (12 * hourMs + 30 * minuteMs) (13 * hourMs + 30 * minuteMs) ].

(** ** Further vocabulary *)

(** Two occurrences overlap: each starts before the other ends. *)
Definition Overlap (a b : Occurrence) : Prop :=
  startMs a < endMs b /\ startMs b < endMs a.

(** The latest end among [c] and the ends of a list of occurrences. *)
Fixpoint latestEnd (c : Z) (l : list Occurrence) : Z :=
  match l with
  | [] => c
  | o :: l' => latestEnd (Z.max c (endMs o)) l'
  end.

(** A chain that hangs on an occurrence ending at [c]: every member
    starts before the latest end of what precedes it. *)
Fixpoint Chain (c : Z) (l : list Occurrence) : Prop :=
  match l with
  | [] => True
  | o :: l' => startMs o < c /\ Chain (Z.max c (endMs o)) l'
  end.

(** Ascending by start, as the handler's sort leaves the list. *)
Definition StartSorted (l : list Occurrence) : Prop :=
  StronglySorted (fun a b => startMs a <= startMs b) l.

(** A stand-in for [isoWithTimeZone]: the instant in decimal, then the
    zone. *)
Definition sampleIso (ms : Z) (tz : string) : string := pretty ms +:+ "@" +:+ tz.

(** A stand-in for [Date.parse] that reads nothing back. *)
Definition sampleParse (s : string) : Z := 0.

(** The rendering of an occurrence under [sampleIso], in UTC. *)
Definition sampleRender (o : Occurrence) : Dto :=
  {| dto_uid := uid o; dto_title := title o;
     dto_location := location o; dto_organizer := organizer o;
     dto_start := sampleIso (startMs o) "UTC";
     dto_end := sampleIso (endMs o) "UTC" |}.

(** An occurrence the iterator loop pushed: built by [mkOcc] for a
    candidate instant that is not excluded, after the window test and
    the cancellation test. *)
Definition LoopBuilt (DEFAULT_DURATION_MIN : Z) (ev : VEvent) (ws we : Z)
    (uidOverrides : option OverrideMap) (o : Occurrence) : Prop :=
  exists t,
    o = mkOcc DEFAULT_DURATION_MIN ev
          (default t ((uidOverrides ≫= fun m => JsMap.get m t) ≫= start))
          (uidOverrides ≫= fun m => JsMap.get m t) /\
    isExcluded t (exdate ev) = false /\
    overlapsWindow (startMs o) (endMs o) ws we = true /\
    isCancelledOcc o = false.

(** An occurrence the pass over the unused overrides appended. *)
Definition StandaloneBuilt (DEFAULT_DURATION_MIN : Z) (ev : VEvent) (ws we : Z)
    (uidOverrides : option OverrideMap) (o : Occurrence) : Prop :=
  exists recIdMs ov s,
    In (recIdMs, ov) (default [] uidOverrides) /\
    start ov = Some s /\
    ev_status ov <> Some "CANCELLED" /\
    uid o = ev_uid ov /\
    startMs o = s /\
    endMs o = default (s + DEFAULT_DURATION_MIN * 60000) (end_ ov) /\
    status o = None /\
    overlapsWindow (startMs o) (endMs o) ws we = true /\
    startsWith (title o) "Canceled:" = false.

(** A cancelled instance of the triage meeting, and one retitled the
    Outlook way. *)
Definition sampleCancelled : VEvent :=
  sampleEvent "triage" "Daily Bug Triage" (Some (dayMs 80 + 11 * hourMs))
    (Some (dayMs 80 + 11 * hourMs + 15 * minuteMs))
    (Some (dayMs 80 + 11 * hourMs)) None [] (Some "CANCELLED").

Definition sampleCanceledTitle : VEvent :=
  sampleEvent "triage" "Canceled: Daily Bug Triage" (Some (dayMs 81 + 11 * hourMs))
    (Some (dayMs 81 + 11 * hourMs + 15 * minuteMs))
    (Some (dayMs 81 + 11 * hourMs)) None [] None.

(** A single meeting on day 80, 14:00 to 14:30. *)
Definition sampleSingle : VEvent :=
  sampleEvent "single" "One-off" (Some (dayMs 80 + 14 * hourMs))
    (Some (dayMs 80 + 14 * hourMs + 30 * minuteMs)) None None [] None.

(** An override filed under the uid of that single meeting. *)
Definition sampleSingleOverride : VEvent :=
  sampleEvent "single" "One-off (moved)" (Some (dayMs 80 + 16 * hourMs))
    (Some (dayMs 80 + 17 * hourMs)) (Some (dayMs 80 + 14 * hourMs)) None [] None.

(** A single event that starts two days before day 80 and lasts eight
    days. *)
Definition sampleEightDays : VEvent :=
  sampleEvent "fair" "Trade fair" (Some (dayMs 78)) (Some (dayMs 86)) None None [] None.

(** An event [separateMasterAndOverrides] files as a master: it has a
    uid and no recurrence id. *)
Definition isMasterEvent (ev : VEvent) : bool :=
  truthy (ev_uid ev) && negb (bool_decide (is_Some (recurrenceId ev))).

(** An event it files as the override of instant [r] under uid [u]. *)
Definition isOverrideOf (u : string) (r : Z) (ev : VEvent) : bool :=
  bool_decide (ev_uid ev = Some u) && truthy (Some u)
  && bool_decide (recurrenceId ev = Some r).

(** The override an uid has for an instant, through both maps. *)
Definition lookupOverride (byUid : OverridesByUid) (u : string) (r : Z) : option VEvent :=
  JsMap.get byUid u ≫= fun m => JsMap.get m r.

(** A second VEVENT for the day-80 instance of the triage meeting,
    parsed after [sampleMoved]. *)
Definition sampleMovedAgain : VEvent :=
  sampleEvent "triage" "Daily Bug Triage (moved again)" (Some (dayMs 80 + 15 * hourMs))
    (Some (dayMs 80 + 15 * hourMs + 30 * minuteMs))
    (Some (dayMs 80 + 11 * hourMs)) None [] None.

(** An event that lost its uid. *)
Definition sampleNoUid : VEvent :=
  {| ev_uid := None; summary := Some "Nameless"; ev_location := None;
     ev_organizer := None; start := Some (dayMs 80 + 9 * hourMs);
     end_ := Some (dayMs 80 + 10 * hourMs); recurrenceId := None;
     rrule := None; exdate := []; ev_status := None; datetype := DateTime |}.

(** A calendar: the triage series with two overrides of one instance,
    a one-off, an override without master, an event without uid. *)
Definition sampleCalendar : list VEvent :=
  [ sampleMoved; sampleTriage; sampleNoUid; sampleSingle; sampleOrphan; sampleMovedAgain ].

(** An occurrence the handler's pass over the orphaned overrides
    added: built from an override among the parsed events whose uid
    no master has. *)
Definition OrphanBuilt (DEFAULT_DURATION_MIN : Z) (events : list VEvent)
    (startMs' endMs' : Z) (o : Occurrence) : Prop :=
  exists ov u,
    In ov events /\ ev_uid ov = Some u /\ is_Some (recurrenceId ov) /\
    (forall m, In m events -> isMasterEvent m = true -> ev_uid m <> Some u) /\
    ev_status ov <> Some "CANCELLED" /\
    uid o = Some u /\
    start ov = Some (startMs o) /\
    startMs' <= startMs o < endMs' /\
    endMs o = default (startMs o + DEFAULT_DURATION_MIN * 60000) (end_ ov) /\
    status o = None.

(** Every override filed in the maps is a parsed event with the uid
    and the recurrence id of its two keys. *)
Definition EntriesFromEvents (events : list VEvent) (byUid : OverridesByUid) : Prop :=
  forall u m r ov,
    In (u, m) byUid -> In (r, ov) m ->
    In ov events /\ ev_uid ov = Some u /\ recurrenceId ov = Some r.

(** An all-day daily event: ical.js reports its start as a date. *)
Definition sampleAllDay : VEvent :=
  {| ev_uid := Some "holiday"; summary := Some "Office closed"; ev_location := None;
     ev_organizer := None; start := Some (dayMs 39); end_ := Some (dayMs 40);
     recurrenceId := None; rrule := Some "FREQ=DAILY"; exdate := [];
     ev_status := None; datetype := DateOnly |}.

(** A stand-in for a zone that moves its clock at local midnight:
    Asia/Beirut goes from UTC+2 to UTC+3 at 2026-03-28T22:00:00Z,
    which is 00:00 of the 29th there. *)
Definition beirutSpringForward2026 : Z := 1774735200000.

Definition sampleBeirutFormatToParts (timeZone : string) (t : Z) : DateParts :=
  if String.eqb timeZone "Asia/Beirut" then
    wallClock (if t <? beirutSpringForward2026 then 2 * hourMs else 3 * hourMs) t
  else wallClock 0 t.

(** ** Vocabulary for the normalizer *)

(** The text of the calendar, read without the two regular
    expressions: where a literal starts, what a reference is, what a
    VTIMEZONE block declares. *)

(** [lit] starts at no position of [gap] in the text [gap ++ follow]. *)
Fixpoint startsNowhere (lit gap follow : string) : bool :=
  match gap with
  | EmptyString => true
  | String _ gap' =>
      negb (String.prefix lit (gap +:+ follow)) && startsNowhere lit gap' follow
  end.

Fixpoint allChars (p : ascii -> bool) (s : string) : bool :=
  match s with
  | EmptyString => true
  | String c s' => p c && allChars p s'
  end.

Definition isNewline (c : ascii) : bool := isCR c || isLF c.

Fixpoint endsWithNewline (s : string) : bool :=
  match s with
  | EmptyString => false
  | String c s' =>
      match s' with
      | EmptyString => isNewline c
      | String _ _ => endsWithNewline s'
      end
  end.

(** A character an identifier may hold: any but [:], [;], CR, LF. *)
Definition zoneChar (c : ascii) : bool :=
  negb (Ascii.eqb c ":" || Ascii.eqb c ";" || isCR c || isLF c).

(** The longest stretch of such characters [s] starts with, and what
    follows it. *)
Fixpoint zoneRun (s : string) : string :=
  match s with
  | EmptyString => ""
  | String c s' => if zoneChar c then String c (zoneRun s') else ""
  end.

Fixpoint afterZoneRun (s : string) : string :=
  match s with
  | EmptyString => ""
  | String c s' => if zoneChar c then afterZoneRun s' else s
  end.

(** The identifier of the reference [s] starts with: ["TZID="] and
    then at least one such character. *)
Definition referenceAt (s : string) : option string :=
  match stripPrefix "TZID=" s with
  | Some t => if String.eqb (zoneRun t) "" then None else Some (zoneRun t)
  | None => None
  end.

(** No reference starts at a position of [gap] in [gap ++ follow]. *)
Fixpoint referenceFree (gap follow : string) : bool :=
  match gap with
  | EmptyString => true
  | String _ gap' =>
      match referenceAt (gap +:+ follow) with
      | Some _ => false
      | None => referenceFree gap' follow
      end
  end.

(** The identifier behind every ["TZID="] of the text that starts a
    reference. *)
Fixpoint referencedZones (s : string) : list string :=
  match s with
  | EmptyString => []
  | String _ s' =>
      match referenceAt s with
      | Some w => w :: referencedZones s'
      | None => referencedZones s'
      end
  end.

(** [out] is [text] with every reference replaced by what [callback]
    returns for it, from left to right, each reference taken as long
    as it can be, and nothing else touched. *)
Inductive Rewritten (callback : string -> string -> string) : string -> string -> Prop :=
| rewritten_rest (text : string) :
    referenceFree text "" = true ->
    Rewritten callback text text
| rewritten_reference (pre w rest out : string) :
    referenceFree pre ("TZID=" +:+ w +:+ rest) = true ->
    w <> "" ->
    zoneRun (w +:+ rest) = w ->
    Rewritten callback rest out ->
    Rewritten callback (pre +:+ "TZID=" +:+ w +:+ rest)
                       (pre +:+ callback ("TZID=" +:+ w) w +:+ out).

(** A VTIMEZONE block as it stands in a calendar text: the text
    [zb_gap] before it, then [BEGIN:VTIMEZONE], the lines [zb_mid]
    before the TZID line, the TZID line with its parameters, its value
    [zb_name] and its line end [zb_eol], the rest of the block
    [zb_body], and [END:VTIMEZONE]. *)
Record ZoneBlock := mkZoneBlock {
  zb_gap : string;
  zb_mid : string;
  zb_params : string;
  zb_name : string;
  zb_eol : ascii;
  zb_body : string
}.

Definition blockText (b : ZoneBlock) : string :=
  "BEGIN:VTIMEZONE" +:+ zb_mid b +:+ "TZID" +:+ zb_params b +:+ ":" +:+ zb_name b
    +:+ String (zb_eol b) (zb_body b +:+ "END:VTIMEZONE").

(** A calendar text laid out as its VTIMEZONE blocks and what follows
    the last one. *)
Fixpoint calendarText (blocks : list ZoneBlock) (tail : string) : string :=
  match blocks with
  | [] => tail
  | b :: blocks' => zb_gap b +:+ blockText b +:+ calendarText blocks' tail
  end.

(** Property parameters: nothing, or [;name=value] pieces without a
    colon or a line end. *)
Definition paramsOk (params : string) : bool :=
  match params with
  | EmptyString => true
  | String c params' =>
      Ascii.eqb c ";"
      && allChars (fun c => negb (Ascii.eqb c ":" || isNewline c)) params'
  end.

(** The layout is the text's own: no [BEGIN:VTIMEZONE] starts inside
    a gap, the TZID line starts a line, its value is not empty and
    ends with the line, and the block ends at its first
    [END:VTIMEZONE]. *)
Definition wellFormedBlock (b : ZoneBlock) (follow : string) : bool :=
  startsNowhere "BEGIN:VTIMEZONE" (zb_gap b) (blockText b +:+ follow)
  && endsWithNewline (zb_mid b)
  && paramsOk (zb_params b)
  && negb (String.eqb (zb_name b) "")
  && allChars (fun c => negb (isNewline c)) (zb_name b)
  && isNewline (zb_eol b)
  && startsNowhere "END:VTIMEZONE"
       (zb_mid b +:+ "TZID" +:+ zb_params b +:+ ":" +:+ zb_name b
          +:+ String (zb_eol b) (zb_body b))
       ("END:VTIMEZONE" +:+ follow).

Fixpoint wellFormedBlocks (blocks : list ZoneBlock) (tail : string) : bool :=
  match blocks with
  | [] => startsNowhere "BEGIN:VTIMEZONE" tail ""
  | b :: blocks' =>
      wellFormedBlock b (calendarText blocks' tail) && wellFormedBlocks blocks' tail
  end.

(** A plain block: the TZID line has no parameters, and no ["TZID:"]
    stands in the block before it. *)
Definition plainBlock (b : ZoneBlock) (follow : string) : bool :=
  String.eqb (zb_params b) ""
  && startsNowhere "TZID:" (zb_mid b)
       ("TZID:" +:+ zb_name b
          +:+ String (zb_eol b) (zb_body b +:+ "END:VTIMEZONE" +:+ follow)).

Fixpoint plainBlocks (blocks : list ZoneBlock) (tail : string) : bool :=
  match blocks with
  | [] => true
  | b :: blocks' => plainBlock b (calendarText blocks' tail) && plainBlocks blocks' tail
  end.

(** [sampleIcsWithZone] laid out: one block for "FLE Standard Time". *)
Definition sampleZoneBody : string :=
  "BEGIN:STANDARD" +:+ newline +:+
  "DTSTART:16010101T040000" +:+ newline +:+
  "TZOFFSETFROM:+0300" +:+ newline +:+
  "TZOFFSETTO:+0200" +:+ newline +:+
  "END:STANDARD" +:+ newline.

Definition sampleZoneTail : string :=
  newline +:+
  "BEGIN:VEVENT" +:+ newline +:+
  "UID:timezone-test-123" +:+ newline +:+
  "DTSTART;TZID=FLE Standard Time:20260209T101500" +:+ newline +:+
  "DTEND;TZID=FLE Standard Time:20260209T104500" +:+ newline +:+
  "END:VEVENT" +:+ newline +:+
  "END:VCALENDAR".

Definition sampleFleBlock : ZoneBlock :=
  {| zb_gap := "BEGIN:VCALENDAR" +:+ newline; zb_mid := newline; zb_params := "";
     zb_name := "FLE Standard Time"; zb_eol := "010"%char; zb_body := sampleZoneBody |}.

(** The same calendar with a note in the block, above the TZID
    line. *)
Definition sampleIcsNotedZone : string :=
  "BEGIN:VCALENDAR" +:+ newline +:+
  "BEGIN:VTIMEZONE" +:+ newline +:+
  "X-NOTE:see TZID:foo" +:+ newline +:+
  "TZID:FLE Standard Time" +:+ newline +:+
  "BEGIN:STANDARD" +:+ newline +:+
  "DTSTART:16010101T040000" +:+ newline +:+
  "TZOFFSETFROM:+0300" +:+ newline +:+
  "TZOFFSETTO:+0200" +:+ newline +:+
  "END:STANDARD" +:+ newline +:+
  "END:VTIMEZONE" +:+ newline +:+
  "BEGIN:VEVENT" +:+ newline +:+
  "UID:timezone-test-123" +:+ newline +:+
  "DTSTART;TZID=FLE Standard Time:20260209T101500" +:+ newline +:+
  "DTEND;TZID=FLE Standard Time:20260209T104500" +:+ newline +:+
  "END:VEVENT" +:+ newline +:+
  "END:VCALENDAR".

Definition sampleNotedBlock : ZoneBlock :=
  {| zb_gap := "BEGIN:VCALENDAR" +:+ newline;
     zb_mid := newline +:+ "X-NOTE:see TZID:foo" +:+ newline; zb_params := "";
     zb_name := "FLE Standard Time"; zb_eol := "010"%char; zb_body := sampleZoneBody |}.

Definition sampleIcsNotedRewritten : string :=
  "BEGIN:VCALENDAR" +:+ newline +:+
  "BEGIN:VTIMEZONE" +:+ newline +:+
  "X-NOTE:see TZID:foo" +:+ newline +:+
  "TZID:FLE Standard Time" +:+ newline +:+
  "BEGIN:STANDARD" +:+ newline +:+
  "DTSTART:16010101T040000" +:+ newline +:+
  "TZOFFSETFROM:+0300" +:+ newline +:+
  "TZOFFSETTO:+0200" +:+ newline +:+
  "END:STANDARD" +:+ newline +:+
  "END:VTIMEZONE" +:+ newline +:+
  "BEGIN:VEVENT" +:+ newline +:+
  "UID:timezone-test-123" +:+ newline +:+
  "DTSTART;TZID=Europe/Nicosia:20260209T101500" +:+ newline +:+
  "DTEND;TZID=Europe/Nicosia:20260209T104500" +:+ newline +:+
  "END:VEVENT" +:+ newline +:+
  "END:VCALENDAR".

(** The same calendar with a parameter on the TZID line of the
    block. *)
Definition sampleIcsParamZone : string :=
  "BEGIN:VCALENDAR" +:+ newline +:+
  "BEGIN:VTIMEZONE" +:+ newline +:+
  "TZID;X-P=1:FLE Standard Time" +:+ newline +:+
  "BEGIN:STANDARD" +:+ newline +:+
  "DTSTART:16010101T040000" +:+ newline +:+
  "TZOFFSETFROM:+0300" +:+ newline +:+
  "TZOFFSETTO:+0200" +:+ newline +:+
  "END:STANDARD" +:+ newline +:+
  "END:VTIMEZONE" +:+ newline +:+
  "BEGIN:VEVENT" +:+ newline +:+
  "UID:timezone-test-123" +:+ newline +:+
  "DTSTART;TZID=FLE Standard Time:20260209T101500" +:+ newline +:+
  "DTEND;TZID=FLE Standard Time:20260209T104500" +:+ newline +:+
  "END:VEVENT" +:+ newline +:+
  "END:VCALENDAR".

Definition sampleParamBlock : ZoneBlock :=
  {| zb_gap := "BEGIN:VCALENDAR" +:+ newline; zb_mid := newline; zb_params := ";X-P=1";
     zb_name := "FLE Standard Time"; zb_eol := "010"%char; zb_body := sampleZoneBody |}.

Definition sampleIcsParamRewritten : string :=
  "BEGIN:VCALENDAR" +:+ newline +:+
  "BEGIN:VTIMEZONE" +:+ newline +:+
  "TZID;X-P=1:FLE Standard Time" +:+ newline +:+
  "BEGIN:STANDARD" +:+ newline +:+
  "DTSTART:16010101T040000" +:+ newline +:+
  "TZOFFSETFROM:+0300" +:+ newline +:+
  "TZOFFSETTO:+0200" +:+ newline +:+
  "END:STANDARD" +:+ newline +:+
  "END:VTIMEZONE" +:+ newline +:+
  "BEGIN:VEVENT" +:+ newline +:+
  "UID:timezone-test-123" +:+ newline +:+
  "DTSTART;TZID=Europe/Nicosia:20260209T101500" +:+ newline +:+
  "DTEND;TZID=Europe/Nicosia:20260209T104500" +:+ newline +:+
  "END:VEVENT" +:+ newline +:+
  "END:VCALENDAR".

(** An event in a zone that neither the calendar nor the table
    knows. *)
Definition sampleIcsUnknownZone : string :=
  "BEGIN:VCALENDAR" +:+ newline +:+
  "BEGIN:VEVENT" +:+ newline +:+
  "UID:timezone-test-456" +:+ newline +:+
  "DTSTART;TZID=Custom Zone:20260209T101500" +:+ newline +:+
  "DTEND;TZID=Custom Zone:20260209T104500" +:+ newline +:+
  "END:VEVENT" +:+ newline +:+
  "END:VCALENDAR".

(** ** The request gate and the warm-container cache ([handler]) *)

(** The fields of the Lambda event the handler reads. *)
Record Event := mkEvent {
  event_body : option string;
  isBase64Encoded : bool;
  param_now : option string;
  param_tz : option string
}.

(** The environment variables, after their defaults. *)
Record Env := mkEnv {
  ICS_URL : option string;
  TZ : string;
  OVERRIDE_NOW : option string;
  CACHE_MS : Z
}.

(** [{ generatedAt, window: { start, end, tz }, ...metrics, ...triple }] *)
Record ResponseBody := mkResponseBody {
  generatedAt : string;
  window_start : string;
  window_end : string;
  window_tz : string;
  body_content : Body
}.

(** What [json] is given to serialize: an [{ error }] object or a
    body. *)
Inductive Payload :=
| ErrorBody (message : string)
| OkBody (body : ResponseBody).

Record Response := mkResponse {
  statusCode : Z;
  headers : list (string * string);
  payload : Payload
}.

(** [let cache = { at: 0, body: null }] *)
Record Cache := mkCache {
  cache_at : Z;
  cache_body : option ResponseBody
}.

Definition emptyCache : Cache := {| cache_at := 0; cache_body := None |}.

(** What one invocation finds outside the process: the clock behind
    [Date.now()], and what [fetchText] returns for a URL or the
    message of the error it throws. *)
Record Runtime := mkRuntime {
  Date_now : Z;
  fetchText : string -> string + string
}.

(** [json(statusCode, obj, extraHeaders)]: the two fixed headers, then
    the spread of [extraHeaders]. *)
Definition json (statusCode : Z) (obj : Payload) (extraHeaders : list (string * string))
  : Response :=
  {| statusCode := statusCode;
     headers :=
       fold_left (fun h kv => JsMap.set h (fst kv) (snd kv)) extraHeaders
         [("content-type", "application/json; charset=utf-8");
          ("cache-control", "no-store")];
     payload := obj |}.

(** [event.body && event.isBase64Encoded] *)
Definition hasInlineIcs (event : Event) : bool :=
  truthy (event_body event) && isBase64Encoded event.

(** [params.now || OVERRIDE_NOW] *)
Definition nowOverride (env : Env) (event : Event) : option string :=
  jsOr (param_now event) (OVERRIDE_NOW env).

(** [params.tz || TZ] *)
Definition requestTz (env : Env) (event : Event) : string :=
  jsOrStr (param_tz event) (TZ env).

Section RequestGate.
(** [isValidTimeZone]: whether [Intl.DateTimeFormat] accepts the
    name. *)
Variable isValidTimeZone : string -> bool.
(** [Date.parse] on the override; [None] is [NaN]. *)
Variable Date_parse : string -> option Z.
(** [Buffer.from(body, 'base64').toString('utf-8')] *)
Variable decodeBase64 : string -> string.
(** Everything between the cache test and the cache update, for the
    calendar text at hand: the window, the normalizer, ical.js, the
    expansion, the timeline and the body; the left side is the
    message of an exception thrown on the way. *)
Variable buildBody : Runtime -> Z -> string -> string -> string + ResponseBody.

(** [nowOverride ? Date.parse(nowOverride) : Date.now()], [None] when
    the result is not finite. *)
Definition requestNow (env : Env) (rt : Runtime) (event : Event) : option Z :=
  match nowOverride env event with
  | Some text => if truthy (Some text) then Date_parse text else Some (Date_now rt)
  | None => Some (Date_now rt)
  end.

(** One invocation: the response and the cache it leaves. *)
Definition handler (env : Env) (cache : Cache) (rt : Runtime) (event : Event)
  : Response * Cache :=
  let icsUrl := if hasInlineIcs event then None else ICS_URL env in
  if negb (hasInlineIcs event) && negb (truthy icsUrl) then
    (json 500 (ErrorBody "ICS_URL env var is missing") [], cache)
  else
    let tz := requestTz env event in
    if negb (isValidTimeZone tz) then
      (json 400 (ErrorBody ("Invalid timezone: " +:+ tz)) [], cache)
    else
      match requestNow env rt event with
      | None =>
          (json 400
             (ErrorBody ("Invalid now override: " +:+ default "" (nowOverride env event)))
             [],
           cache)
      | Some nowMs =>
          let hit :=
            if negb (hasInlineIcs event) then
              match cache_body cache with
              | Some body => if nowMs - cache_at cache <? CACHE_MS env then Some body else None
              | None => None
              end
            else None in
          match hit with
          | Some body => (json 200 (OkBody body) [("x-cache", "HIT")], cache)
          | None =>
              let icsText :=
                if hasInlineIcs event then inr (decodeBase64 (default "" (event_body event)))
                else fetchText rt (default "" icsUrl) in
              match icsText with
              | inl message => (json 500 (ErrorBody message) [], cache)
              | inr icsText =>
                  match buildBody rt nowMs tz icsText with
                  | inl message => (json 500 (ErrorBody message) [], cache)
                  | inr body =>
                      (json 200 (OkBody body) [("x-cache", "MISS")],
                       if negb (hasInlineIcs event)
                       then {| cache_at := nowMs; cache_body := Some body |}
                       else cache)
                  end
              end
          end
      end.
End RequestGate.

(** Stand-ins for a run: two zone names are valid, one instant can be
    parsed, the URL answers with the calendar of the samples, and the
    body only records the stamp and the zone. *)
Definition sampleEnv : Env :=
  {| ICS_URL := Some "https://calendar.example/team.ics"; TZ := "Europe/Nicosia";
     OVERRIDE_NOW := None; CACHE_MS := 60000 |}.

Definition sampleIsValidTimeZone (tz : string) : bool :=
  String.eqb tz "Europe/Nicosia" || String.eqb tz "UTC".

(** 2026-02-09T08:00:00Z and 2026-02-09T06:00:00Z *)
Definition sampleDateParse (text : string) : option Z :=
  if String.eqb text "2026-02-09T08:00:00Z" then Some 1770624000000
  else if String.eqb text "2026-02-09T06:00:00Z" then Some 1770616800000
  else None.

Definition sampleRuntime (clock : Z) : Runtime :=
  {| Date_now := clock;
     fetchText := fun url =>
       if String.eqb url "https://calendar.example/team.ics" then inr sampleIcsWithZone
       else inl ("HTTP 404 for " +:+ url) |}.

Definition sampleBuildBody (rt : Runtime) (nowMs : Z) (tz icsText : string)
  : string + ResponseBody :=
  if String.prefix "BEGIN:VCALENDAR" icsText then
    inr {| generatedAt := pretty (Date_now rt);
           window_start := pretty nowMs; window_end := pretty (nowMs + msPerDay);
           window_tz := tz;
           body_content :=
             {| body_metrics := {| now := pretty nowMs; minutesUntilNext := None;
                                   isOverlappingNow := false; current := None |};
                body_triple := {| next := None; nextOverlapping := None;
                                  nextNonOverlapping := None |} |} |}
  else inl "invalid ical body".

(** A plain request, and one that asks for an earlier [now] in
    another zone. *)
Definition samplePlainRequest : Event :=
  {| event_body := None; isBase64Encoded := false;
     param_now := Some "2026-02-09T08:00:00Z"; param_tz := None |}.

Definition sampleEarlierRequest : Event :=
  {| event_body := None; isBase64Encoded := false;
     param_now := Some "2026-02-09T06:00:00Z"; param_tz := Some "UTC" |}.

(** A request that carries its calendar, "QkVHSU4=" standing for the
    encoded text. *)
Definition sampleInlineRequest : Event :=
  {| event_body := Some "QkVHSU4="; isBase64Encoded := true;
     param_now := None; param_tz := None |}.

Definition sampleDecodeBase64 (text : string) : string :=
  if String.eqb text "QkVHSU4=" then sampleIcsWithoutZone else "".

(** ** The node-ical variant's expansion and handler loop ([src/index.mjs]) *)

(** node-ical's organizer: a string, or an object with the address
    under one of three keys. *)
Inductive Organizer :=
| OrganizerText (text : string)
| OrganizerObject (val value mailto : option string).

(** The fields of a node-ical VEVENT that variant reads.  [ne_start],
    [ne_end] and [ne_recurrenceid] are set when the field is a
    [Date], [ne_duration] when it is a number, [ne_exdate] holds the
    dates among the values of [exdate]. *)
Record NodeEvent := mkNodeEvent {
  ne_uid : option string;
  ne_summary : option string;
  ne_location : option string;
  ne_organizer : option Organizer;
  ne_start : option Z;
  ne_end : option Z;
  ne_duration : option Z;
  ne_recurrenceid : option Z;
  ne_rrule : option string;
  ne_exdate : list Z;
  ne_status : option string;
  ne_datetype : DateType
}.

(** Its metrics have an alarm field and no [current]. *)
Record LegacyMetrics := mkLegacyMetrics {
  lm_now : string;
  lm_minutesUntilNext : option Z;
  lm_minutesUntilSmallAlarm : option Z;
  lm_isOverlappingNow : bool
}.

Module LegacyExpander.

Definition organizerToString (org : option Organizer) : option string :=
  match org with
  | None => None
  | Some (OrganizerText text) => if String.eqb text "" then None else Some text
  | Some (OrganizerObject val value mailto) =>
      let v := jsOr (jsOr (jsOr val value) mailto) None in
      if truthy v then v else None
  end.

Definition buildStep (map : list (string * list (Z * NodeEvent))) (ev : NodeEvent)
  : list (string * list (Z * NodeEvent)) :=
  match ne_uid ev, ne_recurrenceid ev with
  | Some u, Some recId =>
      if negb (truthy (Some u)) then map
      else
        match JsMap.get map u with
        | Some inner => JsMap.set map u (JsMap.set inner recId ev)
        | None => JsMap.set map u (JsMap.set [] recId ev)
        end
  | _, _ => map
  end.

Definition buildOverridesByUid (events : list NodeEvent)
  : list (string * list (Z * NodeEvent)) :=
  fold_left buildStep events [].

Section LegacyExpander.
Variable DEFAULT_DURATION_MIN : Z.
(** [ev.rrule.between(new Date(windowStartMs), new Date(windowEndMs),
    true) || []], the dates among the results. *)
Variable rruleBetween : NodeEvent -> Z -> Z -> list Z.

Definition calcDurationMsFromEvent (e : NodeEvent) : Z :=
  let byDuration :=
    match ne_duration e with
    | Some d => if d >? 0 then d else DEFAULT_DURATION_MIN * 60000
    | None => DEFAULT_DURATION_MIN * 60000
    end in
  match ne_start e, ne_end e with
  | Some s, Some en =>
      let dur := en - s in
      if (dur >? 0) && (dur <? 7 * 24 * 60 * 60 * 1000) then dur else byDuration
  | _, _ => byDuration
  end.

Definition calcEndMs (ev : NodeEvent) (occStart : Z) (overrideEv : option NodeEvent) : Z :=
  let fallback := occStart + calcDurationMsFromEvent (default ev overrideEv) in
  match overrideEv ≫= ne_end with
  | Some endMs => if endMs >? occStart then endMs else fallback
  | None => fallback
  end.

Definition mkOcc (ev : NodeEvent) (startDate : Z) (overrideEv : option NodeEvent)
  : Occurrence :=
  let baseTitle := jsOrStr (ne_summary ev) "(No title)" in
  let baseLocation := jsOr (ne_location ev) None in
  let baseOrganizer := organizerToString (ne_organizer ev) in
  {| uid := Some (jsOrStr (ne_uid ev) "");
     title := jsOrStr (nullish (overrideEv ≫= ne_summary) (Some baseTitle)) "(No title)";
     location := nullish (nullish (overrideEv ≫= ne_location) baseLocation) None;
     organizer :=
       nullish (nullish (organizerToString (overrideEv ≫= ne_organizer)) baseOrganizer)
               None;
     startMs := startDate;
     endMs := calcEndMs ev startDate overrideEv;
     status := None |}.

(** One pass of [for (const d of between)]. *)
Definition betweenStep (ev : NodeEvent) (windowStartMs windowEndMs : Z)
    (uidOverrides : option (list (Z * NodeEvent))) (occs : list Occurrence) (d : Z)
  : list Occurrence :=
  if existsb (fun x => x =? d) (ne_exdate ev) then occs
  else
    let override := uidOverrides ≫= fun m => JsMap.get m d in
    if bool_decide (override ≫= ne_status = Some "CANCELLED") then occs
    else
      let startDate := default d (override ≫= ne_start) in
      if (startDate >=? windowStartMs) && (startDate <? windowEndMs)
      then occs ++ [mkOcc ev startDate override]
      else occs.

Definition expandOccurrencesInWindow (ev : NodeEvent) (windowStartMs windowEndMs : Z)
    (overridesByUid : list (string * list (Z * NodeEvent))) : list Occurrence :=
  let uidOverrides := JsMap.get overridesByUid (jsOrStr (ne_uid ev) "") in
  match ne_datetype ev with
  | DateOnly => []
  | DateTime =>
      match ne_start ev with
      | None => []
      | Some evStart =>
          match ne_rrule ev with
          | None =>
              if (evStart >=? windowStartMs) && (evStart <? windowEndMs)
              then [mkOcc ev evStart None]
              else []
          | Some _ =>
              fold_left (betweenStep ev windowStartMs windowEndMs uidOverrides)
                (rruleBetween ev windowStartMs windowEndMs) []
          end
      end
  end.

(** The handler's loop over every parsed event, overrides included,
    its filter and its sort. *)
Definition handlerOccurrences (events : list NodeEvent) (nowMs endMs' : Z)
  : list Occurrence :=
  let overridesByUid := buildOverridesByUid events in
  sortByStart
    (fold_left
       (fun occs ev =>
          occs ++ Legacy.keepUpcoming nowMs endMs'
                    (expandOccurrencesInWindow ev nowMs endMs' overridesByUid))
       events []).
End LegacyExpander.

Section LegacyMetrics.
Variable isoWithTimeZone : Z -> string -> string.
Variable Date_parse : string -> Z.
Variable TZ : string.

Definition computeMetrics (occs : list Occurrence) (nowMs : Z) (nextDto : option Dto)
  : LegacyMetrics :=
  let isOverlappingNow := existsb (coversNow nowMs) occs in
  match nextDto with
  | None =>
      {| lm_now := isoWithTimeZone nowMs TZ;
         lm_minutesUntilNext := None;
         lm_minutesUntilSmallAlarm := None;
         lm_isOverlappingNow := isOverlappingNow |}
  | Some nextDto =>
      let nextStartMs := Date_parse (dto_start nextDto) in
      let minutesUntilNext := Z.max 0 (roundMinutes (nextStartMs - nowMs)) in
      let minutesUntilSmallAlarm := Z.max 0 (minutesUntilNext - 15) in
      {| lm_now := isoWithTimeZone nowMs TZ;
         lm_minutesUntilNext := Some minutesUntilNext;
         lm_minutesUntilSmallAlarm := Some minutesUntilSmallAlarm;
         lm_isOverlappingNow := isOverlappingNow |}
  end.
End LegacyMetrics.
End LegacyExpander.

(** A node-ical event with the given fields and nothing else set. *)
Definition sampleNodeEvent (u title : string) (s e recId : option Z) (rule : option string)
    (st : option string) : NodeEvent :=
  {| ne_uid := Some u; ne_summary := Some title; ne_location := None;
     ne_organizer := Some (OrganizerObject (Some "mailto:lead@example.com") None None);
     ne_start := s; ne_end := e; ne_duration := None; ne_recurrenceid := recId;
     ne_rrule := rule; ne_exdate := []; ne_status := st; ne_datetype := DateTime |}.

(** The daily triage meeting from day 0, and the cancelled override of
    its day-80 instance. *)
Definition sampleNodeTriage : NodeEvent :=
  sampleNodeEvent "triage" "Daily Bug Triage" (Some (11 * hourMs))
    (Some (11 * hourMs + 15 * minuteMs)) None (Some "FREQ=DAILY") None.

Definition sampleNodeCancelled : NodeEvent :=
  sampleNodeEvent "triage" "Daily Bug Triage" (Some (dayMs 80 + 11 * hourMs))
    (Some (dayMs 80 + 11 * hourMs + 15 * minuteMs)) (Some (dayMs 80 + 11 * hourMs))
    None (Some "CANCELLED").

(** A stand-in for [rrule.between] on the daily rule: the instants at
    the event's time of day that lie in the closed window. *)
Definition sampleBetween (ev : NodeEvent) (ws we : Z) : list Z :=
  match ne_start ev with
  | Some s =>
      List.filter (fun t => (ws <=? t) && (t <=? we))
        (map (fun k => s + Z.of_nat k * msPerDay) (seq 0 120))
  | None => []
  end.

(** * Properties *)

(** ** Array helpers *)

Lemma findIndex_lower {A} (p : A -> bool) (l : list A) : -1 <= findIndex p l.
Proof.
  induction l as [|x l IH]; simpl; [lia|].
  destruct (p x); [lia|].
  destruct (Z.ltb_spec (findIndex p l) 0); lia.
Qed.

Lemma atIndex_findIndex {A} (p : A -> bool) (l : list A) :
  atIndex l (findIndex p l) = find p l.
Proof.
  induction l as [|x l IH]; simpl; [reflexivity|].
  destruct (p x) eqn:Hp; [reflexivity|].
  pose proof (findIndex_lower p l) as Hlow.
  unfold atIndex in *.
  destruct (Z.ltb_spec (findIndex p l) 0) as [Hneg|Hpos].
  - simpl. destruct (Z.leb_spec 0 (findIndex p l)); [lia|]. exact IH.
  - destruct (Z.leb_spec 0 (findIndex p l + 1)); [|lia].
    destruct (Z.leb_spec 0 (findIndex p l)); [|lia].
    rewrite <- IH.
    replace (Z.to_nat (findIndex p l + 1)) with (S (Z.to_nat (findIndex p l))) by lia.
    reflexivity.
Qed.

Lemma find_FirstWhere {A} (p : A -> bool) (P : A -> Prop) (l : list A) :
  (forall x, p x = true <-> P x) -> FirstWhere P l (find p l).
Proof.
  intros Hp. induction l as [|x l IH]; simpl.
  - constructor.
  - destruct (p x) eqn:Hx.
    + exists [], l. repeat split; [constructor | apply Hp, Hx].
    + assert (Hnx : ~ P x) by (rewrite <- Hp, Hx; discriminate).
      destruct (find p l) as [y|]; simpl in *.
      * destruct IH as (l1 & l2 & -> & Hall & Hy).
        exists (x :: l1), l2. repeat split; [constructor; assumption | assumption].
      * constructor; assumption.
Qed.

Lemma FirstWhere_unique {A} (P : A -> Prop) (l : list A) (r1 r2 : option A) :
  FirstWhere P l r1 -> FirstWhere P l r2 -> r1 = r2.
Proof.
  revert r1 r2. induction l as [|x l IH]; intros r1 r2 H1 H2.
  - destruct r1 as [a|], r2 as [b|]; simpl in *; try reflexivity.
    + destruct H1 as ([|] & ? & ? & _); discriminate.
    + destruct H1 as ([|] & ? & ? & _); discriminate.
    + destruct H2 as ([|] & ? & ? & _); discriminate.
  - assert (Hcase : forall r, FirstWhere P (x :: l) r ->
              (P x /\ r = Some x) \/ (~ P x /\ FirstWhere P l r)).
    { intros [a|] H; simpl in H.
      - destruct H as ([|y l1] & l2 & Heq & Hall & Ha); simpl in Heq.
        + injection Heq as -> ->. left. split; [assumption | reflexivity].
        + injection Heq as -> ->. right. inversion Hall; subst.
          split; [assumption|]. exists l1, l2. repeat split; assumption.
      - inversion H; subst. right. split; assumption. }
    destruct (Hcase _ H1) as [[Hx ->]|[Hx H1']], (Hcase _ H2) as [[Hx' ->]|[Hx' H2']];
      try reflexivity; try contradiction.
    eapply IH; eassumption.
Qed.

Lemma coversNow_HoldsNow nowMs o : coversNow nowMs o = true <-> HoldsNow nowMs o.
Proof. unfold coversNow, HoldsNow. rewrite andb_true_iff. lia. Qed.

(** ** TimelineAnalyzer *)

Lemma existsb_find_is_Some {A} (p : A -> bool) (l : list A) :
  existsb p l = true <-> find p l <> None.
Proof.
  induction l as [|x l IH]; simpl.
  - split; [discriminate | congruence].
  - destruct (p x); simpl; [split; [discriminate | reflexivity] | exact IH].
Qed.

Lemma find_app_skip {A} (p : A -> bool) (l1 l2 : list A) :
  Forall (fun x => p x = false) l1 -> find p (l1 ++ l2) = find p l2.
Proof.
  induction 1 as [|x l1 Hx _ IH]; simpl; [reflexivity|]. rewrite Hx. exact IH.
Qed.

Lemma find_drop_miss {A} (p : A -> bool) (l1 l2 : list A) (o : A) :
  p o = false -> find p (l1 ++ o :: l2) = find p (l1 ++ l2).
Proof.
  intros Ho. induction l1 as [|x l1 IH]; simpl.
  - rewrite Ho. reflexivity.
  - destruct (p x); [reflexivity | exact IH].
Qed.

Lemma existsb_drop_miss {A} (p : A -> bool) (l1 l2 : list A) (o : A) :
  p o = false -> existsb p (l1 ++ o :: l2) = existsb p (l1 ++ l2).
Proof.
  intros Ho. rewrite !existsb_app. simpl. rewrite Ho. reflexivity.
Qed.

Section TimelineProps.
Variable isoWithTimeZone : Z -> string -> string.
Variable Date_parse : string -> Z.

Lemma computeNextTriple_next occs nowMs tz :
  next (computeNextTriple isoWithTimeZone occs nowMs tz) =
  toDtoWithTz isoWithTimeZone
    (find (fun o => startMs o >=? searchFrom (find (coversNow nowMs) occs) nowMs) occs)
    tz.
Proof.
  unfold computeNextTriple, searchFrom.
  rewrite atIndex_findIndex.
  destruct (find (fun o => startMs o >=? _) occs); reflexivity.
Qed.

Lemma computeMetrics_current occs nowMs nextDto tz :
  current (computeMetrics isoWithTimeZone Date_parse occs nowMs nextDto tz) =
  toDtoWithTz isoWithTimeZone (find (coversNow nowMs) occs) tz.
Proof.
  unfold computeMetrics.
  destruct nextDto; simpl; destruct (find (coversNow nowMs) occs); reflexivity.
Qed.

Lemma computeMetrics_isOverlappingNow occs nowMs nextDto tz :
  isOverlappingNow (computeMetrics isoWithTimeZone Date_parse occs nowMs nextDto tz) =
  existsb (coversNow nowMs) occs.
Proof. unfold computeMetrics. destruct nextDto; reflexivity. Qed.

Lemma coversNow_ends_at_now nowMs o : endMs o = nowMs -> coversNow nowMs o = false.
Proof.
  intros He. unfold coversNow.
  destruct (Z.ltb_spec nowMs (endMs o)); [lia | apply andb_false_r].
Qed.

Lemma coversNow_starts_at_now nowMs o :
  startMs o = nowMs -> nowMs < endMs o -> coversNow nowMs o = true.
Proof. intros Hs He. apply coversNow_HoldsNow. unfold HoldsNow. lia. Qed.

(** C2.  For every occurrence list and every [now] there are [cur],
    the first occurrence with [start <= now < end] (or none), and
    [nxt], the first occurrence with [start >= searchFrom] where
    [searchFrom] is [cur]'s end when [cur] exists and [now]
    otherwise, such that [next] is [nxt] rendered.  When a current
    occurrence exists, [next] starts at or after its end, hence
    strictly after [now], and is not the current occurrence. *)
Theorem next_is_first_from_searchFrom (occs : list Occurrence) (nowMs : Z) (tz : string) :
  exists cur nxt,
    FirstWhere (HoldsNow nowMs) occs cur /\
    FirstWhere (fun o => searchFrom cur nowMs <= startMs o) occs nxt /\
    next (computeNextTriple isoWithTimeZone occs nowMs tz)
      = toDtoWithTz isoWithTimeZone nxt tz /\
    (forall c n, cur = Some c -> nxt = Some n ->
       endMs c <= startMs n /\ nowMs < startMs n /\ n <> c).
Proof.
  exists (find (coversNow nowMs) occs).
  exists (find (fun o => startMs o >=? searchFrom (find (coversNow nowMs) occs) nowMs) occs).
  assert (Hcur : FirstWhere (HoldsNow nowMs) occs (find (coversNow nowMs) occs))
    by (apply find_FirstWhere, coversNow_HoldsNow).
  assert (Hnxt : FirstWhere
            (fun o => searchFrom (find (coversNow nowMs) occs) nowMs <= startMs o) occs
            (find (fun o => startMs o >=? searchFrom (find (coversNow nowMs) occs) nowMs) occs))
    by (apply find_FirstWhere; intros x; lia).
  split; [exact Hcur|]. split; [exact Hnxt|].
  split; [apply computeNextTriple_next|].
  intros c n Hc Hn. rewrite Hc in *. rewrite Hn in Hnxt.
  simpl in Hcur, Hnxt.
  destruct Hcur as (_ & _ & _ & _ & Hcov).
  destruct Hnxt as (_ & _ & _ & _ & Hfrom).
  unfold HoldsNow in Hcov.
  repeat split; try lia.
  intros ->. lia.
Qed.

(** C3.  [current] is the first occurrence with
    [start <= now < end]; an occurrence that ends exactly at [now]
    does not hold [now] and is without influence on [current] and
    [isOverlappingNow] (alone in the list it leaves them [null] and
    [false]); an occurrence that starts exactly at [now] (and ends
    after it) makes [isOverlappingNow] true and is [current] unless
    an earlier occurrence of the list already holds [now]. *)
Theorem current_is_first_half_open (occs : list Occurrence) (nowMs : Z)
    (nextDto : option Dto) (tz : string) :
  (exists cur, FirstWhere (HoldsNow nowMs) occs cur /\
               current (computeMetrics isoWithTimeZone Date_parse occs nowMs nextDto tz)
                 = toDtoWithTz isoWithTimeZone cur tz) /\
  (forall l1 o l2, occs = l1 ++ o :: l2 -> endMs o = nowMs ->
     ~ HoldsNow nowMs o /\
     current (computeMetrics isoWithTimeZone Date_parse occs nowMs nextDto tz)
       = current (computeMetrics isoWithTimeZone Date_parse (l1 ++ l2) nowMs nextDto tz) /\
     isOverlappingNow (computeMetrics isoWithTimeZone Date_parse occs nowMs nextDto tz)
       = isOverlappingNow
           (computeMetrics isoWithTimeZone Date_parse (l1 ++ l2) nowMs nextDto tz)) /\
  (forall o, occs = [o] -> endMs o = nowMs ->
     current (computeMetrics isoWithTimeZone Date_parse occs nowMs nextDto tz) = None /\
     isOverlappingNow (computeMetrics isoWithTimeZone Date_parse occs nowMs nextDto tz)
       = false) /\
  (forall l1 o l2, occs = l1 ++ o :: l2 -> startMs o = nowMs -> nowMs < endMs o ->
     HoldsNow nowMs o /\
     isOverlappingNow (computeMetrics isoWithTimeZone Date_parse occs nowMs nextDto tz)
       = true /\
     (Forall (fun x => ~ HoldsNow nowMs x) l1 ->
      current (computeMetrics isoWithTimeZone Date_parse occs nowMs nextDto tz)
        = toDtoWithTz isoWithTimeZone (Some o) tz)).
Proof.
  split; [|split; [|split]].
  - exists (find (coversNow nowMs) occs). split.
    + apply find_FirstWhere, coversNow_HoldsNow.
    + apply computeMetrics_current.
  - intros l1 o l2 -> He.
    pose proof (coversNow_ends_at_now nowMs o He) as Hmiss.
    split; [unfold HoldsNow; lia|]. split.
    + rewrite !computeMetrics_current. f_equal. apply find_drop_miss, Hmiss.
    + rewrite !computeMetrics_isOverlappingNow. apply existsb_drop_miss, Hmiss.
  - intros o -> He.
    pose proof (coversNow_ends_at_now nowMs o He) as Hmiss.
    rewrite computeMetrics_current, computeMetrics_isOverlappingNow. simpl.
    rewrite Hmiss. split; reflexivity.
  - intros l1 o l2 -> Hs He.
    pose proof (coversNow_starts_at_now nowMs o Hs He) as Hhit.
    split; [unfold HoldsNow; lia|]. split.
    + rewrite computeMetrics_isOverlappingNow, existsb_app. simpl.
      rewrite Hhit. apply orb_true_r.
    + intros Hl1. rewrite computeMetrics_current. f_equal.
      rewrite find_app_skip.
      * simpl. rewrite Hhit. reflexivity.
      * eapply Forall_impl; [exact Hl1|]. intros x Hx. simpl in Hx.
        destruct (coversNow nowMs x) eqn:E; [|reflexivity].
        exfalso. apply Hx, coversNow_HoldsNow, E.
Qed.

(** C10.  In the response body [isOverlappingNow] is true exactly
    when [current] is not [null]. *)
Theorem overlapping_iff_current (occs : list Occurrence) (nowMs : Z) (tz : string) :
  isOverlappingNow
    (body_metrics (responseBody isoWithTimeZone Date_parse occs nowMs tz)) = true
  <->
  current (body_metrics (responseBody isoWithTimeZone Date_parse occs nowMs tz)) <> None.
Proof.
  unfold responseBody. simpl.
  rewrite computeMetrics_isOverlappingNow, computeMetrics_current.
  rewrite existsb_find_is_Some.
  destruct (find (coversNow nowMs) occs); simpl; split; congruence.
Qed.
End TimelineProps.

(** ** Insertion-ordered maps *)

Lemma JsMap_get_In {K V} `{EqDecision K} (m : list (K * V)) (k : K) (v : V) :
  JsMap.get m k = Some v -> In (k, v) m.
Proof.
  induction m as [|[k' v'] m IH]; simpl; [discriminate|].
  destruct (decide (k' = k)) as [->|Hne].
  - intros [= ->]. left. reflexivity.
  - intros H. right. apply IH, H.
Qed.

Lemma JsMap_get_remove_ne {K V} `{EqDecision K} (m : list (K * V)) (k k' : K) :
  k <> k' -> JsMap.get (JsMap.remove m k) k' = JsMap.get m k'.
Proof.
  intros Hne. induction m as [|[k0 v0] m IH]; simpl; [reflexivity|].
  destruct (decide (k0 = k)) as [->|Hk0].
  - destruct (decide (k = k')); [contradiction | exact IH].
  - simpl. destruct (decide (k0 = k')); [reflexivity | exact IH].
Qed.

Lemma fold_left_Forall {A B} (Q : A -> Prop) (f : list A -> B -> list A)
    (l : list B) (acc : list A) :
  (forall acc b, In b l -> Forall Q acc -> Forall Q (f acc b)) ->
  Forall Q acc -> Forall Q (fold_left f l acc).
Proof.
  revert acc. induction l as [|b l IH]; intros acc Hf Hacc; simpl; [assumption|].
  apply IH.
  - intros acc' b' Hb'. apply Hf. right. assumption.
  - apply Hf; [left; reflexivity | assumption].
Qed.

(** ** OccurrenceExpander *)

Section ExpanderProps.
Variable DEFAULT_DURATION_MIN : Z.
Variable icalIterator : VEvent -> nat -> option Z.

Lemma calcDurationMsFromEvent_own (e : VEvent) (s en : Z) :
  start e = Some s -> end_ e = Some en -> 0 < en - s < weekMs ->
  calcDurationMsFromEvent DEFAULT_DURATION_MIN e = en - s.
Proof.
  intros Hs He Hd. unfold calcDurationMsFromEvent. rewrite Hs, He.
  destruct (Z.gtb_spec (en - s) 0); [|lia].
  destruct (Z.ltb_spec (en - s) weekMs); [reflexivity | lia].
Qed.

Lemma calcDurationMsFromEvent_cases (e : VEvent) :
  calcDurationMsFromEvent DEFAULT_DURATION_MIN e = DEFAULT_DURATION_MIN * 60000 \/
  0 < calcDurationMsFromEvent DEFAULT_DURATION_MIN e < weekMs.
Proof.
  unfold calcDurationMsFromEvent.
  destruct (start e) as [s|], (end_ e) as [en|]; try (left; reflexivity).
  destruct (Z.gtb_spec (en - s) 0); simpl; [|left; reflexivity].
  destruct (Z.ltb_spec (en - s) weekMs); [right; lia | left; reflexivity].
Qed.

Lemma calcEndMs_no_override (ev : VEvent) (t : Z) :
  calcEndMs DEFAULT_DURATION_MIN ev t None
    = t + calcDurationMsFromEvent DEFAULT_DURATION_MIN ev.
Proof. reflexivity. Qed.

Lemma calcEndMs_override_without_usable_end (ev ov : VEvent) (t : Z) :
  (forall x, end_ ov = Some x -> x <= t) ->
  calcEndMs DEFAULT_DURATION_MIN ev t (Some ov)
    = t + calcDurationMsFromEvent DEFAULT_DURATION_MIN ov.
Proof.
  intros Hend. unfold calcEndMs. simpl.
  destruct (end_ ov) as [x|]; [|reflexivity].
  specialize (Hend x eq_refl).
  destruct (Z.gtb_spec x t); [lia | reflexivity].
Qed.

(** With a positive default, what [calcEndMs] returns lies after the
    start it is given. *)
Lemma calcEndMs_after_start (ev : VEvent) (t : Z) (ov : option VEvent) :
  0 < DEFAULT_DURATION_MIN -> t < calcEndMs DEFAULT_DURATION_MIN ev t ov.
Proof.
  intros Hpos. unfold calcEndMs.
  assert (Hfb : forall e, t < t + calcDurationMsFromEvent DEFAULT_DURATION_MIN e).
  { intros e. destruct (calcDurationMsFromEvent_cases e) as [->|?]; lia. }
  destruct (ov ≫= end_) as [x|]; [|apply Hfb].
  destruct (Z.gtb_spec x t); [lia | apply Hfb].
Qed.

Lemma loopBody_instanceCount ev ws we uo st occMs :
  instanceCount (loopBody DEFAULT_DURATION_MIN ev ws we uo st occMs) = instanceCount st.
Proof.
  unfold loopBody, processCandidate.
  repeat (match goal with |- context [if ?b then _ else _] => destruct b end;
          try reflexivity);
    destruct (uo ≫= _); reflexivity.
Qed.

(** What one candidate adds to [occs]: nothing, or one [mkOcc]. *)
Lemma processCandidate_occs ev ws we uo st occMs :
  occs (processCandidate DEFAULT_DURATION_MIN ev ws we uo st occMs) = occs st \/
  occs (processCandidate DEFAULT_DURATION_MIN ev ws we uo st occMs)
    = occs st ++ [ mkOcc DEFAULT_DURATION_MIN ev
                     (default occMs ((uo ≫= fun m => JsMap.get m occMs) ≫= start))
                     (uo ≫= fun m => JsMap.get m occMs) ].
Proof.
  unfold processCandidate.
  destruct (isExcluded occMs (exdate ev)); [left; reflexivity|].
  set (override := uo ≫= fun m => JsMap.get m occMs).
  destruct (bool_decide _); [left; destruct override; reflexivity|].
  destruct (overlapsWindow _ _ _ _); [|left; destruct override; reflexivity].
  destruct (isCancelledOcc _); [left; destruct override; reflexivity|].
  right. destruct override; reflexivity.
Qed.

Section DurationLaw.
Variables (ev : VEvent) (s e : Z).
Hypothesis Hstart : start ev = Some s.
Hypothesis Hend : end_ ev = Some e.
Hypothesis Hdur : 0 < e - s < weekMs.

Lemma mkOcc_keeps_duration uo t :
  KeepsMasterDuration s e uo (mkOcc DEFAULT_DURATION_MIN ev t None).
Proof.
  left. simpl. rewrite calcEndMs_no_override.
  rewrite (calcDurationMsFromEvent_own ev s e Hstart Hend Hdur). lia.
Qed.

Lemma processCandidate_keeps_duration ws we uo st occMs :
  Forall (KeepsMasterDuration s e uo) (occs st) ->
  Forall (KeepsMasterDuration s e uo)
         (occs (processCandidate DEFAULT_DURATION_MIN ev ws we uo st occMs)).
Proof.
  intros Hst.
  destruct (processCandidate_occs ev ws we uo st occMs) as [->| ->]; [assumption|].
  apply Forall_app. split; [assumption|]. constructor; [|constructor].
  destruct (uo ≫= fun m => JsMap.get m occMs) as [ov|] eqn:Hov.
  - right. exists occMs, ov. split; [|reflexivity].
    destruct uo as [m|]; [|discriminate]. simpl in *. apply JsMap_get_In, Hov.
  - apply mkOcc_keeps_duration.
Qed.

Lemma iterateRule_keeps_duration fuel ws we uo k st st' :
  iterateRule DEFAULT_DURATION_MIN icalIterator fuel ev ws we uo k st = Some st' ->
  Forall (KeepsMasterDuration s e uo) (occs st) ->
  Forall (KeepsMasterDuration s e uo) (occs st').
Proof.
  revert k st. induction fuel as [|fuel IH]; intros k st; simpl; [discriminate|].
  destruct (icalIterator ev k) as [occMs|]; [|intros [= <-]; trivial].
  destruct (occMs >=? we); [intros [= <-]; trivial|].
  intros Hrun Hst. eapply IH; [exact Hrun|].
  unfold loopBody. destruct (smartSkip ws occMs); [exact Hst|].
  apply processCandidate_keeps_duration. exact Hst.
Qed.

Lemma standaloneOverride_keeps_duration ws we (m : OverrideMap) used acc entry :
  In entry m ->
  Forall (KeepsMasterDuration s e (Some m)) acc ->
  Forall (KeepsMasterDuration s e (Some m))
         (standaloneOverride DEFAULT_DURATION_MIN ev ws we used acc entry).
Proof.
  intros Hin Hacc. destruct entry as [recIdMs ov]. unfold standaloneOverride.
  destruct (bool_decide (recIdMs ∈ used)); [assumption|].
  destruct (bool_decide _); [assumption|].
  destruct (start ov) as [os|] eqn:Hos; [|assumption].
  destruct (overlapsWindow _ _ _ _); [|assumption].
  destruct (startsWith _ _); [assumption|].
  apply Forall_app. split; [assumption|]. constructor; [|constructor].
  right. exists recIdMs, ov. simpl. rewrite Hos. split; [assumption | reflexivity].
Qed.

Lemma expand_keeps_duration fuel ws we byUid out :
  expandOccurrencesInWindow DEFAULT_DURATION_MIN icalIterator fuel ev ws we byUid
    = Some out ->
  Forall (KeepsMasterDuration s e (JsMap.get byUid (jsOrStr (ev_uid ev) ""))) out.
Proof.
  unfold expandOccurrencesInWindow. rewrite Hstart.
  set (uo := JsMap.get byUid (jsOrStr (ev_uid ev) "")).
  destruct (datetype ev); [intros [= <-]; constructor|].
  destruct (rrule ev).
  - destruct (iterateRule _ _ _ _ _ _ _ _ _) as [st|] eqn:Hrun; [|discriminate].
    intros [= <-].
    pose proof (iterateRule_keeps_duration _ _ _ _ _ _ _ Hrun ltac:(constructor)) as Hst.
    unfold appendUnusedOverrides. destruct uo as [m|]; [|exact Hst].
    apply fold_left_Forall; [|exact Hst].
    intros acc b Hb Hacc. apply standaloneOverride_keeps_duration; assumption.
  - destruct (overlapsWindow _ _ _ _); [|intros [= <-]; constructor].
    destruct (isCancelledOcc _); intros [= <-]; constructor; [|constructor].
    apply mkOcc_keeps_duration.
Qed.
End DurationLaw.
End ExpanderProps.

Section ExpanderClaims.
Variable DEFAULT_DURATION_MIN : Z.
Variable icalIterator : VEvent -> nat -> option Z.

(** C1 (amended).  For a master whose own start [s] and end [e]
    give a duration [0 < e - s < one week]: a candidate instant with
    no matching override adds at most one occurrence, which starts at
    that instant, lasts exactly [e - s], and ends at the master's
    literal end only if the instant is the master's start; every
    occurrence the expansion returns either obeys this law or got its
    start from an override of the uid, and with no override map for
    the uid all of them obey it.  An occurrence built with an
    override that has no usable end of its own (none, or one not
    after the occurrence's start) lasts what
    [calcDurationMsFromEvent] derives from the override itself. *)
Theorem recurrence_duration_law (fuel : nat) (ev : VEvent) (s e ws we : Z)
    (byUid : OverridesByUid) (out : list Occurrence) :
  start ev = Some s -> end_ ev = Some e -> 0 < e - s < weekMs ->
  expandOccurrencesInWindow DEFAULT_DURATION_MIN icalIterator fuel ev ws we byUid
    = Some out ->
  (forall uo st occMs,
     uo ≫= (fun m => JsMap.get m occMs) = None ->
     occs (processCandidate DEFAULT_DURATION_MIN ev ws we uo st occMs) = occs st \/
     exists o,
       occs (processCandidate DEFAULT_DURATION_MIN ev ws we uo st occMs) = occs st ++ [o] /\
       startMs o = occMs /\ endMs o - startMs o = e - s /\ (occMs <> s -> endMs o <> e)) /\
  Forall (KeepsMasterDuration s e (JsMap.get byUid (jsOrStr (ev_uid ev) ""))) out /\
  (JsMap.get byUid (jsOrStr (ev_uid ev) "") = None ->
   Forall (fun o => endMs o - startMs o = e - s) out) /\
  (forall ov t, (forall x, end_ ov = Some x -> x <= t) ->
     endMs (mkOcc DEFAULT_DURATION_MIN ev t (Some ov))
       - startMs (mkOcc DEFAULT_DURATION_MIN ev t (Some ov))
     = calcDurationMsFromEvent DEFAULT_DURATION_MIN ov).
Proof.
  intros Hs He Hd Hout.
  pose proof (expand_keeps_duration DEFAULT_DURATION_MIN icalIterator
                ev s e Hs He Hd fuel ws we byUid out Hout) as Hlaw.
  split; [|split; [exact Hlaw|split]].
  - intros uo st occMs Hnone.
    destruct (processCandidate_occs DEFAULT_DURATION_MIN ev ws we uo st occMs)
      as [Hsame|Hpush]; [left; exact Hsame|].
    right. rewrite Hnone in Hpush. simpl in Hpush.
    eexists. split; [exact Hpush|]. simpl.
    rewrite calcEndMs_no_override,
      (calcDurationMsFromEvent_own DEFAULT_DURATION_MIN ev s e Hs He Hd).
    repeat split; lia.
  - intros Hnone. rewrite Hnone in Hlaw.
    eapply Forall_impl; [exact Hlaw|]. intros o [[Ho _]|Ho]; [exact Ho|].
    destruct Ho as (t & ov & [] & _).
  - intros ov t Hov. simpl.
    rewrite calcEndMs_override_without_usable_end by exact Hov. lia.
Qed.
End ExpanderClaims.

Lemma recurrence_duration_law_witness :
  (forall uo st occMs,
     uo ≫= (fun m => JsMap.get m occMs) = None ->
     occs (processCandidate 60 sampleTriage (dayMs 80) (dayMs 81) uo st occMs) = occs st \/
     exists o,
       occs (processCandidate 60 sampleTriage (dayMs 80) (dayMs 81) uo st occMs)
         = occs st ++ [o] /\
       startMs o = occMs /\
       endMs o - startMs o = 11 * hourMs + 15 * minuteMs - 11 * hourMs /\
       (occMs <> 11 * hourMs -> endMs o <> 11 * hourMs + 15 * minuteMs)) /\
  Forall (KeepsMasterDuration (11 * hourMs) (11 * hourMs + 15 * minuteMs)
            (JsMap.get [] (jsOrStr (ev_uid sampleTriage) "")))
         [occurrence "triage" "Daily Bug Triage"
            (dayMs 80 + 11 * hourMs) (dayMs 80 + 11 * hourMs + 15 * minuteMs)] /\
  (JsMap.get ([] : OverridesByUid) (jsOrStr (ev_uid sampleTriage) "") = None ->
   Forall (fun o => endMs o - startMs o = 11 * hourMs + 15 * minuteMs - 11 * hourMs)
          [occurrence "triage" "Daily Bug Triage"
             (dayMs 80 + 11 * hourMs) (dayMs 80 + 11 * hourMs + 15 * minuteMs)]) /\
  (forall ov t, (forall x, end_ ov = Some x -> x <= t) ->
     endMs (mkOcc 60 sampleTriage t (Some ov)) - startMs (mkOcc 60 sampleTriage t (Some ov))
     = calcDurationMsFromEvent 60 ov).
Proof.
  apply (recurrence_duration_law 60 sampleIterator 100 sampleTriage
           (11 * hourMs) (11 * hourMs + 15 * minuteMs) (dayMs 80) (dayMs 81) []).
  - reflexivity.
  - reflexivity.
  - vm_compute. split; reflexivity.
  - vm_compute. reflexivity.
Defined.

(** C1, as stated, fails: the day-80 instance of the 15-minute triage
    meeting is matched by an override that moves the start and has no
    end of its own (none at all, or the start repeated, as ical.js
    reports a VEVENT without DTEND); the occurrence lasts the
    60-minute default, not the master's 15 minutes. *)
Lemma override_without_end_takes_default :
  expandOccurrencesInWindow 60 sampleIterator 100 sampleTriage (dayMs 80) (dayMs 81)
    [("triage", [(dayMs 80 + 11 * hourMs, sampleMovedNoEnd)])]
  = Some [occurrence "triage" "Daily Bug Triage (moved)"
            (dayMs 80 + 12 * hourMs) (dayMs 80 + 13 * hourMs)] /\
  expandOccurrencesInWindow 60 sampleIterator 100 sampleTriage (dayMs 80) (dayMs 81)
    [("triage", [(dayMs 80 + 11 * hourMs, sampleMovedEndAtStart)])]
  = Some [occurrence "triage" "Daily Bug Triage (moved)"
            (dayMs 80 + 12 * hourMs) (dayMs 80 + 13 * hourMs)] /\
  end_ sampleMovedNoEnd = None /\
  end_ sampleMovedEndAtStart = start sampleMovedEndAtStart /\
  calcDurationMsFromEvent 60 sampleTriage = 15 * minuteMs /\
  (dayMs 80 + 13 * hourMs) - (dayMs 80 + 12 * hourMs) <> 15 * minuteMs.
Proof.
  split; [vm_compute; reflexivity|].
  split; [vm_compute; reflexivity|].
  split; [reflexivity|].
  split; [reflexivity|].
  split; [reflexivity|].
  vm_compute. discriminate.
Qed.

(** ** Termination of the recurrence loop *)

Section IterationProps.
Variable DEFAULT_DURATION_MIN : Z.
Variable icalIterator : VEvent -> nat -> option Z.

Lemma iterateRule_ends_when_rule_ends ev ws we uo :
  forall n k st,
    RuleEnds we (icalIterator ev (k + n)) ->
    exists st', iterateRule DEFAULT_DURATION_MIN icalIterator (S n) ev ws we uo k st
                = Some st'.
Proof.
  induction n as [|n IH]; intros k st Hend.
  - rewrite Nat.add_0_r in Hend. simpl.
    destruct Hend as [->|(t & -> & Ht)]; [eauto|].
    destruct (Z.geb_spec t we); [eauto | lia].
  - cbn [iterateRule].
    destruct (icalIterator ev k) as [occMs|]; [|eauto].
    destruct (occMs >=? we); [eauto|].
    apply IH. replace (S k + n)%nat with (k + S n)%nat by lia. exact Hend.
Qed.

Lemma iterateRule_ends_only_when_rule_ends ev ws we uo :
  forall fuel k st st',
    iterateRule DEFAULT_DURATION_MIN icalIterator fuel ev ws we uo k st = Some st' ->
    exists n, (n < fuel)%nat /\ RuleEnds we (icalIterator ev (k + n)).
Proof.
  induction fuel as [|fuel IH]; intros k st st'; simpl; [discriminate|].
  destruct (icalIterator ev k) as [occMs|] eqn:Hk.
  - destruct (Z.geb_spec occMs we) as [Hge|Hlt].
    + intros _. exists 0%nat. rewrite Nat.add_0_r, Hk.
      split; [lia|]. right. exists occMs. split; [reflexivity | lia].
    + intros Hrun. destruct (IH _ _ _ Hrun) as (n & Hn & Hend).
      exists (S n). split; [lia|].
      replace (k + S n)%nat with (S k + n)%nat by lia. exact Hend.
  - intros _. exists 0%nat. rewrite Nat.add_0_r, Hk. split; [lia | left; reflexivity].
Qed.

Lemma iterateRule_more_fuel ev ws we uo :
  forall fuel fuel' k st st',
    iterateRule DEFAULT_DURATION_MIN icalIterator fuel ev ws we uo k st = Some st' ->
    (fuel <= fuel')%nat ->
    iterateRule DEFAULT_DURATION_MIN icalIterator fuel' ev ws we uo k st = Some st'.
Proof.
  induction fuel as [|fuel IH]; intros fuel' k st st'; simpl; [discriminate|].
  intros Hrun Hle. destruct fuel' as [|fuel']; [lia|]. simpl.
  destruct (icalIterator ev k) as [occMs|]; [|exact Hrun].
  destruct (occMs >=? we); [exact Hrun|].
  apply IH; [exact Hrun | lia].
Qed.

(** Every pass counts one instance, so the count is the number of
    [iterator.next()] results the loop consumed. *)
Lemma iterateRule_instanceCount ev ws we uo :
  forall fuel k st st',
    iterateRule DEFAULT_DURATION_MIN icalIterator fuel ev ws we uo k st = Some st' ->
    instanceCount st <= instanceCount st' <= instanceCount st + Z.of_nat fuel.
Proof.
  induction fuel as [|fuel IH]; intros k st st'; simpl; [discriminate|].
  destruct (icalIterator ev k) as [occMs|]; [|intros [= <-]; lia].
  destruct (occMs >=? we); [intros [= <-]; simpl; lia|].
  intros Hrun. apply IH in Hrun.
  rewrite loopBody_instanceCount in Hrun. simpl in Hrun. lia.
Qed.

Lemma iterateRule_returns_iff_rule_ends (fuel : nat) (ev : VEvent) (ws we : Z)
    (uo : option OverrideMap) (k : nat) (st : LoopState) :
  (exists st', iterateRule DEFAULT_DURATION_MIN icalIterator fuel ev ws we uo k st
               = Some st')
  <->
  (exists n, (n < fuel)%nat /\ RuleEnds we (icalIterator ev (k + n))).
Proof.
  split.
  - intros [st' Hrun]. eapply iterateRule_ends_only_when_rule_ends, Hrun.
  - intros (n & Hn & Hend).
    destruct (iterateRule_ends_when_rule_ends ev ws we uo n k st Hend) as [st' Hrun].
    exists st'. eapply iterateRule_more_fuel; [exact Hrun | lia].
Qed.

(** C5 (amended).  The loop over the recurrence rule ends exactly
    when the iterator is exhausted or yields an instant at or after
    [windowEnd]: it returns within [fuel] passes if and only if that
    happens at one of the first [fuel] calls of [next], and more
    passes then change nothing.  Nothing else ends it: the loop has
    no bound on the number of passes. *)
Theorem iteration_ends_exactly_at_rule_end (fuel : nat) (ev : VEvent) (ws we : Z)
    (uo : option OverrideMap) (k : nat) (st : LoopState) :
  ((exists st', iterateRule DEFAULT_DURATION_MIN icalIterator fuel ev ws we uo k st
                = Some st')
   <->
   (exists n, (n < fuel)%nat /\ RuleEnds we (icalIterator ev (k + n)))) /\
  (forall st' fuel',
     iterateRule DEFAULT_DURATION_MIN icalIterator fuel ev ws we uo k st = Some st' ->
     (fuel <= fuel')%nat ->
     iterateRule DEFAULT_DURATION_MIN icalIterator fuel' ev ws we uo k st = Some st').
Proof.
  split; [apply iterateRule_returns_iff_rule_ends|].
  intros st' fuel' Hrun Hle. eapply iterateRule_more_fuel; eassumption.
Qed.

(** An excluded candidate leaves the loop state as it was. *)
Lemma loopBody_excluded ev ws we uo st occMs :
  isExcluded occMs (exdate ev) = true ->
  loopBody DEFAULT_DURATION_MIN ev ws we uo st occMs = st.
Proof.
  intros Hex. unfold loopBody, processCandidate. rewrite Hex.
  destruct (smartSkip ws occMs); reflexivity.
Qed.

Lemma loopBody_remove_excluded ev ws we (m : OverrideMap) st t occMs :
  isExcluded t (exdate ev) = true ->
  loopBody DEFAULT_DURATION_MIN ev ws we (Some (JsMap.remove m t)) st occMs
  = loopBody DEFAULT_DURATION_MIN ev ws we (Some m) st occMs.
Proof.
  intros Hex. destruct (decide (t = occMs)) as [->|Hne].
  - rewrite !loopBody_excluded by exact Hex. reflexivity.
  - unfold loopBody, processCandidate. simpl.
    rewrite JsMap_get_remove_ne by exact Hne. reflexivity.
Qed.

(** C9.  A candidate instant that equals an exception instant
    leaves the loop state untouched (no occurrence is added and no
    override is marked as used), whatever the override map holds;
    the whole expansion pass runs as if the override map had no
    entry for that instant. *)
Theorem excluded_instant_dropped_before_override_lookup (ev : VEvent) (ws we : Z)
    (uo : option OverrideMap) (st : LoopState) (occMs : Z) :
  isExcluded occMs (exdate ev) = true ->
  loopBody DEFAULT_DURATION_MIN ev ws we uo st occMs = st /\
  (forall m fuel k st0,
     iterateRule DEFAULT_DURATION_MIN icalIterator fuel ev ws we
       (Some (JsMap.remove m occMs)) k st0
     = iterateRule DEFAULT_DURATION_MIN icalIterator fuel ev ws we (Some m) k st0).
Proof.
  intros Hex. split; [apply loopBody_excluded, Hex|].
  intros m fuel. induction fuel as [|fuel IH]; intros k st0; simpl; [reflexivity|].
  destruct (icalIterator ev k) as [t|]; [|reflexivity].
  destruct (t >=? we); [reflexivity|].
  rewrite loopBody_remove_excluded by exact Hex. apply IH.
Qed.
End IterationProps.

(** C5, as stated, fails: a rule whose iterator keeps returning an
    instant before [windowEnd] is followed for ever, no pass count
    stops the loop, and the expansion never returns. *)
Lemma stuck_rule_is_iterated_without_bound :
  (forall k, sampleIterator sampleStuck k = Some 0) /\
  (forall fuel k st,
     iterateRule 60 sampleIterator fuel sampleStuck (dayMs 1) (dayMs 2) None k st = None) /\
  (forall fuel,
     expandOccurrencesInWindow 60 sampleIterator fuel sampleStuck (dayMs 1) (dayMs 2) []
     = None).
Proof.
  assert (Hloop : forall fuel k st,
     iterateRule 60 sampleIterator fuel sampleStuck (dayMs 1) (dayMs 2) None k st = None).
  { induction fuel as [|fuel IH]; intros k st; [reflexivity|].
    cbn [iterateRule]. change (sampleIterator sampleStuck k) with (Some 0).
    change (0 >=? dayMs 2) with false. cbv iota. apply IH. }
  split; [reflexivity|]. split; [exact Hloop|].
  intros fuel. unfold expandOccurrencesInWindow. simpl. rewrite Hloop. reflexivity.
Qed.

Lemma excluded_instant_dropped_witness :
  loopBody 60 sampleTriageExcluded (dayMs 80) (dayMs 81)
    (Some [(dayMs 80 + 11 * hourMs, sampleMoved)]) initialLoopState (dayMs 80 + 11 * hourMs)
  = initialLoopState /\
  (forall m fuel k st0,
     iterateRule 60 sampleIterator fuel sampleTriageExcluded (dayMs 80) (dayMs 81)
       (Some (JsMap.remove m (dayMs 80 + 11 * hourMs))) k st0
     = iterateRule 60 sampleIterator fuel sampleTriageExcluded (dayMs 80) (dayMs 81)
         (Some m) k st0).
Proof.
  apply (excluded_instant_dropped_before_override_lookup 60 sampleIterator
           sampleTriageExcluded (dayMs 80) (dayMs 81)).
  vm_compute. reflexivity.
Defined.

(** The override of an excluded instant is not lost for the response:
    the pass over the unused overrides appends it afterwards. *)
Example excluded_override_returns_standalone :
  expandOccurrencesInWindow 60 sampleIterator 100 sampleTriageExcluded
    (dayMs 80) (dayMs 81) [("triage", [(dayMs 80 + 11 * hourMs, sampleMoved)])]
  = Some [occurrence "triage" "Daily Bug Triage (moved)"
            (dayMs 80 + 13 * hourMs) (dayMs 80 + 13 * hourMs + 30 * minuteMs)].
Proof. vm_compute. reflexivity. Qed.

(** ** The smart skip against the exhaustive scan *)

Section SmartSkipProps.
Variable DEFAULT_DURATION_MIN : Z.
Variable icalIterator : VEvent -> nat -> option Z.

Section Agreement.
Variables (ev : VEvent) (ws we : Z) (uo : option OverrideMap).
(** No occurrence of the master lasts longer than the 24 hours the
    skip assumes. *)
Hypothesis Hshort : calcDurationMsFromEvent DEFAULT_DURATION_MIN ev <= maxEventDuration.
(** No override is keyed at an instant the skip discards. *)
Hypothesis Hkeys : Forall (fun entry => ws <= fst entry + maxEventDuration)
                          (default [] uo).

Lemma skipped_candidate_changes_nothing st occMs :
  smartSkip ws occMs = true ->
  processCandidate DEFAULT_DURATION_MIN ev ws we uo st occMs = st.
Proof.
  unfold smartSkip. intros Hskip. apply Z.ltb_lt in Hskip.
  unfold processCandidate.
  destruct (isExcluded occMs (exdate ev)); [reflexivity|].
  destruct (uo ≫= fun m => JsMap.get m occMs) as [ov|] eqn:Hov.
  - exfalso. destruct uo as [m|]; [|discriminate]. simpl in Hov, Hkeys.
    apply JsMap_get_In in Hov. rewrite List.Forall_forall in Hkeys.
    specialize (Hkeys _ Hov). simpl in Hkeys. lia.
  - simpl. rewrite calcEndMs_no_override.
    unfold overlapsWindow.
    destruct (Z.gtb_spec (occMs + calcDurationMsFromEvent DEFAULT_DURATION_MIN ev) ws);
      [lia|].
    rewrite andb_false_r. reflexivity.
Qed.

Lemma loopBody_is_processCandidate st occMs :
  loopBody DEFAULT_DURATION_MIN ev ws we uo st occMs
  = processCandidate DEFAULT_DURATION_MIN ev ws we uo st occMs.
Proof.
  unfold loopBody. destruct (smartSkip ws occMs) eqn:Hskip; [|reflexivity].
  symmetry. apply skipped_candidate_changes_nothing, Hskip.
Qed.

Lemma iterateRule_is_exhaustive fuel :
  forall k st,
    iterateRule DEFAULT_DURATION_MIN icalIterator fuel ev ws we uo k st
    = iterateRuleExhaustive DEFAULT_DURATION_MIN icalIterator fuel ev ws we uo k st.
Proof.
  induction fuel as [|fuel IH]; intros k st; simpl; [reflexivity|].
  destruct (icalIterator ev k) as [occMs|]; [|reflexivity].
  destruct (occMs >=? we); [reflexivity|].
  rewrite loopBody_is_processCandidate. apply IH.
Qed.
End Agreement.

(** C6 (amended).  When no occurrence of the master lasts longer
    than the 24 hours the smart skip assumes, and no override of the
    uid is keyed at an instant more than 24 hours before the window
    start, expansion with the smart skip returns exactly what the
    exhaustive scan returns. *)
Theorem smart_skip_agrees_with_exhaustive_scan (fuel : nat) (ev : VEvent) (ws we : Z)
    (byUid : OverridesByUid) :
  calcDurationMsFromEvent DEFAULT_DURATION_MIN ev <= maxEventDuration ->
  Forall (fun entry => ws <= fst entry + maxEventDuration)
         (default [] (JsMap.get byUid (jsOrStr (ev_uid ev) ""))) ->
  expandOccurrencesInWindow DEFAULT_DURATION_MIN icalIterator fuel ev ws we byUid
  = expandOccurrencesExhaustive DEFAULT_DURATION_MIN icalIterator fuel ev ws we byUid.
Proof.
  intros Hshort Hkeys.
  unfold expandOccurrencesInWindow, expandOccurrencesExhaustive.
  destruct (datetype ev); [reflexivity|].
  destruct (start ev); [|reflexivity].
  destruct (rrule ev); [|reflexivity].
  rewrite (iterateRule_is_exhaustive ev ws we _ Hshort Hkeys). reflexivity.
Qed.
End SmartSkipProps.

Lemma smart_skip_agrees_witness :
  expandOccurrencesInWindow 60 sampleIterator 100 sampleTriage (dayMs 80) (dayMs 81)
    [("triage", [(dayMs 80 + 11 * hourMs, sampleMoved)])]
  = expandOccurrencesExhaustive 60 sampleIterator 100 sampleTriage (dayMs 80) (dayMs 81)
      [("triage", [(dayMs 80 + 11 * hourMs, sampleMoved)])].
Proof.
  apply (smart_skip_agrees_with_exhaustive_scan 60 sampleIterator 100 sampleTriage).
  - vm_compute. discriminate.
  - repeat constructor. vm_compute. discriminate.
Defined.

(** C6, as stated, fails: the instance of the 48-hour event that
    starts 42 hours before the window still runs when the window
    opens; the exhaustive scan returns it, the smart skip discards
    it. *)
Lemma smart_skip_drops_long_occurrence :
  expandOccurrencesInWindow 60 sampleIterator 100 sampleLong (dayMs 10) (dayMs 11) []
  = Some [occurrence "long" "Two-day shift" (dayMs 9 + 6 * hourMs) (dayMs 11 + 6 * hourMs);
          occurrence "long" "Two-day shift" (dayMs 10 + 6 * hourMs) (dayMs 12 + 6 * hourMs)]
  /\
  expandOccurrencesExhaustive 60 sampleIterator 100 sampleLong (dayMs 10) (dayMs 11) []
  = Some [occurrence "long" "Two-day shift" (dayMs 8 + 6 * hourMs) (dayMs 10 + 6 * hourMs);
          occurrence "long" "Two-day shift" (dayMs 9 + 6 * hourMs) (dayMs 11 + 6 * hourMs);
          occurrence "long" "Two-day shift" (dayMs 10 + 6 * hourMs) (dayMs 12 + 6 * hourMs)]
  /\
  expandOccurrencesInWindow 60 sampleIterator 100 sampleLong (dayMs 10) (dayMs 11) []
  <> expandOccurrencesExhaustive 60 sampleIterator 100 sampleLong (dayMs 10) (dayMs 11) [].
Proof.
  split; [vm_compute; reflexivity|].
  split; [vm_compute; reflexivity|].
  vm_compute. discriminate.
Qed.

(** An override keyed at a skipped instant also tells the two apart:
    the exhaustive scan applies it inside the loop, the smart skip
    leaves it to the pass over the unused overrides, which titles and
    orders it differently. *)
Example smart_skip_defers_far_override :
  expandOccurrencesInWindow 60 sampleIterator 100 sampleTriage (dayMs 80) (dayMs 81)
    [("triage", [(dayMs 70 + 11 * hourMs, sampleMovedFar)])]
  = Some [occurrence "triage" "Daily Bug Triage"
            (dayMs 80 + 11 * hourMs) (dayMs 80 + 11 * hourMs + 15 * minuteMs);
          occurrence "triage" "Daily Bug Triage"
            (dayMs 80 + 15 * hourMs) (dayMs 80 + 16 * hourMs)]
  /\
  expandOccurrencesExhaustive 60 sampleIterator 100 sampleTriage (dayMs 80) (dayMs 81)
    [("triage", [(dayMs 70 + 11 * hourMs, sampleMovedFar)])]
  = Some [occurrence "triage" "(No title)"
            (dayMs 80 + 15 * hourMs) (dayMs 80 + 16 * hourMs);
          occurrence "triage" "Daily Bug Triage"
            (dayMs 80 + 11 * hourMs) (dayMs 80 + 11 * hourMs + 15 * minuteMs)].
Proof. split; vm_compute; reflexivity. Qed.

(** ** End after start *)

Section EndAfterStart.
Variable DEFAULT_DURATION_MIN : Z.
Hypothesis Hpositive : 0 < DEFAULT_DURATION_MIN.

(** Every occurrence [mkOcc] builds ends after it starts. *)
Lemma mkOcc_end_after_start (ev : VEvent) (t : Z) (ov : option VEvent) :
  startMs (mkOcc DEFAULT_DURATION_MIN ev t ov) < endMs (mkOcc DEFAULT_DURATION_MIN ev t ov).
Proof. simpl. apply calcEndMs_after_start, Hpositive. Qed.

(** A derived duration that is not positive, or a week or more, is
    replaced by the default. *)
Lemma calcDurationMsFromEvent_malformed (e : VEvent) (s en : Z) :
  start e = Some s -> end_ e = Some en -> (en - s <= 0 \/ weekMs <= en - s) ->
  calcDurationMsFromEvent DEFAULT_DURATION_MIN e = DEFAULT_DURATION_MIN * 60000.
Proof.
  intros Hs He Hbad. unfold calcDurationMsFromEvent. rewrite Hs, He.
  destruct (Z.gtb_spec (en - s) 0); simpl; [|reflexivity].
  destruct (Z.ltb_spec (en - s) weekMs); [lia | reflexivity].
Qed.
End EndAfterStart.

(** C4.  The code at the failing inputs: an override the iterator
    never reaches (the series ended on day 4) and an override without
    a master, each from a VEVENT without DTEND (so its end is its
    start), with [now] at 08:00 of day 39.  Both reach the sorted
    occurrence list with [endMs] equal to [startMs]: the two
    standalone paths take the override's end as it is, where [mkOcc]
    would have put the default duration. *)
Theorem standalone_override_keeps_end_at_start :
  handlerOccurrences 60 sampleIterator 100 [sampleStandup; sampleRescheduled]
    (dayMs 39) (dayMs 40) (dayMs 39 + 8 * hourMs)
  = Some [occurrence "standup" "Daily Standup (Rescheduled)"
            (dayMs 39 + 8 * hourMs + 15 * minuteMs)
            (dayMs 39 + 8 * hourMs + 15 * minuteMs)]
  /\
  handlerOccurrences 60 sampleIterator 100 [sampleOrphan]
    (dayMs 39) (dayMs 40) (dayMs 39 + 8 * hourMs)
  = Some [occurrence "gone" "Leftover"
            (dayMs 39 + 8 * hourMs + 15 * minuteMs)
            (dayMs 39 + 8 * hourMs + 15 * minuteMs)]
  /\
  endMs (mkOcc 60 sampleStandup (dayMs 39 + 8 * hourMs + 15 * minuteMs)
           (Some sampleRescheduled))
  = dayMs 39 + 9 * hourMs + 15 * minuteMs.
Proof. repeat split; vm_compute; reflexivity. Qed.

(** ** WindowCalculator *)

Section WindowProps.
Variable formatToParts : string -> Z -> DateParts.

Lemma shiftUtcToZonedMidnightMs_offset (t : Z) (tz : string) :
  shiftUtcToZonedMidnightMs formatToParts t tz = t - measuredOffset formatToParts tz t.
Proof. reflexivity. Qed.
End WindowProps.

(** On 2026-03-29 Europe/Nicosia springs forward: the window runs from
    22:00Z to 21:00Z, 23 hours, where the older variant adds 24 hours
    and ends at 01:00 local time of the next day. *)
Example today_window_spring_forward :
  todayWindow sampleFormatToParts sampleSpringNow "Europe/Nicosia"
  = {| w_startMs := 1774735200000; w_endMs := 1774818000000 |} /\
  1774818000000 - 1774735200000 = 23 * hourMs /\
  Legacy.todayWindow sampleFormatToParts sampleSpringNow "Europe/Nicosia"
  = {| w_startMs := 1774735200000; w_endMs := 1774821600000 |}.
Proof. repeat split; vm_compute; reflexivity. Qed.

(** C7.  The end of the window is the zone round trip of the next
    day's UTC midnight, made on its own; the window is as long as 24
    hours less the change of the zone offset between the two
    midnights, so it is 24 hours long exactly when the offset does not
    change, and a zone and a day exist for which it is 23 hours. *)
Theorem window_end_computed_independently
    (formatToParts : string -> Z -> DateParts) (nowMs : Z) (tz : string) :
  let parts := formatToParts tz nowMs in
  let approx := utcMidnightOf (year parts) (month parts) (day parts) in
  let w := todayWindow formatToParts nowMs tz in
  w_endMs w = shiftUtcToZonedMidnightMs formatToParts (setUTCDateNext approx) tz /\
  w_endMs w - w_startMs w
    = msPerDay - (measuredOffset formatToParts tz (setUTCDateNext approx)
                  - measuredOffset formatToParts tz approx) /\
  (w_endMs w = w_startMs w + 24 * 60 * 60 * 1000 <->
   measuredOffset formatToParts tz (setUTCDateNext approx)
     = measuredOffset formatToParts tz approx) /\
  (exists f now' tz',
     w_endMs (todayWindow f now' tz') - w_startMs (todayWindow f now' tz') = 23 * hourMs).
Proof.
  intros parts approx w. subst w. unfold todayWindow. fold parts. fold approx. simpl.
  rewrite !shiftUtcToZonedMidnightMs_offset.
  split; [reflexivity|]. split; [unfold setUTCDateNext; lia|].
  split; [unfold setUTCDateNext, msPerDay; lia|].
  exists sampleFormatToParts, sampleSpringNow, "Europe/Nicosia".
  vm_compute. reflexivity.
Qed.

(** The older variant's window is 24 hours long whatever the zone
    does. *)
Lemma legacy_window_is_24_hours (formatToParts : string -> Z -> DateParts)
    (nowMs : Z) (tz : string) :
  w_endMs (Legacy.todayWindow formatToParts nowMs tz)
  = w_startMs (Legacy.todayWindow formatToParts nowMs tz) + 24 * 60 * 60 * 1000.
Proof. reflexivity. Qed.

(** ** TimeZoneNormalizer *)

Lemma string_app_cons (x : ascii) (a b : string) :
  String x a +:+ b = String x (a +:+ b).
Proof. reflexivity. Qed.

Lemma string_app_nil (b : string) : "" +:+ b = b.
Proof. reflexivity. Qed.

Lemma string_app_assoc (a b c : string) : (a +:+ b) +:+ c = a +:+ (b +:+ c).
Proof.
  induction a as [|x a IH]; [reflexivity|].
  rewrite !string_app_cons, IH. reflexivity.
Qed.

Lemma string_app_length (a b : string) :
  String.length (a +:+ b) = (String.length a + String.length b)%nat.
Proof.
  induction a as [|x a IH]; [reflexivity|].
  rewrite string_app_cons. simpl. rewrite IH. reflexivity.
Qed.

Lemma stripPrefix_sound (p s s' : string) : stripPrefix p s = Some s' -> s = p +:+ s'.
Proof.
  revert s. induction p as [|a p IH]; intros s; simpl.
  - intros [= ->]. reflexivity.
  - destruct s as [|b s]; [discriminate|].
    destruct (Ascii.eqb_spec a b) as [->|]; [|discriminate].
    intros H. rewrite (IH _ H). reflexivity.
Qed.

Lemma matchLit_sound (l : string) (k : string -> option MatchResult) :
  SplitsText k -> SplitsText (matchLit l k).
Proof.
  intros Hk s r. unfold matchLit.
  destruct (stripPrefix l s) as [s'|] eqn:Hp; [|discriminate].
  destruct (k s') as [r'|] eqn:Hr; [|discriminate].
  intros [= <-]. unfold extendMatch. cbn [matched rest].
  rewrite string_app_assoc, <- (Hk _ _ Hr). apply stripPrefix_sound, Hp.
Qed.

Lemma matchLazy_sound (k : string -> option MatchResult) :
  SplitsText k -> SplitsText (matchLazy k).
Proof.
  intros Hk s. induction s as [|c s IHs]; intros r; cbn [matchLazy].
  - destruct (k "") as [r'|] eqn:Hr; [|discriminate]. intros [= <-]. apply Hk, Hr.
  - destruct (k (String c s)) as [r'|] eqn:Hr.
    + intros [= <-]. apply Hk, Hr.
    + destruct (matchLazy k s) as [r'|] eqn:Hl; [|discriminate].
      intros [= <-]. unfold extendMatch. cbn [matched rest].
      rewrite string_app_cons, string_app_nil, string_app_cons, <- (IHs _ eq_refl).
      reflexivity.
Qed.

Lemma matchGreedy_sound (cls : ascii -> bool) (k : string -> option MatchResult) :
  SplitsText k -> SplitsText (matchGreedy cls k).
Proof.
  intros Hk s. induction s as [|c s IHs]; intros r; cbn [matchGreedy]; [discriminate|].
  destruct (cls c); [|discriminate].
  destruct (matchGreedy cls k s) as [r'|] eqn:Hg.
  - intros [= <-]. cbn [matched rest]. rewrite string_app_cons, <- (IHs _ eq_refl).
    reflexivity.
  - destruct (k s) as [r'|] eqn:Hr; [|discriminate].
    intros [= <-]. cbn [matched rest]. rewrite string_app_cons, <- (Hk _ _ Hr).
    reflexivity.
Qed.

Lemma matchHere_sound (re : list RegexItem) : SplitsText (matchHere re).
Proof.
  induction re as [|[l | | cls] re IH]; cbn [matchHere].
  - intros s r [= <-]. reflexivity.
  - apply matchLit_sound, IH.
  - apply matchLazy_sound, IH.
  - apply matchGreedy_sound, IH.
Qed.

Lemma search_sound (re : list RegexItem) :
  forall s pre r, search re s = Some (pre, r) -> s = pre +:+ matched r +:+ rest r.
Proof.
  induction s as [|c s IHs]; intros pre r; cbn [search].
  - destruct (matchHere re "") as [r'|] eqn:Hm; [|discriminate].
    intros [= <- <-]. rewrite string_app_nil. apply (matchHere_sound re), Hm.
  - destruct (matchHere re (String c s)) as [r'|] eqn:Hm.
    + intros [= <- <-]. rewrite string_app_nil. apply (matchHere_sound re), Hm.
    + destruct (search re s) as [[pre' r']|] eqn:Hs; [|discriminate].
      intros [= <- <-]. rewrite string_app_cons, <- (IHs _ _ eq_refl). reflexivity.
Qed.

(** A pattern that starts with a non-empty literal matches no empty
    text. *)
Lemma matchHere_Lit_nonempty (a : ascii) (l : string) (re : list RegexItem) (s : string)
    (r : MatchResult) :
  matchHere (Lit (String a l) :: re) s = Some r -> matched r <> "".
Proof.
  cbn [matchHere]. unfold matchLit.
  destruct (stripPrefix (String a l) s); [|discriminate].
  destruct (matchHere re _); [|discriminate].
  intros [= <-]. unfold extendMatch. cbn [matched]. rewrite string_app_cons. discriminate.
Qed.

Lemma search_rest_shorter (re : list RegexItem) (s pre : string) (r : MatchResult) :
  (forall s r, matchHere re s = Some r -> matched r <> "") ->
  search re s = Some (pre, r) ->
  (String.length (rest r) < String.length s)%nat.
Proof.
  intros Hne Hs.
  assert (Hm : matched r <> "").
  { revert pre r Hs. induction s as [|c s IHs]; intros pre r; cbn [search].
    - destruct (matchHere re "") eqn:Hm; [|discriminate]. intros [= <- <-]. eapply Hne, Hm.
    - destruct (matchHere re (String c s)) eqn:Hm.
      + intros [= <- <-]. eapply Hne, Hm.
      + destruct (search re s) as [[pre' r']|]; [|discriminate].
        intros [= <- <-]. eapply IHs. reflexivity. }
  rewrite (search_sound _ _ _ _ Hs), !string_app_length.
  destruct (matched r); [congruence | simpl; lia].
Qed.

(** Fuel above the length of the text is never used up. *)
Lemma replaceAllFuel_enough (re : list RegexItem) (cb : string -> string -> string) :
  (forall s r, matchHere re s = Some r -> matched r <> "") ->
  forall n m s, (String.length s < n)%nat -> (String.length s < m)%nat ->
    replaceAllFuel n re cb s = replaceAllFuel m re cb s.
Proof.
  intros Hne. induction n as [|n IH]; intros m s Hn Hm; [lia|].
  destruct m as [|m]; [lia|]. simpl.
  destruct (search re s) as [[pre r]|] eqn:Hs; [|reflexivity].
  pose proof (search_rest_shorter re s pre r Hne Hs).
  rewrite (IH m (rest r)) by lia. reflexivity.
Qed.

Lemma allMatches_enough (re : list RegexItem) :
  (forall s r, matchHere re s = Some r -> matched r <> "") ->
  forall n m s, (String.length s < n)%nat -> (String.length s < m)%nat ->
    allMatches n re s = allMatches m re s.
Proof.
  intros Hne. induction n as [|n IH]; intros m s Hn Hm; [lia|].
  destruct m as [|m]; [lia|]. simpl.
  destruct (search re s) as [[pre r]|] eqn:Hs; [|reflexivity].
  pose proof (search_rest_shorter re s pre r Hne Hs).
  rewrite (IH m (rest r)) by lia. reflexivity.
Qed.

Lemma execAllGroups_enough (re : list RegexItem) :
  (forall s r, matchHere re s = Some r -> matched r <> "") ->
  forall n m s, (String.length s < n)%nat -> (String.length s < m)%nat ->
    execAllGroups n re s = execAllGroups m re s.
Proof.
  intros Hne. induction n as [|n IH]; intros m s Hn Hm; [lia|].
  destruct m as [|m]; [lia|]. simpl.
  destruct (search re s) as [[pre r]|] eqn:Hs; [|reflexivity].
  pose proof (search_rest_shorter re s pre r Hne Hs).
  rewrite (IH m (rest r)) by lia. reflexivity.
Qed.

(** A callback that returns every match it is shown as it is leaves
    the text unchanged. *)
Lemma replaceAllFuel_unchanged (re : list RegexItem) (cb : string -> string -> string) :
  forall fuel s,
    Forall (fun ref => cb (fst ref) (snd ref) = fst ref) (allMatches fuel re s) ->
    replaceAllFuel fuel re cb s = s.
Proof.
  induction fuel as [|fuel IH]; intros s; simpl; [reflexivity|].
  destruct (search re s) as [[pre r]|] eqn:Hs; [|reflexivity].
  intros Hall. inversion Hall as [|? ? Hhead Htail]; subst. simpl in Hhead.
  rewrite Hhead, (IH _ Htail). symmetry. apply (search_sound re), Hs.
Qed.

Lemma replaceAllFuel_ext (re : list RegexItem) (cb cb' : string -> string -> string) :
  (forall m g, cb m g = cb' m g) ->
  forall fuel s, replaceAllFuel fuel re cb s = replaceAllFuel fuel re cb' s.
Proof.
  intros Hext. induction fuel as [|fuel IH]; intros s; simpl; [reflexivity|].
  destruct (search re s) as [[pre r]|]; [|reflexivity].
  rewrite Hext, IH. reflexivity.
Qed.

Section NormalizerProps.
Variable findIana : string -> list string.

Lemma rewriteReference_declared (vtimezones : gset string) (m w : string) :
  w ∈ vtimezones -> rewriteReference findIana vtimezones m w = m.
Proof.
  intros Hin. unfold rewriteReference. rewrite bool_decide_eq_true_2 by exact Hin.
  reflexivity.
Qed.

(** The guard of the callback, on the set the first scan collected: a
    reference whose identifier is in the set is returned as it was
    matched, whatever the mapping table holds for it; a reference that
    is rewritten is not in it; a text all of whose references are in
    it comes back unchanged; and the result does not depend on what
    the mapping table holds for the identifiers in the set. *)
Lemma collected_zones_guard_the_callback (icsText : string) :
  (forall m w, w ∈ declaredZones icsText ->
     rewriteReference findIana (declaredZones icsText) m w = m) /\
  (forall m w, rewriteReference findIana (declaredZones icsText) m w <> m ->
     w ∉ declaredZones icsText) /\
  (Forall (fun ref => snd ref ∈ declaredZones icsText) (zoneReferences icsText) ->
   normalizeIcsTimezones findIana icsText = icsText) /\
  (forall findIana' : string -> list string,
     (forall w, w ∉ declaredZones icsText -> findIana' w = findIana w) ->
     normalizeIcsTimezones findIana' icsText = normalizeIcsTimezones findIana icsText).
Proof.
  split; [|split; [|split]].
  - intros m w. apply rewriteReference_declared.
  - intros m w Hchanged Hin. apply Hchanged, rewriteReference_declared, Hin.
  - intros Hall. unfold normalizeIcsTimezones. apply replaceAllFuel_unchanged.
    unfold zoneReferences in Hall.
    eapply Forall_impl; [exact Hall|]. intros [m w] Hin. simpl in *.
    apply rewriteReference_declared, Hin.
  - intros findIana' Hagree. unfold normalizeIcsTimezones.
    apply replaceAllFuel_ext. intros m w. unfold rewriteReference.
    destruct (bool_decide (w ∈ declaredZones icsText)) eqn:Hdec; [reflexivity|].
    apply bool_decide_eq_false in Hdec. rewrite (Hagree w Hdec). reflexivity.
Qed.
End NormalizerProps.

(** Scenario D: the calendar defines "FLE Standard Time" itself, so
    its references stay although the table maps the name; without the
    definition block they are rewritten. *)
Example declared_legacy_zone_is_kept :
  elements (declaredZones sampleIcsWithZone) = ["FLE Standard Time"] /\
  zoneReferences sampleIcsWithZone
  = [("TZID=FLE Standard Time", "FLE Standard Time");
     ("TZID=FLE Standard Time", "FLE Standard Time")] /\
  sampleFindIana "FLE Standard Time" = ["Europe/Kiev"; "Europe/Helsinki"] /\
  normalizeIcsTimezones sampleFindIana sampleIcsWithZone = sampleIcsWithZone /\
  normalizeIcsTimezones sampleFindIana sampleIcsWithoutZone = sampleIcsRewritten.
Proof. repeat split; vm_compute; reflexivity. Qed.

(** The scan over the text never runs out of fuel: any larger fuel
    gives the same normalized text. *)
Lemma normalizeIcsTimezones_fuel (findIana : string -> list string) (icsText : string)
    (fuel : nat) :
  (String.length icsText < fuel)%nat ->
  replaceAllFuel fuel tzidRefRegex (rewriteReference findIana (declaredZones icsText)) icsText
  = normalizeIcsTimezones findIana icsText.
Proof.
  intros Hfuel. unfold normalizeIcsTimezones, scanFuel.
  apply replaceAllFuel_enough; [|exact Hfuel | lia].
  intros s r. apply matchHere_Lit_nonempty.
Qed.

Lemma declaredZones_fuel (icsText : string) (fuel : nat) :
  (String.length icsText < fuel)%nat ->
  list_to_set (execAllGroups fuel vtzRegex icsText) = declaredZones icsText.
Proof.
  intros Hfuel. unfold declaredZones, scanFuel. f_equal.
  apply execAllGroups_enough; [|exact Hfuel | lia].
  intros s r. apply matchHere_Lit_nonempty.
Qed.

(** ** The older variant and the timeline *)

Section LegacyProps.
Variable toISOString : Z -> string.

Lemma keepUpcoming_all_later (nowMs endMs' : Z) (l : list Occurrence) :
  Forall (fun o => nowMs < startMs o) (Legacy.keepUpcoming nowMs endMs' l).
Proof.
  unfold Legacy.keepUpcoming. induction l as [|o l IH]; [constructor|].
  rewrite filter_cons. case_decide as Hkeep; [|exact IH].
  constructor; [|exact IH]. apply andb_true_iff in Hkeep. lia.
Qed.

Lemma find_after_all_later (nowMs : Z) (kept : list Occurrence) :
  Forall (fun o => nowMs < startMs o) kept ->
  find (fun o => startMs o >? nowMs) kept = find (fun o => startMs o >=? nowMs) kept.
Proof.
  induction 1 as [|o kept Ho _ IH]; [reflexivity|]. simpl.
  destruct (Z.gtb_spec (startMs o) nowMs); [|lia].
  destruct (Z.geb_spec (startMs o) nowMs); [reflexivity | lia].
Qed.

Lemma no_current_all_later (nowMs : Z) (kept : list Occurrence) :
  Forall (fun o => nowMs < startMs o) kept -> find (coversNow nowMs) kept = None.
Proof.
  induction 1 as [|o kept Ho _ IH]; [reflexivity|]. simpl. unfold coversNow at 1.
  destruct (Z.geb_spec nowMs (startMs o)); [lia|]. simpl. exact IH.
Qed.

(** The older handler only passes on occurrences that start after
    [now]: none of them holds [now], and its [next], the first
    occurrence starting after [now], is the first one starting at or
    after it. *)
Lemma legacy_next_on_upcoming (nowMs endMs' : Z) (l : list Occurrence) :
  find (coversNow nowMs) (Legacy.keepUpcoming nowMs endMs' l) = None /\
  next (Legacy.computeNextTriple toISOString (Legacy.keepUpcoming nowMs endMs' l) nowMs)
  = Legacy.toDto toISOString
      (find (fun o => startMs o >=? nowMs) (Legacy.keepUpcoming nowMs endMs' l)).
Proof.
  pose proof (keepUpcoming_all_later nowMs endMs' l) as Hall.
  split; [apply no_current_all_later, Hall|].
  unfold Legacy.computeNextTriple. rewrite atIndex_findIndex.
  rewrite <- (find_after_all_later _ _ Hall).
  destruct (find _ (Legacy.keepUpcoming nowMs endMs' l)); reflexivity.
Qed.
End LegacyProps.

(** With a current occurrence in the list the two variants part: at
    10:20 the first meeting is current, [next] is the first one that
    starts at or after its end (12:30), where "first start after
    [now]" picks the call at 10:30 that overlaps it. *)
Example next_skips_what_overlaps_current :
  forall (iso : Z -> string -> string) (tz : string),
    next (computeNextTriple iso sampleTimeline (10 * hourMs + 20 * minuteMs) tz)
    = toDtoWithTz iso
        (Some (occurrence "b" "PayPal Discussion"
                 (12 * hourMs + 30 * minuteMs) (13 * hourMs + 30 * minuteMs))) tz
    /\
    next (Legacy.computeNextTriple (fun t => iso t tz) sampleTimeline
            (10 * hourMs + 20 * minuteMs))
    = Legacy.toDto (fun t => iso t tz)
        (Some (occurrence "x" "Overlapping call"
                 (10 * hourMs + 30 * minuteMs) (11 * hourMs))).
Proof. intros iso tz. split; reflexivity. Qed.

(** ** Expansion returns when the rule ends *)

Section ExpansionReturns.
Variable DEFAULT_DURATION_MIN : Z.
Variable icalIterator : VEvent -> nat -> option Z.

(** For a timed, recurring event the expansion returns within [fuel]
    passes exactly when the rule ends at one of the first [fuel]
    calls of [next]; every other event is expanded without a loop. *)
Lemma expandOccurrencesInWindow_returns (fuel : nat) (ev : VEvent) (ws we : Z)
    (byUid : OverridesByUid) :
  (exists out,
     expandOccurrencesInWindow DEFAULT_DURATION_MIN icalIterator fuel ev ws we byUid
     = Some out)
  <->
  (datetype ev = DateOnly \/ start ev = None \/ rrule ev = None \/
   exists n, (n < fuel)%nat /\ RuleEnds we (icalIterator ev n)).
Proof.
  unfold expandOccurrencesInWindow.
  destruct (datetype ev); [split; [auto | eauto]|].
  destruct (start ev) as [s|]; [|split; [auto | eauto]].
  destruct (rrule ev) as [rule|].
  - destruct (iterateRule_returns_iff_rule_ends DEFAULT_DURATION_MIN icalIterator
                fuel ev ws we (JsMap.get byUid (jsOrStr (ev_uid ev) "")) 0%nat
                initialLoopState) as [Hto Hfrom].
    split.
    + intros [out Hout].
      destruct (iterateRule _ _ _ _ _ _ _ _ _) as [st|] eqn:Hrun; [|discriminate].
      right. right. right. apply Hto. eauto.
    + intros [H|[H|[H|Hend]]]; try discriminate.
      destruct (Hfrom Hend) as [st ->]. eauto.
  - split; [auto|]. intros _.
    destruct (overlapsWindow _ _ _ _); [destruct (isCancelledOcc _)|]; eauto.
Qed.
End ExpansionReturns.

(** * Further properties of the code *)

(** ** The three loops of [computeNextTriple] *)

Lemma find_split {A} (p : A -> bool) (l : list A) (x : A) :
  find p l = Some x ->
  exists l1, l = l1 ++ x :: drop (Z.to_nat (findIndex p l + 1)) l /\
             Forall (fun y => p y = false) l1 /\ p x = true.
Proof.
  induction l as [|y l IH]; simpl; [discriminate|].
  destruct (p y) eqn:Hy.
  - intros [= ->]. exists []. simpl. rewrite drop_0. auto.
  - intros Hfind. destruct (IH Hfind) as (l1 & Hl & Hall & Hx).
    pose proof (findIndex_lower p l) as Hlow.
    assert (Hpos : 0 <= findIndex p l).
    { pose proof (atIndex_findIndex p l) as Hat. rewrite Hfind in Hat.
      unfold atIndex in Hat. destruct (Z.leb_spec 0 (findIndex p l)); [lia | discriminate]. }
    destruct (Z.ltb_spec (findIndex p l) 0); [lia|].
    exists (y :: l1). split; [|split; [constructor; assumption | assumption]].
    replace (Z.to_nat (findIndex p l + 1 + 1)) with (S (Z.to_nat (findIndex p l + 1))) by lia.
    simpl. f_equal. exact Hl.
Qed.

Lemma growCluster_ge (c : Z) (rest : list Occurrence) : c <= growCluster c rest.
Proof.
  revert c. induction rest as [|o rest IH]; intros c; simpl; [lia|].
  destruct (startMs o >=? c); [lia|].
  destruct (Z.gtb_spec (endMs o) c); [specialize (IH (endMs o)) | specialize (IH c)]; lia.
Qed.

(** Where the second loop stops is where the third loop finds its
    occurrence; what lies before has started and ended by the cluster
    end. *)
Lemma cluster_split (c : Z) (rest : list Occurrence) :
  (scanNonOverlapping (growCluster c rest) rest = None /\
   Forall (fun x => startMs x < growCluster c rest /\ endMs x <= growCluster c rest) rest)
  \/
  exists l2 b l3,
    rest = l2 ++ b :: l3 /\
    Forall (fun x => startMs x < growCluster c rest /\ endMs x <= growCluster c rest) l2 /\
    growCluster c rest <= startMs b /\
    scanNonOverlapping (growCluster c rest) rest = Some b.
Proof.
  revert c. induction rest as [|o rest IH]; intros c; cbn [growCluster].
  - left. split; [reflexivity | constructor].
  - destruct (Z.geb_spec (startMs o) c) as [Hbreak|Hin].
    + right. exists [], o, rest. simpl.
      destruct (Z.geb_spec (startMs o) c); [|lia].
      repeat split; [constructor | lia].
    + set (c' := if endMs o >? c then endMs o else c).
      assert (Hc' : c <= c' /\ endMs o <= c')
        by (unfold c'; destruct (Z.gtb_spec (endMs o) c); lia).
      pose proof (growCluster_ge c' rest) as Hge.
      assert (Hskip : scanNonOverlapping (growCluster c' rest) (o :: rest)
                      = scanNonOverlapping (growCluster c' rest) rest).
      { simpl. destruct (Z.geb_spec (startMs o) (growCluster c' rest)); [lia | reflexivity]. }
      destruct (IH c') as [[Hnone Hall]|(l2 & b & l3 & Hrest & Hall & Hb & Hsome)].
      * left. rewrite Hskip. split; [exact Hnone|]. constructor; [lia | exact Hall].
      * right. exists (o :: l2), b, l3. rewrite Hskip. simpl.
        split; [f_equal; exact Hrest|]. split; [constructor; [lia | exact Hall]|].
        split; [exact Hb | exact Hsome].
Qed.

Lemma scanOverlapping_split (n : Occurrence) (rest : list Occurrence) (o : Occurrence) :
  scanOverlapping n rest = Some o ->
  exists l2 l3,
    rest = l2 ++ o :: l3 /\
    Forall (fun x => startMs x < endMs n /\ endMs x <= startMs n) l2 /\
    Overlap o n.
Proof.
  induction rest as [|x rest IH]; simpl; [discriminate|].
  destruct (Z.geb_spec (startMs x) (endMs n)); [discriminate|].
  destruct (Z.gtb_spec (endMs x) (startMs n)).
  - intros [= ->]. exists [], rest. unfold Overlap. repeat split; [constructor | lia | lia].
  - intros Hscan. destruct (IH Hscan) as (l2 & l3 & -> & Hall & Hov).
    exists (x :: l2), l3. repeat split; [constructor; [lia | exact Hall] | apply Hov | apply Hov].
Qed.

Lemma scanOverlapping_in_cluster (n : Occurrence) (rest : list Occurrence)
    (v : Occurrence) (c : Z) :
  scanOverlapping n rest = Some v -> endMs n <= c -> endMs v <= growCluster c rest.
Proof.
  revert c. induction rest as [|x rest IH]; intros c; simpl; [discriminate|].
  destruct (Z.geb_spec (startMs x) (endMs n)); [discriminate|].
  intros Hscan Hc. destruct (Z.geb_spec (startMs x) c); [lia|].
  set (c' := if endMs x >? c then endMs x else c).
  assert (Hc' : c <= c' /\ endMs x <= c')
    by (unfold c'; destruct (Z.gtb_spec (endMs x) c); lia).
  destruct (Z.gtb_spec (endMs x) (startMs n)).
  - injection Hscan as ->. pose proof (growCluster_ge c' rest). lia.
  - apply IH; [exact Hscan | lia].
Qed.

Lemma scanOverlapping_none_sorted (n : Occurrence) (rest : list Occurrence) :
  StartSorted rest -> scanOverlapping n rest = None ->
  Forall (fun x => ~ Overlap x n) rest.
Proof.
  unfold StartSorted, Overlap. induction 1 as [|x rest Hsorted IH Hx]; simpl; [constructor|].
  destruct (Z.geb_spec (startMs x) (endMs n)) as [Hbreak|Hin].
  - intros _. constructor; [lia|].
    eapply Forall_impl; [exact Hx|]. intros y Hy. simpl in Hy. lia.
  - destruct (Z.gtb_spec (endMs x) (startMs n)); [discriminate|].
    intros Hscan. constructor; [lia | apply IH, Hscan].
Qed.

Section TimelineExtras.
Variable isoWithTimeZone : Z -> string -> string.
Variable Date_parse : string -> Z.

(** [computeNextTriple] laid out on the list: nothing at or after
    [searchFrom], or the list split at [next] with the three loops run
    on what follows it. *)
Lemma computeNextTriple_split (occs : list Occurrence) (nowMs : Z) (tz : string) :
  (next (computeNextTriple isoWithTimeZone occs nowMs tz) = None /\
   nextOverlapping (computeNextTriple isoWithTimeZone occs nowMs tz) = None /\
   nextNonOverlapping (computeNextTriple isoWithTimeZone occs nowMs tz) = None)
  \/
  exists l1 n rest,
    occs = l1 ++ n :: rest /\
    Forall (fun x => startMs x < searchFrom (find (coversNow nowMs) occs) nowMs) l1 /\
    searchFrom (find (coversNow nowMs) occs) nowMs <= startMs n /\
    next (computeNextTriple isoWithTimeZone occs nowMs tz)
      = toDtoWithTz isoWithTimeZone (Some n) tz /\
    nextOverlapping (computeNextTriple isoWithTimeZone occs nowMs tz)
      = toDtoWithTz isoWithTimeZone (scanOverlapping n rest) tz /\
    nextNonOverlapping (computeNextTriple isoWithTimeZone occs nowMs tz)
      = toDtoWithTz isoWithTimeZone
          (scanNonOverlapping (growCluster (endMs n) rest) rest) tz.
Proof.
  unfold computeNextTriple, searchFrom. rewrite atIndex_findIndex.
  set (sf := match find (coversNow nowMs) occs with
             | Some c => endMs c
             | None => nowMs
             end).
  destruct (find (fun o => startMs o >=? sf) occs) as [n|] eqn:Hfind; [|left; auto].
  right. destruct (find_split _ _ _ Hfind) as (l1 & Hsplit & Hall & Hn).
  exists l1, n, (drop (Z.to_nat (findIndex (fun o => startMs o >=? sf) occs + 1)) occs).
  split; [exact Hsplit|]. split.
  - eapply Forall_impl; [exact Hall|]. intros x Hx. simpl in Hx. lia.
  - split; [lia|]. simpl. auto.
Qed.

(** X1.  When [nextOverlapping] is set, it is an occurrence that comes
    after [next] in the list and overlaps it, and none of the
    occurrences between the two overlaps [next]. *)
Theorem next_overlapping_overlaps_next (occs : list Occurrence) (nowMs : Z)
    (tz : string) (d : Dto) :
  nextOverlapping (computeNextTriple isoWithTimeZone occs nowMs tz) = Some d ->
  exists l1 n l2 o l3,
    occs = l1 ++ n :: l2 ++ o :: l3 /\
    next (computeNextTriple isoWithTimeZone occs nowMs tz)
      = toDtoWithTz isoWithTimeZone (Some n) tz /\
    Some d = toDtoWithTz isoWithTimeZone (Some o) tz /\
    Overlap o n /\
    Forall (fun x => ~ Overlap x n) l2.
Proof.
  intros Hd.
  destruct (computeNextTriple_split occs nowMs tz)
    as [(_ & Hnone & _)|(l1 & n & rest & Hsplit & _ & _ & Hnext & Hov & _)];
    [congruence|].
  rewrite Hov in Hd.
  destruct (scanOverlapping n rest) as [o|] eqn:Hscan; [|discriminate].
  destruct (scanOverlapping_split _ _ _ Hscan) as (l2 & l3 & -> & Hall & Hover).
  exists l1, n, l2, o, l3. repeat split; try assumption; try apply Hover.
  - symmetry. exact Hd.
  - eapply Forall_impl; [exact Hall|]. intros x Hx. unfold Overlap. simpl in Hx. lia.
Qed.

(** X2.  When [nextNonOverlapping] is set, it comes after [next] in
    the list and starts at or after the end of [next], of every
    occurrence between the two, and of [nextOverlapping]. *)
Theorem next_non_overlapping_starts_after_cluster (occs : list Occurrence)
    (nowMs : Z) (tz : string) (d : Dto) :
  nextNonOverlapping (computeNextTriple isoWithTimeZone occs nowMs tz) = Some d ->
  exists l1 n l2 o l3 ov,
    occs = l1 ++ n :: l2 ++ o :: l3 /\
    next (computeNextTriple isoWithTimeZone occs nowMs tz)
      = toDtoWithTz isoWithTimeZone (Some n) tz /\
    Some d = toDtoWithTz isoWithTimeZone (Some o) tz /\
    nextOverlapping (computeNextTriple isoWithTimeZone occs nowMs tz)
      = toDtoWithTz isoWithTimeZone ov tz /\
    endMs n <= startMs o /\
    Forall (fun x => endMs x <= startMs o) l2 /\
    (forall v, ov = Some v -> endMs v <= startMs o).
Proof.
  intros Hd.
  destruct (computeNextTriple_split occs nowMs tz)
    as [(_ & _ & Hnone)|(l1 & n & rest & Hsplit & _ & _ & Hnext & Hov & Hnon)];
    [congruence|].
  rewrite Hnon in Hd.
  pose proof (growCluster_ge (endMs n) rest) as Hge.
  destruct (cluster_split (endMs n) rest)
    as [[Hnone _]|(l2 & b & l3 & Hrest & Hall & Hb & Hsome)].
  - rewrite Hnone in Hd. discriminate.
  - rewrite Hsome in Hd.
    exists l1, n, l2, b, l3, (scanOverlapping n rest).
    split; [rewrite Hsplit, Hrest; reflexivity|].
    split; [exact Hnext|]. split; [symmetry; exact Hd|]. split; [exact Hov|].
    split; [lia|]. split.
    + eapply Forall_impl; [exact Hall|]. intros x Hx. simpl in Hx. lia.
    + intros v Hv.
      pose proof (scanOverlapping_in_cluster n rest v (endMs n) Hv ltac:(lia)). lia.
Qed.

Lemma scanOverlapping_first_sorted (n : Occurrence) (rest : list Occurrence) :
  StartSorted rest ->
  FirstWhere (fun o => Overlap o n) rest (scanOverlapping n rest).
Proof.
  intros Hsorted. destruct (scanOverlapping n rest) as [o|] eqn:Hscan; cbn [FirstWhere].
  - destruct (scanOverlapping_split n rest o Hscan) as (l2 & l3 & Hrest & Hall & Hov).
    exists l2, l3. split; [exact Hrest|]. split; [|exact Hov].
    eapply Forall_impl; [exact Hall|]. unfold Overlap. intros x Hx. cbn beta in Hx. lia.
  - apply scanOverlapping_none_sorted; assumption.
Qed.

(** On a sorted list the second loop stops exactly where the chain
    ends, and the third loop returns the occurrence right after it. *)
Lemma cluster_chain_sorted (rest : list Occurrence) :
  StartSorted rest ->
  forall c,
  exists cluster tail,
    rest = cluster ++ tail /\
    Chain c cluster /\
    latestEnd c cluster = growCluster c rest /\
    Forall (fun o => latestEnd c cluster <= startMs o) tail /\
    scanNonOverlapping (growCluster c rest) rest = head tail.
Proof.
  unfold StartSorted. induction 1 as [|o rest Hsorted IH Ho]; intros c.
  - exists [], []. cbn. repeat split. constructor.
  - cbn [growCluster]. destruct (Z.geb_spec (startMs o) c) as [Hbreak|Hin].
    + exists [], (o :: rest). cbn [app Chain latestEnd scanNonOverlapping head].
      destruct (Z.geb_spec (startMs o) c); [|lia].
      repeat split. constructor; [lia|].
      eapply Forall_impl; [exact Ho|]. intros x Hx. cbn beta in Hx. lia.
    + assert (Hmax : (if endMs o >? c then endMs o else c) = Z.max c (endMs o))
        by (destruct (Z.gtb_spec (endMs o) c); lia).
      rewrite Hmax.
      destruct (IH (Z.max c (endMs o))) as (cluster & tail & Hrest & Hchain & Hend & Htail & Hscan).
      exists (o :: cluster), tail. cbn [app Chain latestEnd].
      split; [f_equal; exact Hrest|]. split; [split; [lia | exact Hchain]|].
      split; [exact Hend|]. split; [exact Htail|].
      cbn [scanNonOverlapping].
      pose proof (growCluster_ge (Z.max c (endMs o)) rest) as Hge.
      destruct (Z.geb_spec (startMs o) (growCluster (Z.max c (endMs o)) rest)); [lia|].
      exact Hscan.
Qed.

(** The split into chain and tail is the only one. *)
Lemma chain_split_unique (c : Z) (cluster1 tail1 cluster2 tail2 : list Occurrence) :
  cluster1 ++ tail1 = cluster2 ++ tail2 ->
  Chain c cluster1 -> Forall (fun o => latestEnd c cluster1 <= startMs o) tail1 ->
  Chain c cluster2 -> Forall (fun o => latestEnd c cluster2 <= startMs o) tail2 ->
  cluster1 = cluster2 /\ tail1 = tail2.
Proof.
  revert c cluster2. induction cluster1 as [|o cluster1 IH]; intros c cluster2 Heq H1 T1 H2 T2.
  - destruct cluster2 as [|o' cluster2]; [auto|].
    cbn [app] in Heq. subst tail1. cbn [Chain latestEnd] in *.
    inversion T1; subst. lia.
  - destruct cluster2 as [|o' cluster2].
    + cbn [app] in Heq. subst tail2. cbn [Chain latestEnd] in *.
      inversion T2; subst. lia.
    + cbn [app] in Heq. injection Heq as <- Heq. cbn [Chain latestEnd] in *.
      destruct (IH _ _ Heq (proj2 H1) T1 (proj2 H2) T2) as [-> ->]. auto.
Qed.

(** X3.  On a list sorted by start the early exits of the scans lose
    nothing.  Either no occurrence starts at or after [searchFrom] and
    the three fields are [null]; or the list splits into the
    occurrences that start before [searchFrom], then [next], then a
    chain (every member starts before the latest end of [next] and of
    the members before it), then a tail whose members all start at or
    after the latest end of [next] and the chain.  [nextOverlapping]
    is the first of all the occurrences after [next] that overlaps
    it, [null] when none does; [nextNonOverlapping] is the first
    occurrence of the tail, [null] when the tail is empty. *)
Theorem sorted_list_justifies_the_breaks (occs : list Occurrence) (nowMs : Z)
    (tz : string) :
  StartSorted occs ->
  (Forall (fun o => startMs o < searchFrom (find (coversNow nowMs) occs) nowMs) occs /\
   next (computeNextTriple isoWithTimeZone occs nowMs tz) = None /\
   nextOverlapping (computeNextTriple isoWithTimeZone occs nowMs tz) = None /\
   nextNonOverlapping (computeNextTriple isoWithTimeZone occs nowMs tz) = None)
  \/
  exists l1 n cluster tail ov,
    occs = l1 ++ n :: cluster ++ tail /\
    Forall (fun o => startMs o < searchFrom (find (coversNow nowMs) occs) nowMs) l1 /\
    searchFrom (find (coversNow nowMs) occs) nowMs <= startMs n /\
    next (computeNextTriple isoWithTimeZone occs nowMs tz)
      = toDtoWithTz isoWithTimeZone (Some n) tz /\
    FirstWhere (fun o => Overlap o n) (cluster ++ tail) ov /\
    nextOverlapping (computeNextTriple isoWithTimeZone occs nowMs tz)
      = toDtoWithTz isoWithTimeZone ov tz /\
    Chain (endMs n) cluster /\
    Forall (fun o => latestEnd (endMs n) cluster <= startMs o) tail /\
    nextNonOverlapping (computeNextTriple isoWithTimeZone occs nowMs tz)
      = toDtoWithTz isoWithTimeZone (head tail) tz.
Proof.
  intros Hsorted.
  destruct (computeNextTriple_split occs nowMs tz)
    as [(Hnext & Hov & Hnon)|(l1 & n & rest & Hsplit & Hbefore & Hfrom & Hnext & Hov & Hnon)].
  - left. split; [|auto].
    rewrite computeNextTriple_next in Hnext.
    destruct (find (fun o => startMs o >=? searchFrom (find (coversNow nowMs) occs) nowMs) occs)
      as [x|] eqn:Hfind; [discriminate|].
    apply List.Forall_forall. intros o Ho.
    pose proof (find_none _ _ Hfind o Ho) as Hmiss. cbn beta in Hmiss. lia.
  - right.
    assert (Hrest : StartSorted rest).
    { unfold StartSorted in *. rewrite Hsplit in Hsorted.
      apply StronglySorted_app_1_r in Hsorted. inversion Hsorted; assumption. }
    destruct (cluster_chain_sorted rest Hrest (endMs n))
      as (cluster & tail & Hr & Hchain & Hend & Htail & Hscan).
    exists l1, n, cluster, tail, (scanOverlapping n rest).
    rewrite <- Hr.
    split; [exact Hsplit|]. split; [exact Hbefore|]. split; [exact Hfrom|].
    split; [exact Hnext|].
    split; [apply scanOverlapping_first_sorted, Hrest|]. split; [exact Hov|].
    split; [exact Hchain|]. split; [exact Htail|].
    rewrite Hnon, Hscan. reflexivity.
Qed.

(** X4.  [minutesUntilNext] is [null] exactly when there is no
    [next]; otherwise it is never negative, it is 0 when [next]
    starts at or before [now], and it is within half a minute of the
    distance to the start of [next] when that lies ahead. *)
Theorem minutes_until_next_is_rounded_distance (occs : list Occurrence) (nowMs : Z)
    (nextDto : option Dto) (tz : string) :
  (minutesUntilNext (computeMetrics isoWithTimeZone Date_parse occs nowMs nextDto tz) = None
   <-> nextDto = None) /\
  (forall d, nextDto = Some d ->
     exists m,
       minutesUntilNext (computeMetrics isoWithTimeZone Date_parse occs nowMs nextDto tz)
         = Some m /\
       0 <= m /\
       (Date_parse (dto_start d) <= nowMs -> m = 0) /\
       (nowMs <= Date_parse (dto_start d) ->
        -30000 <= Date_parse (dto_start d) - nowMs - m * 60000 < 30000)).
Proof.
  split.
  - unfold computeMetrics. destruct nextDto; simpl; split; congruence.
  - intros d ->. unfold computeMetrics, roundMinutes. cbn [minutesUntilNext].
    remember (Date_parse (dto_start d) - nowMs) as x eqn:Hx.
    eexists. split; [reflexivity|].
    pose proof (Z.div_mod (x + 30000) 60000 ltac:(lia)) as Hdm.
    pose proof (Z.mod_pos_bound (x + 30000) 60000 ltac:(lia)) as Hmod.
    remember ((x + 30000) / 60000) as q eqn:Hq.
    remember ((x + 30000) mod 60000) as r eqn:Hr.
    split; [lia|]. split; intros Hcmp; lia.
Qed.
End TimelineExtras.

Lemma next_overlapping_overlaps_next_witness :
  exists l1 n l2 o l3,
    sampleTimeline = l1 ++ n :: l2 ++ o :: l3 /\
    next (computeNextTriple sampleIso sampleTimeline (9 * hourMs) "UTC")
      = toDtoWithTz sampleIso (Some n) "UTC" /\
    Some (sampleRender (occurrence "x" "Overlapping call"
                          (10 * hourMs + 30 * minuteMs) (11 * hourMs)))
      = toDtoWithTz sampleIso (Some o) "UTC" /\
    Overlap o n /\
    Forall (fun x => ~ Overlap x n) l2.
Proof.
  apply (next_overlapping_overlaps_next sampleIso sampleTimeline (9 * hourMs) "UTC").
  vm_compute. reflexivity.
Defined.

Lemma next_non_overlapping_witness :
  exists l1 n l2 o l3 ov,
    sampleTimeline = l1 ++ n :: l2 ++ o :: l3 /\
    next (computeNextTriple sampleIso sampleTimeline (9 * hourMs) "UTC")
      = toDtoWithTz sampleIso (Some n) "UTC" /\
    Some (sampleRender (occurrence "b" "PayPal Discussion"
                          (12 * hourMs + 30 * minuteMs) (13 * hourMs + 30 * minuteMs)))
      = toDtoWithTz sampleIso (Some o) "UTC" /\
    nextOverlapping (computeNextTriple sampleIso sampleTimeline (9 * hourMs) "UTC")
      = toDtoWithTz sampleIso ov "UTC" /\
    endMs n <= startMs o /\
    Forall (fun x => endMs x <= startMs o) l2 /\
    (forall v, ov = Some v -> endMs v <= startMs o).
Proof.
  apply (next_non_overlapping_starts_after_cluster sampleIso sampleTimeline
           (9 * hourMs) "UTC").
  vm_compute. reflexivity.
Defined.

Lemma sampleTimeline_sorted : StartSorted sampleTimeline.
Proof.
  unfold StartSorted, sampleTimeline.
  repeat (constructor; [|repeat constructor; vm_compute; discriminate]).
  constructor.
Qed.

Lemma sorted_list_justifies_the_breaks_witness :
  (Forall (fun o => startMs o
                    < searchFrom (find (coversNow (9 * hourMs)) sampleTimeline) (9 * hourMs))
          sampleTimeline /\
   next (computeNextTriple sampleIso sampleTimeline (9 * hourMs) "UTC") = None /\
   nextOverlapping (computeNextTriple sampleIso sampleTimeline (9 * hourMs) "UTC") = None /\
   nextNonOverlapping (computeNextTriple sampleIso sampleTimeline (9 * hourMs) "UTC") = None)
  \/
  exists l1 n cluster tail ov,
    sampleTimeline = l1 ++ n :: cluster ++ tail /\
    Forall (fun o => startMs o
                     < searchFrom (find (coversNow (9 * hourMs)) sampleTimeline) (9 * hourMs))
           l1 /\
    searchFrom (find (coversNow (9 * hourMs)) sampleTimeline) (9 * hourMs) <= startMs n /\
    next (computeNextTriple sampleIso sampleTimeline (9 * hourMs) "UTC")
      = toDtoWithTz sampleIso (Some n) "UTC" /\
    FirstWhere (fun o => Overlap o n) (cluster ++ tail) ov /\
    nextOverlapping (computeNextTriple sampleIso sampleTimeline (9 * hourMs) "UTC")
      = toDtoWithTz sampleIso ov "UTC" /\
    Chain (endMs n) cluster /\
    Forall (fun o => latestEnd (endMs n) cluster <= startMs o) tail /\
    nextNonOverlapping (computeNextTriple sampleIso sampleTimeline (9 * hourMs) "UTC")
      = toDtoWithTz sampleIso (head tail) "UTC".
Proof.
  apply (sorted_list_justifies_the_breaks sampleIso sampleTimeline (9 * hourMs) "UTC").
  exact sampleTimeline_sorted.
Defined.

(** ** What the expansion returns *)

Section ExpansionStructure.
Variable DEFAULT_DURATION_MIN : Z.
Variable icalIterator : VEvent -> nat -> option Z.

Lemma processCandidate_adds ev ws we uo st occMs :
  occs (processCandidate DEFAULT_DURATION_MIN ev ws we uo st occMs) = occs st \/
  exists o,
    occs (processCandidate DEFAULT_DURATION_MIN ev ws we uo st occMs) = occs st ++ [o] /\
    o = mkOcc DEFAULT_DURATION_MIN ev
          (default occMs ((uo ≫= fun m => JsMap.get m occMs) ≫= start))
          (uo ≫= fun m => JsMap.get m occMs) /\
    isExcluded occMs (exdate ev) = false /\
    overlapsWindow (startMs o) (endMs o) ws we = true /\
    isCancelledOcc o = false.
Proof.
  unfold processCandidate.
  destruct (isExcluded occMs (exdate ev)) eqn:Hex; [left; reflexivity|].
  set (override := uo ≫= fun m => JsMap.get m occMs).
  destruct (bool_decide _); [left; destruct override; reflexivity|].
  destruct (overlapsWindow _ _ _ _) eqn:Hov; [|left; destruct override; reflexivity].
  destruct (isCancelledOcc _) eqn:Hc; [left; destruct override; reflexivity|].
  right.
  exists (mkOcc DEFAULT_DURATION_MIN ev (default occMs (override ≫= start)) override).
  split; [destruct override; reflexivity|].
  split; [reflexivity|]. split; [reflexivity|]. split; [exact Hov | exact Hc].
Qed.

Lemma iterateRule_LoopBuilt ev ws we uo :
  forall fuel k st st',
    iterateRule DEFAULT_DURATION_MIN icalIterator fuel ev ws we uo k st = Some st' ->
    Forall (LoopBuilt DEFAULT_DURATION_MIN ev ws we uo) (occs st) ->
    Forall (LoopBuilt DEFAULT_DURATION_MIN ev ws we uo) (occs st').
Proof.
  induction fuel as [|fuel IH]; intros k st st'; simpl; [discriminate|].
  destruct (icalIterator ev k) as [occMs|]; [|intros [= <-]; trivial].
  destruct (occMs >=? we); [intros [= <-]; trivial|].
  intros Hrun Hst. eapply IH; [exact Hrun|].
  unfold loopBody. destruct (smartSkip ws occMs); [exact Hst|].
  destruct (processCandidate_adds ev ws we uo (countInstance st) occMs)
    as [->|(o & -> & Ho & Hex & Hov & Hc)]; [exact Hst|].
  apply Forall_app. split; [exact Hst|]. constructor; [|constructor].
  exists occMs. rewrite <- Ho. auto.
Qed.

Lemma standaloneOverride_adds ev ws we (m : OverrideMap) used acc entry :
  In entry m ->
  standaloneOverride DEFAULT_DURATION_MIN ev ws we used acc entry = acc \/
  exists o,
    standaloneOverride DEFAULT_DURATION_MIN ev ws we used acc entry = acc ++ [o] /\
    StandaloneBuilt DEFAULT_DURATION_MIN ev ws we (Some m) o.
Proof.
  intros Hin. destruct entry as [recIdMs ov]. unfold standaloneOverride.
  destruct (bool_decide (recIdMs ∈ used)); [left; reflexivity|].
  destruct (bool_decide (ev_status ov = Some "CANCELLED")) eqn:Hst; [left; reflexivity|].
  apply bool_decide_eq_false in Hst.
  destruct (start ov) as [s|] eqn:Hs; [|left; reflexivity].
  destruct (overlapsWindow _ _ _ _) eqn:Hov; [|left; reflexivity].
  destruct (startsWith _ _) eqn:Hc; [left; reflexivity|].
  right. eexists. split; [reflexivity|].
  exists recIdMs, ov, s. simpl.
  repeat split; try assumption; try reflexivity;
    destruct (end_ ov); first [reflexivity | exact Hov].
Qed.

Lemma fold_standalone_adds ev ws we (m : OverrideMap) used :
  forall (entries : list (Z * VEvent)) acc,
    (forall entry, In entry entries -> In entry m) ->
    exists extra,
      fold_left (standaloneOverride DEFAULT_DURATION_MIN ev ws we used) entries acc
        = acc ++ extra /\
      Forall (StandaloneBuilt DEFAULT_DURATION_MIN ev ws we (Some m)) extra.
Proof.
  induction entries as [|entry entries IH]; intros acc Hsub; simpl.
  - exists []. rewrite app_nil_r. split; [reflexivity | constructor].
  - assert (Hin : In entry m) by (apply Hsub; left; reflexivity).
    assert (Hsub' : forall e, In e entries -> In e m) by (intros e He; apply Hsub; right; exact He).
    destruct (standaloneOverride_adds ev ws we m used acc entry Hin) as [->|(o & -> & Ho)].
    + apply IH, Hsub'.
    + destruct (IH (acc ++ [o]) Hsub') as (extra & -> & Hextra).
      exists (o :: extra). rewrite <- app_assoc. split; [reflexivity|].
      constructor; assumption.
Qed.

(** The shape of every result: a timed recurring event returns what
    the loop pushed followed by what the pass over the unused
    overrides appended; every other event returns nothing or the one
    occurrence [mkOcc] builds at the event's own start. *)
Lemma expandOccurrencesInWindow_shape (fuel : nat) (ev : VEvent) (ws we : Z)
    (byUid : OverridesByUid) (out : list Occurrence) :
  expandOccurrencesInWindow DEFAULT_DURATION_MIN icalIterator fuel ev ws we byUid
    = Some out ->
  (rrule ev = None /\
   (out = [] \/
    exists s, datetype ev = DateTime /\ start ev = Some s /\
              out = [mkOcc DEFAULT_DURATION_MIN ev s None] /\
              overlapsWindow s (default (s + DEFAULT_DURATION_MIN * 60000) (end_ ev)) ws we
                = true /\
              isCancelledOcc (mkOcc DEFAULT_DURATION_MIN ev s None) = false))
  \/
  (rrule ev <> None /\
   exists pushed appended,
     out = pushed ++ appended /\
     Forall (LoopBuilt DEFAULT_DURATION_MIN ev ws we
               (JsMap.get byUid (jsOrStr (ev_uid ev) ""))) pushed /\
     Forall (StandaloneBuilt DEFAULT_DURATION_MIN ev ws we
               (JsMap.get byUid (jsOrStr (ev_uid ev) ""))) appended).
Proof.
  unfold expandOccurrencesInWindow.
  set (uo := JsMap.get byUid (jsOrStr (ev_uid ev) "")).
  destruct (rrule ev) as [rule|] eqn:Hrule.
  - intros Hout. right. split; [discriminate|].
    destruct (datetype ev);
      [injection Hout as <-; exists [], []; repeat split; constructor|].
    destruct (start ev) as [s|];
      [|injection Hout as <-; exists [], []; repeat split; constructor].
    destruct (iterateRule _ _ _ _ _ _ _ _ _) as [st|] eqn:Hrun; [|discriminate].
    injection Hout as <-.
    pose proof (iterateRule_LoopBuilt ev ws we uo _ _ _ _ Hrun ltac:(constructor)) as Hloop.
    unfold appendUnusedOverrides. destruct uo as [m|].
    + destruct (fold_standalone_adds ev ws we m (usedOverrides st) (JsMap.entries m)
                  (occs st) ltac:(auto)) as (extra & -> & Hextra).
      exists (occs st), extra. auto.
    + exists (occs st), []. rewrite app_nil_r. repeat split; [exact Hloop | constructor].
  - intros Hout. left. split; [reflexivity|].
    destruct (datetype ev) eqn:Hdt; [injection Hout as <-; left; reflexivity|].
    destruct (start ev) as [s|]; [|injection Hout as <-; left; reflexivity].
    destruct (overlapsWindow _ _ _ _) eqn:Hov; [|injection Hout as <-; left; reflexivity].
    destruct (isCancelledOcc _) eqn:Hc; injection Hout as <-; [left; reflexivity|].
    right. exists s. auto.
Qed.
End ExpansionStructure.

Section ExpansionExtras.
Variable DEFAULT_DURATION_MIN : Z.
Variable icalIterator : VEvent -> nat -> option Z.

Lemma overlapsWindow_true (s e ws we : Z) :
  overlapsWindow s e ws we = true <-> s < we /\ ws < e.
Proof. unfold overlapsWindow. rewrite andb_true_iff. lia. Qed.

Lemma isCancelledOcc_false (o : Occurrence) :
  isCancelledOcc o = false ->
  status o <> Some "CANCELLED" /\ startsWith (title o) "Canceled:" = false.
Proof.
  unfold isCancelledOcc. intros H. apply orb_false_iff in H. destruct H as [Hs Ht].
  apply bool_decide_eq_false in Hs. auto.
Qed.

(** X5.  Every occurrence the expansion returns starts before the
    window end, and every occurrence returned for a recurring event
    overlaps the window: it also ends after the window start. *)
Theorem expansion_stays_in_window (fuel : nat) (ev : VEvent) (ws we : Z)
    (byUid : OverridesByUid) (out : list Occurrence) :
  expandOccurrencesInWindow DEFAULT_DURATION_MIN icalIterator fuel ev ws we byUid
    = Some out ->
  Forall (fun o => startMs o < we) out /\
  (rrule ev <> None -> Forall (fun o => startMs o < we /\ ws < endMs o) out).
Proof.
  intros Hout.
  destruct (expandOccurrencesInWindow_shape _ _ _ _ _ _ _ _ Hout)
    as [[Hnone [->|(s & _ & _ & -> & Hov & _)]]|[Hsome (pushed & appended & -> & Hp & Ha)]].
  - split; [constructor | intros; constructor].
  - apply overlapsWindow_true in Hov. split; [|contradiction].
    constructor; [simpl; lia | constructor].
  - assert (Hall : Forall (fun o => startMs o < we /\ ws < endMs o) (pushed ++ appended)).
    { apply Forall_app. split.
      - eapply Forall_impl; [exact Hp|]. intros o (t & _ & _ & Hov & _).
        apply overlapsWindow_true, Hov.
      - eapply Forall_impl; [exact Ha|].
        intros o (r & ov & s & _ & _ & _ & _ & _ & _ & _ & Hov & _).
        apply overlapsWindow_true, Hov. }
    split; [|intros _; exact Hall].
    eapply Forall_impl; [exact Hall|]. intros o Ho. simpl in Ho. lia.
Qed.

(** X6.  No returned occurrence carries the status ["CANCELLED"] or
    a title that starts with ["Canceled:"]. *)
Theorem cancelled_occurrences_are_never_returned (fuel : nat) (ev : VEvent) (ws we : Z)
    (byUid : OverridesByUid) (out : list Occurrence) :
  expandOccurrencesInWindow DEFAULT_DURATION_MIN icalIterator fuel ev ws we byUid
    = Some out ->
  Forall (fun o => status o <> Some "CANCELLED" /\
                   startsWith (title o) "Canceled:" = false) out.
Proof.
  intros Hout.
  destruct (expandOccurrencesInWindow_shape _ _ _ _ _ _ _ _ Hout)
    as [[Hnone [->|(s & _ & _ & -> & _ & Hc)]]|[Hsome (pushed & appended & -> & Hp & Ha)]].
  - constructor.
  - constructor; [apply isCancelledOcc_false, Hc | constructor].
  - apply Forall_app. split.
    + eapply Forall_impl; [exact Hp|]. intros o (t & _ & _ & _ & Hc).
      apply isCancelledOcc_false, Hc.
    + eapply Forall_impl; [exact Ha|].
      intros o (r & ov & s & _ & _ & _ & _ & _ & _ & Hst & _ & Ht).
      rewrite Hst. split; [discriminate | exact Ht].
Qed.

(** X7.  With a positive default duration, if every override of the
    uid that has both a start and an end ends after it starts, then
    every returned occurrence ends after it starts. *)
Theorem expansion_ends_after_start (fuel : nat) (ev : VEvent) (ws we : Z)
    (byUid : OverridesByUid) (out : list Occurrence) :
  0 < DEFAULT_DURATION_MIN ->
  Forall (fun entry => forall s e,
            start (snd entry) = Some s -> end_ (snd entry) = Some e -> s < e)
         (default [] (JsMap.get byUid (jsOrStr (ev_uid ev) ""))) ->
  expandOccurrencesInWindow DEFAULT_DURATION_MIN icalIterator fuel ev ws we byUid
    = Some out ->
  Forall (fun o => startMs o < endMs o) out.
Proof.
  intros Hpos Hwf Hout.
  destruct (expandOccurrencesInWindow_shape _ _ _ _ _ _ _ _ Hout)
    as [[Hnone [->|(s & _ & _ & -> & _ & _)]]|[Hsome (pushed & appended & -> & Hp & Ha)]].
  - constructor.
  - constructor; [apply mkOcc_end_after_start, Hpos | constructor].
  - apply Forall_app. split.
    + eapply Forall_impl; [exact Hp|]. intros o (t & -> & _).
      apply mkOcc_end_after_start, Hpos.
    + eapply Forall_impl; [exact Ha|].
      intros o (r & ov & s & Hin & Hs & _ & _ & -> & -> & _).
      rewrite List.Forall_forall in Hwf. specialize (Hwf _ Hin s). simpl in Hwf.
      destruct (end_ ov) as [e|]; simpl; [apply Hwf; auto | lia].
Qed.

(** X8.  A non-recurring event is expanded without the iterator and
    without its uid's overrides: the result is the same for every
    fuel and every override map, and holds at most one occurrence,
    which starts at the event's own start. *)
Theorem non_recurring_event_ignores_overrides (fuel : nat) (ev : VEvent) (ws we : Z)
    (byUid : OverridesByUid) :
  rrule ev = None ->
  expandOccurrencesInWindow DEFAULT_DURATION_MIN icalIterator fuel ev ws we byUid
  = expandOccurrencesInWindow DEFAULT_DURATION_MIN icalIterator 0 ev ws we [] /\
  exists out,
    expandOccurrencesInWindow DEFAULT_DURATION_MIN icalIterator fuel ev ws we byUid
      = Some out /\
    (out = [] \/ exists o, out = [o] /\ start ev = Some (startMs o)).
Proof.
  intros Hnone. unfold expandOccurrencesInWindow. rewrite Hnone.
  split; [reflexivity|].
  destruct (datetype ev); [eauto|].
  destruct (start ev) as [s|]; [|eauto].
  destruct (overlapsWindow _ _ _ _); [|eauto].
  destruct (isCancelledOcc _); [eauto|].
  eexists. split; [reflexivity|]. right. eexists. split; reflexivity.
Qed.

(** X9.  A non-recurring timed event whose own end lies a week or
    more after its start, and which overlaps the window by those two
    instants, is returned lasting the default duration from its
    start (unless it is cancelled): the window test reads the event's
    end, the occurrence gets the end [calcEndMs] computes. *)
Theorem week_long_single_event_is_cut_to_default (fuel : nat) (ev : VEvent)
    (s e ws we : Z) (byUid : OverridesByUid) :
  rrule ev = None -> datetype ev = DateTime ->
  start ev = Some s -> end_ ev = Some e -> weekMs <= e - s ->
  s < we -> ws < e ->
  isCancelledOcc (mkOcc DEFAULT_DURATION_MIN ev s None) = false ->
  exists o,
    expandOccurrencesInWindow DEFAULT_DURATION_MIN icalIterator fuel ev ws we byUid
      = Some [o] /\
    startMs o = s /\ endMs o = s + DEFAULT_DURATION_MIN * 60000.
Proof.
  intros Hrule Hdt Hs He Hlong Hsw Hwe Hc.
  unfold expandOccurrencesInWindow. rewrite Hrule, Hdt, Hs, He. simpl.
  assert (Hov : overlapsWindow s e ws we = true) by (apply overlapsWindow_true; lia).
  rewrite Hov, Hc. eexists. split; [reflexivity|]. split; [reflexivity|].
  simpl. rewrite calcEndMs_no_override.
  rewrite (calcDurationMsFromEvent_malformed DEFAULT_DURATION_MIN ev s e Hs He); lia.
Qed.
End ExpansionExtras.

Lemma expansion_stays_in_window_witness :
  Forall (fun o => startMs o < dayMs 83)
    [occurrence "triage" "Daily Bug Triage"
       (dayMs 82 + 11 * hourMs) (dayMs 82 + 11 * hourMs + 15 * minuteMs)] /\
  (rrule sampleTriage <> None ->
   Forall (fun o => startMs o < dayMs 83 /\ dayMs 80 < endMs o)
     [occurrence "triage" "Daily Bug Triage"
        (dayMs 82 + 11 * hourMs) (dayMs 82 + 11 * hourMs + 15 * minuteMs)]).
Proof.
  apply (expansion_stays_in_window 60 sampleIterator 100 sampleTriage (dayMs 80) (dayMs 83)
           [("triage", [(dayMs 80 + 11 * hourMs, sampleCancelled);
                        (dayMs 81 + 11 * hourMs, sampleCanceledTitle)])]).
  vm_compute. reflexivity.
Defined.

Lemma cancelled_occurrences_witness :
  Forall (fun o => status o <> Some "CANCELLED" /\
                   startsWith (title o) "Canceled:" = false)
    [occurrence "triage" "Daily Bug Triage"
       (dayMs 82 + 11 * hourMs) (dayMs 82 + 11 * hourMs + 15 * minuteMs)].
Proof.
  apply (cancelled_occurrences_are_never_returned 60 sampleIterator 100 sampleTriage
           (dayMs 80) (dayMs 83)
           [("triage", [(dayMs 80 + 11 * hourMs, sampleCancelled);
                        (dayMs 81 + 11 * hourMs, sampleCanceledTitle)])]).
  vm_compute. reflexivity.
Defined.

Lemma expansion_ends_after_start_witness :
  Forall (fun o => startMs o < endMs o)
    [occurrence "triage" "Daily Bug Triage (moved)"
       (dayMs 80 + 13 * hourMs) (dayMs 80 + 13 * hourMs + 30 * minuteMs)].
Proof.
  apply (expansion_ends_after_start 60 sampleIterator 100 sampleTriage (dayMs 80) (dayMs 81)
           [("triage", [(dayMs 80 + 11 * hourMs, sampleMoved)])]).
  - lia.
  - repeat constructor. intros s e [= <-] [= <-]. vm_compute. reflexivity.
  - vm_compute. reflexivity.
Defined.

Lemma non_recurring_event_ignores_overrides_witness :
  expandOccurrencesInWindow 60 sampleIterator 100 sampleSingle (dayMs 80) (dayMs 81)
    [("single", [(dayMs 80 + 14 * hourMs, sampleSingleOverride)])]
  = expandOccurrencesInWindow 60 sampleIterator 0 sampleSingle (dayMs 80) (dayMs 81) [] /\
  exists out,
    expandOccurrencesInWindow 60 sampleIterator 100 sampleSingle (dayMs 80) (dayMs 81)
      [("single", [(dayMs 80 + 14 * hourMs, sampleSingleOverride)])]
      = Some out /\
    (out = [] \/ exists o, out = [o] /\ start sampleSingle = Some (startMs o)).
Proof.
  apply (non_recurring_event_ignores_overrides 60 sampleIterator 100 sampleSingle).
  reflexivity.
Defined.

Lemma week_long_single_event_witness :
  exists o,
    expandOccurrencesInWindow 60 sampleIterator 0 sampleEightDays (dayMs 80) (dayMs 81) []
      = Some [o] /\
    startMs o = dayMs 78 /\ endMs o = dayMs 78 + 60 * 60000.
Proof.
  apply (week_long_single_event_is_cut_to_default 60 sampleIterator 0 sampleEightDays
           (dayMs 78) (dayMs 86) (dayMs 80) (dayMs 81) []);
    try reflexivity; vm_compute; first [reflexivity | discriminate].
Defined.

(** ** Insertion-ordered maps, continued *)

Lemma JsMap_get_set_eq {K V} `{EqDecision K} (m : list (K * V)) (k : K) (v : V) :
  JsMap.get (JsMap.set m k v) k = Some v.
Proof.
  induction m as [|[k' v'] m IH]; simpl.
  - destruct (decide (k = k)); [reflexivity | contradiction].
  - destruct (decide (k' = k)) as [->|Hne]; simpl.
    + destruct (decide (k = k)); [reflexivity | contradiction].
    + destruct (decide (k' = k)); [contradiction | exact IH].
Qed.

Lemma JsMap_get_set_ne {K V} `{EqDecision K} (m : list (K * V)) (k k' : K) (v : V) :
  k <> k' -> JsMap.get (JsMap.set m k v) k' = JsMap.get m k'.
Proof.
  intros Hne. induction m as [|[k0 v0] m IH]; simpl.
  - destruct (decide (k = k')); [contradiction | reflexivity].
  - destruct (decide (k0 = k)) as [->|Hk0]; simpl.
    + destruct (decide (k = k')); [contradiction | reflexivity].
    + destruct (decide (k0 = k')); [reflexivity | exact IH].
Qed.

Lemma JsMap_In_set {K V} `{EqDecision K} (m : list (K * V)) (k k' : K) (v v' : V) :
  In (k', v') (JsMap.set m k v) -> (k', v') = (k, v) \/ In (k', v') m.
Proof.
  induction m as [|[k0 v0] m IH]; simpl.
  - intros [H|[]]. left. congruence.
  - destruct (decide (k0 = k)) as [->|Hk0]; simpl.
    + intros [H|H]; [left; congruence | right; right; exact H].
    + intros [H|H]; [right; left; exact H|].
      destruct (IH H) as [Heq|Hin]; [left; exact Heq | right; right; exact Hin].
Qed.

Lemma JsMap_In_get {K V} `{EqDecision K} (m : list (K * V)) (k : K) (v : V) :
  In (k, v) m -> is_Some (JsMap.get m k).
Proof.
  induction m as [|[k0 v0] m IH]; simpl; [intros []|].
  destruct (decide (k0 = k)); [eauto|].
  intros [H|H]; [congruence | apply IH, H].
Qed.

(** ** OverrideResolver *)

Lemma separateStep_masters (acc : list VEvent * OverridesByUid) (ev : VEvent) :
  fst (separateStep acc ev) = fst acc ++ (if isMasterEvent ev then [ev] else []).
Proof.
  destruct acc as [ms b]. unfold separateStep, isMasterEvent. simpl.
  destruct (ev_uid ev) as [u|]; simpl; [|rewrite app_nil_r; reflexivity].
  destruct (String.eqb u ""); simpl; [rewrite app_nil_r; reflexivity|].
  destruct (recurrenceId ev) as [r|]; simpl.
  - rewrite app_nil_r. reflexivity.
  - reflexivity.
Qed.

Lemma separate_fold_masters (events : list VEvent) :
  forall acc,
    fst (fold_left separateStep events acc) = fst acc ++ List.filter isMasterEvent events.
Proof.
  induction events as [|ev events IH]; intros acc; simpl.
  - rewrite app_nil_r. reflexivity.
  - rewrite IH, separateStep_masters.
    destruct (isMasterEvent ev); simpl.
    + rewrite <- app_assoc. reflexivity.
    + rewrite app_nil_r. reflexivity.
Qed.

Lemma masterUids_step (acc : gset string) (ev : VEvent) (u : string) :
  u ∈ match ev_uid ev with
      | Some u0 =>
          if truthy (Some u0) && negb (bool_decide (is_Some (recurrenceId ev)))
          then {[ u0 ]} ∪ acc else acc
      | None => acc
      end
  <-> u ∈ acc \/ (isMasterEvent ev = true /\ ev_uid ev = Some u).
Proof.
  unfold isMasterEvent. destruct (ev_uid ev) as [u0|].
  - destruct (truthy (Some u0) && negb (bool_decide (is_Some (recurrenceId ev)))) eqn:Hm.
    + rewrite elem_of_union, elem_of_singleton. split.
      * intros [->|Hacc]; auto.
      * intros [Hacc|[_ [= ->]]]; auto.
    + split; [auto|]. intros [Hacc|[Hf _]]; [exact Hacc | discriminate].
  - split; [auto|]. intros [Hacc|[Hf _]]; [exact Hacc | discriminate].
Qed.

Lemma collectMasterUids_fold (events : list VEvent) :
  forall (acc : gset string) (u : string),
    u ∈ fold_left
          (fun acc ev =>
             match ev_uid ev with
             | Some u =>
                 if truthy (Some u) && negb (bool_decide (is_Some (recurrenceId ev)))
                 then {[ u ]} ∪ acc else acc
             | None => acc
             end) events acc
    <-> u ∈ acc \/ exists ev, In ev events /\ isMasterEvent ev = true /\ ev_uid ev = Some u.
Proof.
  induction events as [|ev events IH]; intros acc u; cbn [fold_left].
  - split; [auto | intros [H|(ev & [] & _)]; exact H].
  - rewrite IH, masterUids_step. split.
    + intros [[Hacc|[Hm Hu]]|(ev' & Hin & Hm & Hu)].
      * auto.
      * right. exists ev. split; [left; reflexivity | auto].
      * right. exists ev'. split; [right; exact Hin | auto].
    + intros [Hacc|(ev' & [<-|Hin] & Hm & Hu)].
      * auto.
      * auto.
      * right. exists ev'. auto.
Qed.

Lemma lookupOverride_step (ms : list VEvent) (b : OverridesByUid) (ev : VEvent)
    (u : string) (r : Z) :
  lookupOverride (snd (separateStep (ms, b) ev)) u r
  = if isOverrideOf u r ev then Some ev else lookupOverride b u r.
Proof.
  unfold isOverrideOf, lookupOverride, separateStep.
  destruct (ev_uid ev) as [u0|] eqn:Hu0.
  2: { rewrite bool_decide_eq_false_2 by discriminate. reflexivity. }
  destruct (truthy (Some u0)) eqn:Ht0; cbn [negb snd].
  2: { destruct (bool_decide (Some u0 = Some u)) eqn:Hd; [|reflexivity].
       apply bool_decide_eq_true in Hd. injection Hd as ->. rewrite Ht0. reflexivity. }
  destruct (recurrenceId ev) as [rid|] eqn:Hrid; cbn [snd].
  2: { rewrite (bool_decide_eq_false_2 (None = Some r)) by discriminate.
       rewrite andb_false_r. reflexivity. }
  destruct (decide (u0 = u)) as [->|Hu].
  - rewrite JsMap_get_set_eq. cbn [mbind option_bind].
    rewrite (bool_decide_eq_true_2 (Some u = Some u)) by reflexivity.
    rewrite Ht0. cbn [andb].
    destruct (decide (rid = r)) as [->|Hr].
    + rewrite JsMap_get_set_eq, bool_decide_eq_true_2 by reflexivity. reflexivity.
    + rewrite JsMap_get_set_ne by exact Hr.
      rewrite bool_decide_eq_false_2 by congruence.
      destruct (JsMap.get b u); reflexivity.
  - rewrite JsMap_get_set_ne by exact Hu.
    rewrite (bool_decide_eq_false_2 (Some u0 = Some u)) by congruence. reflexivity.
Qed.

Lemma lookupOverride_fold (events : list VEvent) (u : string) (r : Z) :
  forall ms b,
    lookupOverride (snd (fold_left separateStep events (ms, b))) u r
    = match last (List.filter (isOverrideOf u r) events) with
      | Some ev => Some ev
      | None => lookupOverride b u r
      end.
Proof.
  induction events as [|ev events IH]; intros ms b; cbn [fold_left List.filter];
    [reflexivity|].
  destruct (separateStep (ms, b) ev) as [ms' b'] eqn:Hstep.
  rewrite IH.
  assert (Hb' : lookupOverride b' u r
                = if isOverrideOf u r ev then Some ev else lookupOverride b u r).
  { rewrite <- lookupOverride_step with (ms := ms). rewrite Hstep. reflexivity. }
  destruct (isOverrideOf u r ev); [|rewrite Hb'; reflexivity].
  rewrite last_cons. destruct (last (List.filter (isOverrideOf u r) events));
    [reflexivity | exact Hb'].
Qed.

Lemma separateMasterAndOverrides_masters (events : list VEvent) :
  masterEvents (separateMasterAndOverrides events) = List.filter isMasterEvent events /\
  (forall u, u ∈ masterUids (separateMasterAndOverrides events) <->
             exists ev, In ev (masterEvents (separateMasterAndOverrides events)) /\
                        ev_uid ev = Some u).
Proof.
  unfold separateMasterAndOverrides.
  pose proof (separate_fold_masters events ([], [])) as Hm.
  destruct (fold_left separateStep events ([], [])) as [ms b]. simpl in *.
  split; [exact Hm|].
  intros u. unfold collectMasterUids. rewrite collectMasterUids_fold, Hm. split.
  - intros [Hempty|(ev & Hin & Hmaster & Hu)]; [set_solver|].
    exists ev. split; [apply filter_In; auto | exact Hu].
  - intros (ev & Hin & Hu). apply filter_In in Hin. right. exists ev. tauto.
Qed.

(** X10.  The masters are the events that have a uid and no
    recurrence id, in the order parsed; [masterUids] holds exactly
    their uids. *)
Theorem masters_are_events_without_recurrence_id (events : list VEvent) :
  masterEvents (separateMasterAndOverrides events) = List.filter isMasterEvent events /\
  (forall u, u ∈ masterUids (separateMasterAndOverrides events) <->
             exists ev, In ev (masterEvents (separateMasterAndOverrides events)) /\
                        ev_uid ev = Some u).
Proof. apply separateMasterAndOverrides_masters. Qed.

Lemma lookupOverride_separated (events : list VEvent) (u : string) (r : Z) :
  lookupOverride (overridesByUid (separateMasterAndOverrides events)) u r
  = last (List.filter (isOverrideOf u r) events).
Proof.
  unfold separateMasterAndOverrides.
  pose proof (lookupOverride_fold events u r [] []) as Hl.
  destruct (fold_left separateStep events ([], [])) as [ms b]. simpl in *.
  rewrite Hl. destruct (last _); reflexivity.
Qed.

(** X11.  Looking up uid [u] and instant [r] in the override maps
    gives the last event parsed with that uid and that recurrence id,
    and nothing when there is none. *)
Theorem override_lookup_is_last_parsed (events : list VEvent) (u : string) (r : Z) :
  lookupOverride (overridesByUid (separateMasterAndOverrides events)) u r
  = last (List.filter (isOverrideOf u r) events).
Proof. apply lookupOverride_separated. Qed.

(** ** The handler's sort *)

Lemma insertByStart_perm (o : Occurrence) (l : list Occurrence) :
  insertByStart o l ≡ₚ o :: l.
Proof.
  induction l as [|x l IH]; simpl; [reflexivity|].
  destruct (startMs o <? startMs x); [reflexivity|].
  rewrite IH. apply perm_swap.
Qed.

Lemma insertByStart_sorted (o : Occurrence) (l : list Occurrence) :
  StartSorted l -> StartSorted (insertByStart o l).
Proof.
  unfold StartSorted. induction 1 as [|x l Hl IH Hx]; simpl.
  - repeat constructor.
  - destruct (Z.ltb_spec (startMs o) (startMs x)).
    + constructor; [constructor; assumption|].
      constructor; [lia|]. eapply Forall_impl; [exact Hx|]. intros y Hy. simpl in Hy. lia.
    + constructor; [exact IH|].
      rewrite (insertByStart_perm o l). constructor; [lia | exact Hx].
Qed.

Lemma insertByStart_stable (k : Z) (o : Occurrence) (l : list Occurrence) :
  StartSorted l ->
  List.filter (fun x => startMs x =? k) (insertByStart o l)
  = List.filter (fun x => startMs x =? k) l ++ (if startMs o =? k then [o] else []).
Proof.
  unfold StartSorted. induction 1 as [|x l Hl IH Hx]; simpl.
  - destruct (startMs o =? k); reflexivity.
  - destruct (Z.ltb_spec (startMs o) (startMs x)) as [Hlt|Hge]; simpl.
    + destruct (Z.eqb_spec (startMs o) k) as [Hk|Hk].
      * assert (Hnone : List.filter (fun y => startMs y =? k) l = []).
        { clear - Hx Hlt Hk. induction Hx as [|y l Hy _ IH]; simpl; [reflexivity|].
          destruct (Z.eqb_spec (startMs y) k); [lia | exact IH]. }
        destruct (Z.eqb_spec (startMs x) k); [lia|]. rewrite Hnone. reflexivity.
      * rewrite app_nil_r. reflexivity.
    + rewrite IH. destruct (startMs x =? k); reflexivity.
Qed.

Lemma sortByStart_fold (l : list Occurrence) :
  forall acc,
    StartSorted acc ->
    StartSorted (fold_left (fun acc o => insertByStart o acc) l acc) /\
    fold_left (fun acc o => insertByStart o acc) l acc ≡ₚ acc ++ l /\
    (forall k,
       List.filter (fun x => startMs x =? k)
         (fold_left (fun acc o => insertByStart o acc) l acc)
       = List.filter (fun x => startMs x =? k) acc
         ++ List.filter (fun x => startMs x =? k) l).
Proof.
  induction l as [|o l IH]; intros acc Hacc; simpl.
  - split; [exact Hacc|]. split; [rewrite app_nil_r; reflexivity|].
    intros k. rewrite app_nil_r. reflexivity.
  - destruct (IH (insertByStart o acc) (insertByStart_sorted o acc Hacc))
      as (Hs & Hp & Hk).
    split; [exact Hs|]. split.
    + rewrite Hp, (insertByStart_perm o acc).
      change (o :: acc) with ([o] ++ acc).
      rewrite (Permutation_app_comm [o] acc), <- app_assoc. reflexivity.
    + intros k. rewrite Hk, (insertByStart_stable k o acc Hacc), <- app_assoc.
      destruct (startMs o =? k); reflexivity.
Qed.

(** X12.  The handler's sort returns the same occurrences in
    ascending order of start, and keeps occurrences with the same
    start in the order they had. *)
Theorem sort_is_ascending_and_stable (l : list Occurrence) :
  StartSorted (sortByStart l) /\
  sortByStart l ≡ₚ l /\
  (forall k, List.filter (fun x => startMs x =? k) (sortByStart l)
             = List.filter (fun x => startMs x =? k) l).
Proof.
  destruct (sortByStart_fold l [] ltac:(constructor)) as (Hs & Hp & Hk).
  split; [exact Hs|]. split; [exact Hp|]. exact Hk.
Qed.

(** ** The handler's occurrence list *)

Lemma separateStep_entries (events : list VEvent) (acc : list VEvent * OverridesByUid)
    (ev : VEvent) :
  In ev events -> EntriesFromEvents events (snd acc) ->
  EntriesFromEvents events (snd (separateStep acc ev)).
Proof.
  intros Hev Hacc. destruct acc as [ms b]. unfold separateStep.
  destruct (ev_uid ev) as [u0|] eqn:Hu0; [|exact Hacc].
  destruct (negb (truthy (Some u0))); [exact Hacc|].
  destruct (recurrenceId ev) as [rid|] eqn:Hrid; [|exact Hacc].
  cbn [snd] in *. intros u m r ov Hum Hrov.
  apply JsMap_In_set in Hum. destruct Hum as [[= -> ->]|Hum]; [|eapply Hacc; eassumption].
  apply JsMap_In_set in Hrov. destruct Hrov as [[= -> ->]|Hrov]; [auto|].
  destruct (JsMap.get b u0) as [inner|] eqn:Hget; [|destruct Hrov].
  apply JsMap_get_In in Hget. eapply Hacc; eassumption.
Qed.

Lemma separate_entries_from_events (events : list VEvent) :
  EntriesFromEvents events (overridesByUid (separateMasterAndOverrides events)).
Proof.
  unfold separateMasterAndOverrides.
  assert (Hfold : forall evs acc,
            (forall ev, In ev evs -> In ev events) ->
            EntriesFromEvents events (snd acc) ->
            EntriesFromEvents events (snd (fold_left separateStep evs acc))).
  { induction evs as [|ev evs IH]; intros acc Hsub Hacc; cbn [fold_left]; [exact Hacc|].
    apply IH; [intros e He; apply Hsub; right; exact He|].
    apply separateStep_entries; [apply Hsub; left; reflexivity | exact Hacc]. }
  specialize (Hfold events ([], []) ltac:(auto)).
  destruct (fold_left separateStep events ([], [])) as [ms b]. cbn [snd overridesByUid] in *.
  apply Hfold. intros u m r ov [].
Qed.

Section HandlerExtras.
Variable DEFAULT_DURATION_MIN : Z.
Variable icalIterator : VEvent -> nat -> option Z.

Lemma orphanedOverride_adds (s e : Z) (acc : list Occurrence) (r : Z) (ov : VEvent) :
  (orphanedOverride DEFAULT_DURATION_MIN s e acc (r, ov) = acc /\
   (ev_status ov = Some "CANCELLED" \/ start ov = None \/
    exists t, start ov = Some t /\ ~ (s <= t < e)))
  \/
  exists o,
    orphanedOverride DEFAULT_DURATION_MIN s e acc (r, ov) = acc ++ [o] /\
    ev_status ov <> Some "CANCELLED" /\
    uid o = ev_uid ov /\
    start ov = Some (startMs o) /\
    s <= startMs o < e /\
    endMs o = default (startMs o + DEFAULT_DURATION_MIN * 60000) (end_ ov) /\
    status o = None.
Proof.
  unfold orphanedOverride.
  destruct (bool_decide (ev_status ov = Some "CANCELLED")) eqn:Hst.
  - left. apply bool_decide_eq_true in Hst. auto.
  - apply bool_decide_eq_false in Hst.
    destruct (start ov) as [t|] eqn:Ht; [|left; auto].
    destruct (Z.geb_spec t s) as [Hge|Hlt]; cbn [andb].
    + destruct (Z.ltb_spec t e) as [Hin|Hout].
      * right. eexists. split; [reflexivity|]. cbn.
        repeat split; try assumption; try lia; try (destruct (end_ ov); reflexivity).
      * left. split; [reflexivity|]. right. right. exists t. split; [reflexivity | lia].
    + left. split; [reflexivity|]. right. right. exists t. split; [reflexivity | lia].
Qed.

Lemma fold_orphanedOverride_sound (events : list VEvent) (s e : Z) (u : string) :
  (forall m, In m events -> isMasterEvent m = true -> ev_uid m <> Some u) ->
  forall (entries : list (Z * VEvent)) acc,
    (forall r ov, In (r, ov) entries ->
       In ov events /\ ev_uid ov = Some u /\ recurrenceId ov = Some r) ->
    exists added,
      fold_left (orphanedOverride DEFAULT_DURATION_MIN s e) entries acc = acc ++ added /\
      Forall (OrphanBuilt DEFAULT_DURATION_MIN events s e) added.
Proof.
  intros Hnomaster. induction entries as [|[r ov] entries IH]; intros acc Hgood; cbn [fold_left].
  - exists []. rewrite app_nil_r. split; [reflexivity | constructor].
  - assert (Hgood' : forall r' ov', In (r', ov') entries ->
              In ov' events /\ ev_uid ov' = Some u /\ recurrenceId ov' = Some r')
      by (intros r' ov' H; apply Hgood; right; exact H).
    destruct (orphanedOverride_adds s e acc r ov)
      as [[-> _]|(o & -> & Hst & Huid & Hstart & Hwin & Hend & Hstatus)].
    + apply IH, Hgood'.
    + destruct (IH (acc ++ [o]) Hgood') as (added & -> & Hadded).
      exists (o :: added). rewrite <- app_assoc. split; [reflexivity|].
      constructor; [|exact Hadded].
      destruct (Hgood r ov ltac:(left; reflexivity)) as (Hin & Hu & Hr).
      exists ov, u. rewrite Hr. repeat split; eauto; try lia; congruence.
Qed.

Lemma orphanedOverrides_sound (events : list VEvent)
    (s e : Z) (acc : list Occurrence) :
  exists added,
    orphanedOverrides DEFAULT_DURATION_MIN (separateMasterAndOverrides events) s e acc
      = acc ++ added /\
    Forall (OrphanBuilt DEFAULT_DURATION_MIN events s e) added.
Proof.
  pose proof (separate_entries_from_events events) as Hentries.
  destruct (separateMasterAndOverrides_masters events) as [Hmasters Huids].
  unfold orphanedOverrides, JsMap.entries.
  set (sep := separateMasterAndOverrides events) in *.
  assert (Hsub : forall u m, In (u, m) (overridesByUid sep) -> In (u, m) (overridesByUid sep))
    by auto.
  revert acc Hsub. generalize (overridesByUid sep) at 1 3 as entries.
  induction entries as [|[u m] entries IH]; intros acc Hsub; cbn [fold_left].
  - exists []. rewrite app_nil_r. split; [reflexivity | constructor].
  - assert (Hsub' : forall u' m', In (u', m') entries -> In (u', m') (overridesByUid sep))
      by (intros u' m' H; apply Hsub; right; exact H).
    destruct (bool_decide (u ∈ masterUids sep)) eqn:Hmaster; [apply IH, Hsub'|].
    apply bool_decide_eq_false in Hmaster.
    destruct (fold_orphanedOverride_sound events s e u) with (entries := m) (acc := acc)
      as (added1 & -> & Hadded1).
    + intros mev Hin Hm Hu. apply Hmaster, Huids. exists mev.
      split; [|exact Hu]. rewrite Hmasters. apply filter_In. auto.
    + intros r ov Hrov. eapply Hentries; [apply Hsub; left; reflexivity | exact Hrov].
    + destruct (IH (acc ++ added1) Hsub') as (added2 & -> & Hadded2).
      exists (added1 ++ added2). rewrite app_assoc. split; [reflexivity|].
      apply Forall_app. auto.
Qed.

(** X13.  The pass over the orphaned overrides only appends, and
    every occurrence it appends comes from a parsed override that is
    not cancelled, whose uid no master has, and whose own start lies
    in the window; the occurrence starts there and ends at the
    override's end, or after the default duration when it has none. *)
Theorem orphan_pass_surfaces_only_masterless_overrides (events : list VEvent)
    (s e : Z) (acc : list Occurrence) :
  exists added,
    orphanedOverrides DEFAULT_DURATION_MIN (separateMasterAndOverrides events) s e acc
      = acc ++ added /\
    Forall (OrphanBuilt DEFAULT_DURATION_MIN events s e) added.
Proof. apply orphanedOverrides_sound. Qed.
End HandlerExtras.


Section HandlerList.
Variable DEFAULT_DURATION_MIN : Z.
Variable icalIterator : VEvent -> nat -> option Z.







Lemma expandMasters_adds (fuel : nat) (s e nowMs : Z) (byUid : OverridesByUid)
    (masters : list VEvent) :
  forall acc occs,
    expandMasters DEFAULT_DURATION_MIN icalIterator fuel masters s e nowMs byUid acc
      = Some occs ->
    exists added,
      occs = acc ++ added /\
      Forall (fun o =>
                (exists ev out,
                   In ev masters /\
                   expandOccurrencesInWindow DEFAULT_DURATION_MIN icalIterator
                     fuel ev s e byUid = Some out /\
                   In o out) /\
                startMs o < e /\ nowMs < endMs o) added.
Proof.
  induction masters as [|ev masters IH]; intros acc occs; cbn [expandMasters].
  - intros [= <-]. exists []. rewrite app_nil_r. split; [reflexivity | constructor].
  - destruct (expandOccurrencesInWindow _ _ _ _ _ _ _) as [expanded|] eqn:Hexp; [|discriminate].
    intros Hrest. destruct (IH _ _ Hrest) as (added & -> & Hadded).
    eexists. rewrite <- app_assoc. split; [reflexivity|].
    apply Forall_app. split.
    + apply List.Forall_forall. intros o Ho. apply list_elem_of_In in Ho.
      apply list_elem_of_filter in Ho. destruct Ho as [Hp Ho].
      apply list_elem_of_In in Ho.
      apply andb_true_iff in Hp. destruct Hp as [H1 H2].
      apply Z.ltb_lt in H1. apply Z.gtb_lt in H2.
      split; [|lia]. exists ev, expanded. split; [left; reflexivity | auto].
    + eapply Forall_impl; [exact Hadded|].
      intros o ((ev' & out & Hin & Hout & Ho) & Hb). split; [|exact Hb].
      exists ev', out. split; [right; exact Hin | auto].
Qed.

Lemma expansion_carries_the_event_uid (events : list VEvent) (fuel : nat) (ev : VEvent)
    (s e : Z) (byUid : OverridesByUid) (out : list Occurrence) (o : Occurrence) :
  EntriesFromEvents events byUid ->
  truthy (ev_uid ev) = true ->
  expandOccurrencesInWindow DEFAULT_DURATION_MIN icalIterator fuel ev s e byUid = Some out ->
  In o out ->
  datetype ev = DateTime /\ is_Some (start ev) /\ uid o = ev_uid ev.
Proof.
  intros Hentries Htruthy Hout Ho.
  assert (Hshape : datetype ev = DateTime /\ is_Some (start ev)).
  { unfold expandOccurrencesInWindow in Hout.
    destruct (datetype ev); [injection Hout as <-; destruct Ho|].
    destruct (start ev); [eauto | injection Hout as <-; destruct Ho]. }
  destruct Hshape as [Hdt Hstart]. split; [exact Hdt|]. split; [exact Hstart|].
  assert (Hmk : forall t ov, uid (mkOcc DEFAULT_DURATION_MIN ev t ov) = ev_uid ev).
  { intros t ov. cbn [mkOcc uid]. unfold truthy in Htruthy.
    destruct (ev_uid ev) as [u|]; [|discriminate]. cbn [jsOrStr].
    destruct (String.eqb u ""); [discriminate | reflexivity]. }
  destruct (expandOccurrencesInWindow_shape _ _ _ _ _ _ _ _ Hout)
    as [[_ [->|(t & _ & _ & -> & _)]]|[_ (pushed & appended & -> & Hp & Ha)]].
  - destruct Ho.
  - destruct Ho as [<-|[]]. apply Hmk.
  - apply in_app_or in Ho. destruct Ho as [Ho|Ho].
    + rewrite List.Forall_forall in Hp. destruct (Hp o Ho) as (t & -> & _). apply Hmk.
    + rewrite List.Forall_forall in Ha.
      destruct (Ha o Ho) as (r & ov & t & Hin & _ & _ & -> & _).
      destruct (JsMap.get byUid (jsOrStr (ev_uid ev) "")) as [m|] eqn:Hm; [|destruct Hin].
      apply JsMap_get_In in Hm. destruct (Hentries _ _ _ _ Hm Hin) as (_ & -> & _).
      unfold truthy in Htruthy. destruct (ev_uid ev) as [u|]; [|discriminate].
      cbn [jsOrStr]. destruct (String.eqb u ""); [discriminate | reflexivity].
Qed.

(** X15.  The list the handler hands to the timeline is in ascending
    order of start; every occurrence in it starts before the window's
    end, and either ends after [now] or was built from a masterless
    override that starts inside the window (for those the end is not
    compared with [now]). *)
Theorem handler_list_is_sorted_and_bounded (fuel : nat) (events : list VEvent)
    (s e nowMs : Z) (l : list Occurrence) :
  handlerOccurrences DEFAULT_DURATION_MIN icalIterator fuel events s e nowMs = Some l ->
  StartSorted l /\
  Forall (fun o => startMs o < e /\
                   (nowMs < endMs o \/ OrphanBuilt DEFAULT_DURATION_MIN events s e o)) l.
Proof.
  unfold handlerOccurrences. cbv zeta.
  destruct (expandMasters _ _ _ _ _ _ _ _ _) as [occs|] eqn:Hocc; [|discriminate].
  intros [= <-].
  destruct (sortByStart_fold
              (orphanedOverrides DEFAULT_DURATION_MIN (separateMasterAndOverrides events)
                 s e occs) [] ltac:(constructor))
    as (Hsorted & Hperm & _).
  split; [exact Hsorted|].
  apply List.Forall_forall. intros o Ho.
  apply (Permutation_in _ Hperm) in Ho. cbn [app] in Ho.
  destruct (expandMasters_adds _ _ _ _ _ _ _ _ Hocc) as (added & -> & Hadded).
  destruct (orphanedOverrides_sound
              DEFAULT_DURATION_MIN events s e ([] ++ added)) as (orphans & Heq & Horphans).
  rewrite Heq in Ho. cbn [app] in Ho. apply in_app_or in Ho. destruct Ho as [Ho|Ho].
  - rewrite List.Forall_forall in Hadded. destruct (Hadded o Ho) as (_ & ? & ?).
    split; [lia | left; lia].
  - rewrite List.Forall_forall in Horphans. pose proof (Horphans o Ho) as Hb.
    split; [|right; exact Hb].
    destruct Hb as (ov & u & _ & _ & _ & _ & _ & _ & _ & Hwin & _). lia.
Qed.

(** X16.  Every occurrence in the handler's list was either built from
    a masterless override, or carries the uid of a parsed master that
    is a timed event with a start: all-day masters and masters
    without a start contribute nothing, and neither do overrides
    filed under their uid. *)
Theorem every_occurrence_has_a_timed_source (fuel : nat) (events : list VEvent)
    (s e nowMs : Z) (l : list Occurrence) :
  handlerOccurrences DEFAULT_DURATION_MIN icalIterator fuel events s e nowMs = Some l ->
  Forall (fun o =>
            OrphanBuilt DEFAULT_DURATION_MIN events s e o \/
            exists ev, In ev events /\ isMasterEvent ev = true /\
                       datetype ev = DateTime /\ is_Some (start ev) /\
                       uid o = ev_uid ev) l.
Proof.
  unfold handlerOccurrences. cbv zeta.
  destruct (expandMasters _ _ _ _ _ _ _ _ _) as [occs|] eqn:Hocc; [|discriminate].
  intros [= <-].
  destruct (sortByStart_fold
              (orphanedOverrides DEFAULT_DURATION_MIN (separateMasterAndOverrides events)
                 s e occs) [] ltac:(constructor))
    as (_ & Hperm & _).
  apply List.Forall_forall. intros o Ho.
  apply (Permutation_in _ Hperm) in Ho. cbn [app] in Ho.
  destruct (expandMasters_adds _ _ _ _ _ _ _ _ Hocc) as (added & -> & Hadded).
  destruct (orphanedOverrides_sound
              DEFAULT_DURATION_MIN events s e ([] ++ added)) as (orphans & Heq & Horphans).
  rewrite Heq in Ho. cbn [app] in Ho. apply in_app_or in Ho. destruct Ho as [Ho|Ho].
  - right. rewrite List.Forall_forall in Hadded.
    destruct (Hadded o Ho) as ((ev & out & Hev & Hout & Hin) & _).
    destruct (separateMasterAndOverrides_masters events) as [Hmasters _].
    rewrite Hmasters in Hev. apply filter_In in Hev. destruct Hev as [Hev Hism].
    assert (Htruthy : truthy (ev_uid ev) = true).
    { unfold isMasterEvent in Hism. apply andb_true_iff in Hism. tauto. }
    destruct (expansion_carries_the_event_uid events fuel ev s e _ out o
                (separate_entries_from_events events) Htruthy Hout Hin)
      as (Hdt & Hstart & Huid).
    exists ev. auto.
  - left. rewrite List.Forall_forall in Horphans. apply Horphans, Ho.
Qed.
End HandlerList.


Lemma handler_list_witness :
  exists l,
    handlerOccurrences 60 sampleIterator 100 sampleCalendar
      (dayMs 39) (dayMs 40) (dayMs 39 + 10 * hourMs) = Some l /\
    StartSorted l /\
    Forall (fun o => startMs o < dayMs 40 /\
                     (dayMs 39 + 10 * hourMs < endMs o \/
                      OrphanBuilt 60 sampleCalendar (dayMs 39) (dayMs 40) o)) l.
Proof.
  eexists. split; [vm_compute; reflexivity|].
  apply (handler_list_is_sorted_and_bounded 60 sampleIterator 100 sampleCalendar
           (dayMs 39) (dayMs 40) (dayMs 39 + 10 * hourMs)).
  vm_compute. reflexivity.
Defined.

Lemma timed_source_witness :
  exists l,
    handlerOccurrences 60 sampleIterator 100 (sampleAllDay :: sampleCalendar)
      (dayMs 39) (dayMs 40) (dayMs 39 + 10 * hourMs) = Some l /\
    Forall (fun o =>
              OrphanBuilt 60 (sampleAllDay :: sampleCalendar) (dayMs 39) (dayMs 40) o \/
              exists ev, In ev (sampleAllDay :: sampleCalendar) /\ isMasterEvent ev = true /\
                         datetype ev = DateTime /\ is_Some (start ev) /\
                         uid o = ev_uid ev) l.
Proof.
  eexists. split; [vm_compute; reflexivity|].
  apply (every_occurrence_has_a_timed_source 60 sampleIterator 100
           (sampleAllDay :: sampleCalendar) (dayMs 39) (dayMs 40) (dayMs 39 + 10 * hourMs)).
  vm_compute. reflexivity.
Defined.


(** ** What the iterator loop is bound to return *)

Section ExpansionCompleteness.
Variable DEFAULT_DURATION_MIN : Z.
Variable icalIterator : VEvent -> nat -> option Z.




End ExpansionCompleteness.



(** ** The window and [now] *)

(** X18.  When the zone's offset, as the round trip measures it, is
    the same [c] at the UTC midnight of today's date and at the next
    one, and today's date is the date of [now] under that offset, the
    window holds [now] and is 24 hours long. *)
Theorem window_holds_now_when_offset_is_steady
    (formatToParts : string -> Z -> DateParts) (nowMs c : Z) (tz : string) :
  utcMidnightOf (year (formatToParts tz nowMs)) (month (formatToParts tz nowMs))
    (day (formatToParts tz nowMs)) <= nowMs + c ->
  nowMs + c < utcMidnightOf (year (formatToParts tz nowMs)) (month (formatToParts tz nowMs))
                (day (formatToParts tz nowMs)) + msPerDay ->
  measuredOffset formatToParts tz
    (utcMidnightOf (year (formatToParts tz nowMs)) (month (formatToParts tz nowMs))
       (day (formatToParts tz nowMs))) = c ->
  measuredOffset formatToParts tz
    (setUTCDateNext
       (utcMidnightOf (year (formatToParts tz nowMs)) (month (formatToParts tz nowMs))
          (day (formatToParts tz nowMs)))) = c ->
  w_startMs (todayWindow formatToParts nowMs tz) <= nowMs /\
  nowMs < w_endMs (todayWindow formatToParts nowMs tz) /\
  w_endMs (todayWindow formatToParts nowMs tz)
    = w_startMs (todayWindow formatToParts nowMs tz) + msPerDay.
Proof.
  intros Hlo Hhi Hstart Hend. unfold todayWindow. cbn [w_startMs w_endMs].
  rewrite !shiftUtcToZonedMidnightMs_offset, Hstart, Hend.
  unfold setUTCDateNext. lia.
Qed.

Lemma window_holds_now_witness :
  w_startMs (todayWindow sampleFormatToParts (sampleSpringNow + msPerDay) "Europe/Nicosia")
    <= sampleSpringNow + msPerDay /\
  sampleSpringNow + msPerDay
    < w_endMs (todayWindow sampleFormatToParts (sampleSpringNow + msPerDay) "Europe/Nicosia") /\
  w_endMs (todayWindow sampleFormatToParts (sampleSpringNow + msPerDay) "Europe/Nicosia")
    = w_startMs (todayWindow sampleFormatToParts (sampleSpringNow + msPerDay) "Europe/Nicosia")
      + msPerDay.
Proof.
  apply (window_holds_now_when_offset_is_steady sampleFormatToParts
           (sampleSpringNow + msPerDay) (3 * hourMs) "Europe/Nicosia").
  - vm_compute. discriminate.
  - vm_compute. reflexivity.
  - vm_compute. reflexivity.
  - vm_compute. reflexivity.
Defined.

(** Without that, the window can miss [now]: at 23:30 of the day
    before Asia/Beirut moves its clock at midnight, the window of the
    day already ended at 23:00. *)
Example window_can_end_before_now :
  w_endMs (todayWindow sampleBeirutFormatToParts (beirutSpringForward2026 - 30 * minuteMs)
             "Asia/Beirut")
  = beirutSpringForward2026 - hourMs /\
  day (sampleBeirutFormatToParts "Asia/Beirut" (beirutSpringForward2026 - 30 * minuteMs)) = 28 /\
  hour (sampleBeirutFormatToParts "Asia/Beirut" (beirutSpringForward2026 - 30 * minuteMs)) = 23.
Proof. repeat split; vm_compute; reflexivity. Qed.


(** ** What the normalizer rewrites *)

Lemma string_app_nil_r (s : string) : s +:+ "" = s.
Proof.
  induction s as [|c s IH]; [reflexivity|]. rewrite string_app_cons, IH. reflexivity.
Qed.

Lemma string_app_inv_head (a x y : string) : a +:+ x = a +:+ y -> x = y.
Proof.
  induction a as [|c a IH]; [trivial|]. rewrite !string_app_cons. intros [= H]. exact (IH H).
Qed.

Lemma stripPrefix_app (p s : string) : stripPrefix p (p +:+ s) = Some s.
Proof.
  induction p as [|a p IH]; [reflexivity|].
  rewrite string_app_cons. cbn [stripPrefix]. rewrite Ascii.eqb_refl. exact IH.
Qed.

Lemma stripPrefix_prefix (p s : string) :
  String.prefix p s = false -> stripPrefix p s = None.
Proof.
  revert s. induction p as [|a p IH]; intros s.
  - destruct s; discriminate.
  - destruct s as [|b s]; [reflexivity|]. cbn [String.prefix stripPrefix].
    destruct (ascii_dec a b) as [->|Hne].
    + rewrite Ascii.eqb_refl. apply IH.
    + intros _. apply Ascii.eqb_neq in Hne. rewrite Hne. reflexivity.
Qed.

Lemma zoneRun_afterZoneRun (s : string) : zoneRun s +:+ afterZoneRun s = s.
Proof.
  induction s as [|c s IH]; [reflexivity|]. cbn [zoneRun afterZoneRun].
  destruct (zoneChar c); [|reflexivity]. rewrite string_app_cons, IH. reflexivity.
Qed.

Lemma zoneRun_empty_after (s : string) : zoneRun s = "" -> afterZoneRun s = s.
Proof.
  destruct s as [|c s]; [reflexivity|]. cbn [zoneRun afterZoneRun].
  destruct (zoneChar c); [discriminate | reflexivity].
Qed.

(** The group of the reference pattern takes the whole run. *)
Lemma matchGreedy_zoneRun (s : string) :
  matchGreedy zoneChar (matchHere []) s
  = if String.eqb (zoneRun s) "" then None
    else Some {| matched := zoneRun s; group1 := zoneRun s; rest := afterZoneRun s |}.
Proof.
  induction s as [|c s IH]; [reflexivity|].
  cbn [matchGreedy zoneRun afterZoneRun]. destruct (zoneChar c); [|reflexivity].
  rewrite IH. destruct (String.eqb_spec (zoneRun s) "") as [Hempty|Hrun].
  - cbn [matchHere]. rewrite Hempty, (zoneRun_empty_after s Hempty). reflexivity.
  - reflexivity.
Qed.

Lemma matchHere_tzidRefRegex (s : string) :
  matchHere tzidRefRegex s
  = match stripPrefix "TZID=" s with
    | Some t =>
        if String.eqb (zoneRun t) "" then None
        else Some {| matched := "TZID=" +:+ zoneRun t; group1 := zoneRun t;
                     rest := afterZoneRun t |}
    | None => None
    end.
Proof.
  unfold tzidRefRegex. cbn [matchHere]. unfold matchLit.
  destruct (stripPrefix "TZID=" s) as [t|]; [|reflexivity].
  change (matchGreedy _ _ t) with (matchGreedy zoneChar (matchHere []) t).
  rewrite matchGreedy_zoneRun. destruct (String.eqb (zoneRun t) ""); reflexivity.
Qed.

Lemma matchHere_reference_none (s : string) :
  referenceAt s = None -> matchHere tzidRefRegex s = None.
Proof.
  rewrite matchHere_tzidRefRegex. unfold referenceAt.
  destruct (stripPrefix "TZID=" s) as [t|]; [|reflexivity].
  destruct (String.eqb (zoneRun t) ""); [reflexivity | discriminate].
Qed.

Lemma matchHere_reference_some (s : string) (r : MatchResult) :
  matchHere tzidRefRegex s = Some r ->
  referenceAt s = Some (group1 r) /\
  matched r = "TZID=" +:+ group1 r /\
  group1 r <> "" /\
  zoneRun (group1 r +:+ rest r) = group1 r.
Proof.
  rewrite matchHere_tzidRefRegex. unfold referenceAt.
  destruct (stripPrefix "TZID=" s) as [t|]; [|discriminate].
  destruct (String.eqb_spec (zoneRun t) "") as [|Hrun]; [discriminate|].
  intros [= <-]. cbn [matched group1 rest].
  rewrite zoneRun_afterZoneRun. auto.
Qed.

Lemma matchHere_reference_at (w rest' : string) :
  w <> "" -> zoneRun (w +:+ rest') = w ->
  matchHere tzidRefRegex ("TZID=" +:+ w +:+ rest')
  = Some {| matched := "TZID=" +:+ w; group1 := w; rest := rest' |}.
Proof.
  intros Hw Hrun. rewrite matchHere_tzidRefRegex, stripPrefix_app, Hrun.
  destruct (String.eqb_spec w "") as [|_]; [contradiction|].
  assert (Hafter : afterZoneRun (w +:+ rest') = rest').
  { apply (string_app_inv_head w). rewrite <- Hrun at 1. apply zoneRun_afterZoneRun. }
  rewrite Hafter. reflexivity.
Qed.

Lemma search_here (re : list RegexItem) (s : string) (r : MatchResult) :
  matchHere re s = Some r -> search re s = Some ("", r).
Proof. intros H. destruct s; cbn [search]; rewrite H; reflexivity. Qed.

(** The scan for references finds the leftmost one. *)
Lemma search_reference_first (pre t : string) (r : MatchResult) :
  referenceFree pre t = true ->
  matchHere tzidRefRegex t = Some r ->
  search tzidRefRegex (pre +:+ t) = Some (pre, r).
Proof.
  intros Hfree Hm. induction pre as [|c pre IH].
  - rewrite string_app_nil. apply search_here, Hm.
  - cbn [referenceFree] in Hfree.
    destruct (referenceAt (String c pre +:+ t)) eqn:Hat; [discriminate|].
    apply matchHere_reference_none in Hat.
    rewrite string_app_cons in *. cbn [search]. rewrite Hat, (IH Hfree). reflexivity.
Qed.

Lemma search_reference_none (s : string) :
  referenceFree s "" = true -> search tzidRefRegex s = None.
Proof.
  induction s as [|c s IH]; [reflexivity|].
  cbn [referenceFree]. rewrite string_app_nil_r.
  destruct (referenceAt (String c s)) eqn:Hat; [discriminate|].
  intros Hfree. apply matchHere_reference_none in Hat.
  cbn [search]. rewrite Hat, (IH Hfree). reflexivity.
Qed.

Lemma reference_none_of_match (s : string) :
  matchHere tzidRefRegex s = None -> referenceAt s = None.
Proof.
  rewrite matchHere_tzidRefRegex. unfold referenceAt.
  destruct (stripPrefix "TZID=" s) as [t|]; [|reflexivity].
  destruct (String.eqb (zoneRun t) ""); [reflexivity | discriminate].
Qed.

Lemma search_reference_found (s pre : string) (r : MatchResult) :
  search tzidRefRegex s = Some (pre, r) ->
  s = pre +:+ matched r +:+ rest r /\
  referenceFree pre (matched r +:+ rest r) = true /\
  matchHere tzidRefRegex (matched r +:+ rest r) = Some r.
Proof.
  revert pre. induction s as [|c s IH]; intros pre; cbn [search].
  - destruct (matchHere tzidRefRegex "") as [r'|] eqn:Hm; [|discriminate].
    intros [= <- <-]. pose proof (matchHere_sound tzidRefRegex _ _ Hm) as Hs.
    rewrite string_app_nil, <- Hs. auto.
  - destruct (matchHere tzidRefRegex (String c s)) as [r'|] eqn:Hm.
    + intros [= <- <-]. pose proof (matchHere_sound tzidRefRegex _ _ Hm) as Hs.
      rewrite string_app_nil, <- Hs. auto.
    + destruct (search tzidRefRegex s) as [[pre' r']|] eqn:Hs; [|discriminate].
      intros [= <- <-]. destruct (IH pre' eq_refl) as (Htext & Hfree & Hat).
      split; [rewrite string_app_cons, <- Htext; reflexivity|].
      split; [|exact Hat].
      cbn [referenceFree]. rewrite string_app_cons, <- Htext.
      rewrite (reference_none_of_match _ Hm). exact Hfree.
Qed.




(** ... and nothing else is. *)
Lemma Rewritten_replaceAll (cb : string -> string -> string) (s out : string) :
  Rewritten cb s out ->
  forall fuel, (String.length s < fuel)%nat -> out = replaceAllFuel fuel tzidRefRegex cb s.
Proof.
  induction 1 as [text Hfree|pre w rest' out Hfree Hw Hrun _ IH]; intros fuel Hfuel;
    (destruct fuel as [|fuel]; [lia|]); cbn [replaceAllFuel].
  - rewrite (search_reference_none _ Hfree). reflexivity.
  - rewrite (search_reference_first pre _ _ Hfree (matchHere_reference_at w rest' Hw Hrun)).
    cbn [matched group1 rest]. rewrite <- IH; [reflexivity|].
    rewrite !string_app_length in Hfuel. cbn in Hfuel. lia.
Qed.

Lemma referencedZones_suffix (pre t : string) (w : string) :
  In w (referencedZones t) -> In w (referencedZones (pre +:+ t)).
Proof.
  intros Hin. induction pre as [|c pre IH]; [exact Hin|].
  rewrite string_app_cons. cbn [referencedZones].
  destruct (referenceAt (String c (pre +:+ t))); [right|]; exact IH.
Qed.

Lemma referencedZones_here (t w : string) :
  referenceAt t = Some w -> In w (referencedZones t).
Proof.
  destruct t as [|c t]; [discriminate|]. intros Hat. cbn [referencedZones].
  rewrite Hat. left. reflexivity.
Qed.

(** Every reference the scan visits is behind a ["TZID="] of the
    text. *)
Lemma allMatches_referenced :
  forall fuel s m w,
    In (m, w) (allMatches fuel tzidRefRegex s) -> In w (referencedZones s).
Proof.
  induction fuel as [|fuel IH]; intros s m w; cbn [allMatches]; [intros []|].
  destruct (search tzidRefRegex s) as [[pre r]|] eqn:Hs; [|intros []].
  destruct (search_reference_found _ _ _ Hs) as (Htext & _ & Hat).
  destruct (matchHere_reference_some _ _ Hat) as (Href & _).
  intros [[= <- <-]|Hin]; rewrite Htext.
  - apply referencedZones_suffix, referencedZones_here, Href.
  - apply referencedZones_suffix, referencedZones_suffix, (IH _ _ _ Hin).
Qed.

(** *** The scan for VTIMEZONE blocks *)

Lemma extendMatch_nil (r : MatchResult) : extendMatch "" r = r.
Proof. destruct r. reflexivity. Qed.

Lemma extendMatch_cons (c : ascii) (x : string) (r : MatchResult) :
  extendMatch (String c "") (extendMatch x r) = extendMatch (String c x) r.
Proof. destruct r. reflexivity. Qed.

Lemma matchLazy_here (k : string -> option MatchResult) (s : string) (r : MatchResult) :
  k s = Some r -> matchLazy k s = Some r.
Proof. intros H. destruct s; cbn [matchLazy]; rewrite H; reflexivity. Qed.

(** The lazy stretch ends where the literal behind it first starts. *)
Lemma matchLazy_first (lit : string) (k : string -> option MatchResult)
    (x t : string) (r : MatchResult) :
  startsNowhere lit x t = true ->
  matchLit lit k t = Some r ->
  matchLazy (matchLit lit k) (x +:+ t) = Some (extendMatch x r).
Proof.
  intros Hfree Hm. induction x as [|c x IH].
  - rewrite string_app_nil, extendMatch_nil. apply matchLazy_here, Hm.
  - cbn [startsNowhere] in Hfree. apply andb_true_iff in Hfree. destruct Hfree as [Hc Hfree].
    apply negb_true_iff in Hc. rewrite string_app_cons in *.
    cbn [matchLazy]. unfold matchLit at 1. rewrite (stripPrefix_prefix _ _ Hc).
    rewrite (IH Hfree). cbn [fmap option_fmap option_map]. rewrite extendMatch_cons. reflexivity.
Qed.

(** The group takes the whole run of the class when what follows the
    run can be matched. *)
Lemma matchGreedy_run (cls : ascii -> bool) (k : string -> option MatchResult)
    (name : string) (e : ascii) (t : string) (r : MatchResult) :
  name <> "" -> allChars cls name = true -> cls e = false ->
  k (String e t) = Some r ->
  matchGreedy cls k (name +:+ String e t)
  = Some {| matched := name +:+ matched r; group1 := name; rest := rest r |}.
Proof.
  intros Hname Hall He Hk. induction name as [|c name IH]; [contradiction|].
  cbn [allChars] in Hall. apply andb_true_iff in Hall. destruct Hall as [Hc Hall].
  rewrite !string_app_cons. cbn [matchGreedy]. rewrite Hc.
  destruct name as [|c' name].
  - rewrite !string_app_nil. cbn [matchGreedy]. rewrite He, Hk. reflexivity.
  - rewrite (IH ltac:(discriminate) Hall). reflexivity.
Qed.

Lemma startsNowhere_app (lit a b f : string) :
  startsNowhere lit (a +:+ b) f = startsNowhere lit a (b +:+ f) && startsNowhere lit b f.
Proof.
  induction a as [|c a IH]; [reflexivity|].
  rewrite string_app_cons. cbn [startsNowhere].
  rewrite <- string_app_cons, string_app_assoc, IH, andb_assoc. reflexivity.
Qed.

Lemma search_literal_first (lit : string) (re : list RegexItem) (gap t : string)
    (r : MatchResult) :
  startsNowhere lit gap t = true ->
  matchHere (Lit lit :: re) t = Some r ->
  search (Lit lit :: re) (gap +:+ t) = Some (gap, r).
Proof.
  intros Hfree Hm. induction gap as [|c gap IH].
  - rewrite string_app_nil. apply search_here, Hm.
  - cbn [startsNowhere] in Hfree. apply andb_true_iff in Hfree. destruct Hfree as [Hc Hfree].
    apply negb_true_iff in Hc. rewrite string_app_cons in *.
    cbn [search]. cbn [matchHere]. unfold matchLit at 1.
    rewrite (stripPrefix_prefix _ _ Hc).
    change (search (Lit lit :: re) (gap +:+ t)) with (search (Lit lit :: re) (gap +:+ t)).
    rewrite (IH Hfree). reflexivity.
Qed.

Lemma search_literal_none (a : ascii) (lit : string) (re : list RegexItem) (s : string) :
  startsNowhere (String a lit) s "" = true -> search (Lit (String a lit) :: re) s = None.
Proof.
  induction s as [|c s IH]; [reflexivity|].
  cbn [startsNowhere]. rewrite string_app_nil_r. intros Hfree.
  apply andb_true_iff in Hfree. destruct Hfree as [Hc Hfree]. apply negb_true_iff in Hc.
  cbn [search]. cbn [matchHere]. unfold matchLit at 1.
  rewrite (stripPrefix_prefix _ _ Hc). rewrite (IH Hfree). reflexivity.
Qed.

(** The layout of a plain block, with what follows it. *)
Lemma blockText_plain (b : ZoneBlock) (follow : string) :
  zb_params b = "" ->
  blockText b +:+ follow
  = "BEGIN:VTIMEZONE" +:+ zb_mid b +:+ "TZID:" +:+ zb_name b
      +:+ String (zb_eol b) (zb_body b +:+ "END:VTIMEZONE" +:+ follow).
Proof.
  intros Hparams. unfold blockText. rewrite Hparams.
  rewrite !string_app_assoc. rewrite (string_app_cons (zb_eol b)), !string_app_assoc.
  reflexivity.
Qed.

(** On a plain, well-formed block the pattern matches the block: the
    group is the value of its TZID line, and the scan goes on behind
    its [END:VTIMEZONE]. *)
Lemma search_plain_block (b : ZoneBlock) (follow : string) :
  wellFormedBlock b follow = true -> plainBlock b follow = true ->
  exists m,
    search vtzRegex (zb_gap b +:+ blockText b +:+ follow)
    = Some (zb_gap b, {| matched := m; group1 := zb_name b; rest := follow |}).
Proof.
  unfold wellFormedBlock, plainBlock. rewrite !andb_true_iff.
  intros ((((((Hgap & _) & _) & Hname) & Hchars) & Heol) & Hend) (Hparams & Hmid).
  apply String.eqb_eq in Hparams. apply negb_true_iff in Hname.
  apply String.eqb_neq in Hname.
  rewrite !startsNowhere_app in Hend. rewrite !andb_true_iff in Hend.
  destruct Hend as (_ & _ & _ & _ & _ & Hbody).
  rewrite (blockText_plain b follow Hparams) in *.
  set (k3 := matchLit "END:VTIMEZONE" (matchHere [])).
  assert (H3 : matchLazy k3 (String (zb_eol b) (zb_body b) +:+ "END:VTIMEZONE" +:+ follow)
               = Some (extendMatch (String (zb_eol b) (zb_body b))
                         {| matched := "END:VTIMEZONE" +:+ ""; group1 := "";
                            rest := follow |})).
  { apply matchLazy_first; [exact Hbody|].
    unfold matchLit. rewrite stripPrefix_app. reflexivity. }
  rewrite string_app_cons in H3.
  pose proof (matchGreedy_run (fun c => negb (isCR c || isLF c)) (matchLazy k3)
                (zb_name b) (zb_eol b) _ _ Hname Hchars
                ltac:(apply negb_false_iff; exact Heol) H3) as H2.
  cbn [rest] in H2.
  assert (Hm : exists m,
             matchHere vtzRegex
               ("BEGIN:VTIMEZONE" +:+ zb_mid b +:+ "TZID:" +:+ zb_name b
                  +:+ String (zb_eol b) (zb_body b +:+ "END:VTIMEZONE" +:+ follow))
             = Some {| matched := m; group1 := zb_name b; rest := follow |}).
  { change (matchHere vtzRegex)
      with (matchLit "BEGIN:VTIMEZONE"
              (matchLazy (matchLit "TZID:"
                 (matchGreedy (fun c => negb (isCR c || isLF c)) (matchLazy k3))))).
    unfold matchLit at 1. rewrite stripPrefix_app.
    rewrite (matchLazy_first "TZID:" _ _ _ _ Hmid
               ltac:(unfold matchLit at 1; rewrite stripPrefix_app, H2; reflexivity)).
    eexists. reflexivity. }
  destruct Hm as (m & Hm). exists m.
  apply search_literal_first; [exact Hgap | exact Hm].
Qed.

(** The first scan collects exactly the names of plain blocks. *)
Lemma execAllGroups_plain_blocks :
  forall blocks tail,
    wellFormedBlocks blocks tail = true -> plainBlocks blocks tail = true ->
    forall fuel, (String.length (calendarText blocks tail) < fuel)%nat ->
      execAllGroups fuel vtzRegex (calendarText blocks tail) = map zb_name blocks.
Proof.
  induction blocks as [|b blocks IH]; intros tail Hwf Hplain fuel Hfuel;
    (destruct fuel as [|fuel]; [lia|]); cbn [execAllGroups calendarText map].
  - cbn [wellFormedBlocks] in Hwf. unfold vtzRegex.
    rewrite (search_literal_none _ _ _ _ Hwf). reflexivity.
  - cbn [wellFormedBlocks plainBlocks] in Hwf, Hplain.
    apply andb_true_iff in Hwf. apply andb_true_iff in Hplain.
    destruct Hwf as [Hb Hwf]. destruct Hplain as [Hpb Hplain].
    destruct (search_plain_block b (calendarText blocks tail) Hb Hpb) as (m & ->).
    cbn [group1 rest]. f_equal. apply IH; [exact Hwf | exact Hplain|].
    cbn [calendarText] in Hfuel. unfold blockText in Hfuel.
    rewrite !string_app_length in Hfuel. cbn [String.length] in Hfuel. lia.
Qed.

Section NormalizerExtras.
Variable findIana : string -> list string.

Lemma rewriteReference_unknown (vtimezones : gset string) (m w : string) :
  findIana w = [] -> rewriteReference findIana vtimezones m w = m.
Proof.
  intros Hnone. unfold rewriteReference. rewrite Hnone.
  destruct (bool_decide _); reflexivity.
Qed.

(** X19.  In a calendar text made of well-formed VTIMEZONE blocks
    that are plain (the TZID line has no parameters and no ["TZID:"]
    stands in the block above it) the first scan collects exactly the
    values of the blocks' TZID lines; every reference to one of them
    is returned as matched, whatever the table maps it to; and when
    every identifier behind a ["TZID="] of the text is one of them or
    has no entry in the table, the text comes back unchanged. *)
Theorem plain_blocks_protect_their_references (blocks : list ZoneBlock) (tail : string) :
  wellFormedBlocks blocks tail = true ->
  plainBlocks blocks tail = true ->
  declaredZones (calendarText blocks tail) = list_to_set (map zb_name blocks) /\
  (forall b m, In b blocks ->
     rewriteReference findIana (declaredZones (calendarText blocks tail)) m (zb_name b) = m) /\
  (Forall (fun w => In w (map zb_name blocks) \/ findIana w = [])
          (referencedZones (calendarText blocks tail)) ->
   normalizeIcsTimezones findIana (calendarText blocks tail) = calendarText blocks tail).
Proof.
  intros Hwf Hplain.
  assert (Hset : declaredZones (calendarText blocks tail) = list_to_set (map zb_name blocks)).
  { unfold declaredZones, scanFuel.
    rewrite (execAllGroups_plain_blocks blocks tail Hwf Hplain) by lia. reflexivity. }
  assert (Hin : forall w, In w (map zb_name blocks) ->
                          w ∈ declaredZones (calendarText blocks tail)).
  { intros w Hw. rewrite Hset. apply elem_of_list_to_set, list_elem_of_In, Hw. }
  split; [exact Hset|]. split.
  - intros b m Hb. apply rewriteReference_declared, Hin, in_map, Hb.
  - intros Hall. unfold normalizeIcsTimezones. apply replaceAllFuel_unchanged.
    apply List.Forall_forall. intros [m w] Href. cbn [fst snd].
    rewrite List.Forall_forall in Hall.
    destruct (Hall w (allMatches_referenced _ _ _ _ Href)) as [Hname|Hnone].
    + apply rewriteReference_declared, Hin, Hname.
    + apply rewriteReference_unknown, Hnone.
Qed.

End NormalizerExtras.

Lemma plain_blocks_witness :
  declaredZones (calendarText [sampleFleBlock] sampleZoneTail)
    = list_to_set (map zb_name [sampleFleBlock]) /\
  (forall b m, In b [sampleFleBlock] ->
     rewriteReference sampleFindIana (declaredZones (calendarText [sampleFleBlock] sampleZoneTail))
       m (zb_name b) = m) /\
  (Forall (fun w => In w (map zb_name [sampleFleBlock]) \/ sampleFindIana w = [])
          (referencedZones (calendarText [sampleFleBlock] sampleZoneTail)) ->
   normalizeIcsTimezones sampleFindIana (calendarText [sampleFleBlock] sampleZoneTail)
   = calendarText [sampleFleBlock] sampleZoneTail).
Proof.
  apply (plain_blocks_protect_their_references sampleFindIana [sampleFleBlock] sampleZoneTail).
  - vm_compute. reflexivity.
  - vm_compute. reflexivity.
Defined.

(** The sample calendar is that layout, its two references name the
    block's zone, and the table maps the name: the text stays. *)
Example plain_block_keeps_the_sample :
  sampleIcsWithZone = calendarText [sampleFleBlock] sampleZoneTail /\
  referencedZones sampleIcsWithZone = ["FLE Standard Time"; "FLE Standard Time"] /\
  sampleFindIana "FLE Standard Time" <> [] /\
  normalizeIcsTimezones sampleFindIana sampleIcsWithZone = sampleIcsWithZone.
Proof.
  split; [vm_compute; reflexivity|]. split; [vm_compute; reflexivity|].
  split; [vm_compute; discriminate|]. vm_compute. reflexivity.
Qed.

(** C8.  A reference to a zone that a VTIMEZONE block of the same
    text defines is rewritten when the block is not plain.  With a
    note that holds ["TZID:"] above the TZID line, the first scan
    collects the rest of the note's line (["foo"]) in place of the
    block's zone; with a parameter on the TZID line it collects
    nothing.  Both texts are well-formed layouts of one block for
    "FLE Standard Time", both refer to that zone twice, and in both
    the two references come back as [TZID=Europe/Nicosia]. *)
Theorem declared_zone_reference_is_rewritten :
  (sampleIcsNotedZone = calendarText [sampleNotedBlock] sampleZoneTail /\
   wellFormedBlocks [sampleNotedBlock] sampleZoneTail = true /\
   zb_name sampleNotedBlock = "FLE Standard Time" /\
   referencedZones sampleIcsNotedZone = ["FLE Standard Time"; "FLE Standard Time"] /\
   elements (declaredZones sampleIcsNotedZone) = ["foo"] /\
   normalizeIcsTimezones sampleFindIana sampleIcsNotedZone = sampleIcsNotedRewritten /\
   sampleIcsNotedRewritten <> sampleIcsNotedZone)
  /\
  (sampleIcsParamZone = calendarText [sampleParamBlock] sampleZoneTail /\
   wellFormedBlocks [sampleParamBlock] sampleZoneTail = true /\
   zb_name sampleParamBlock = "FLE Standard Time" /\
   referencedZones sampleIcsParamZone = ["FLE Standard Time"; "FLE Standard Time"] /\
   elements (declaredZones sampleIcsParamZone) = [] /\
   normalizeIcsTimezones sampleFindIana sampleIcsParamZone = sampleIcsParamRewritten /\
   sampleIcsParamRewritten <> sampleIcsParamZone).
Proof.
  split; (repeat (split; [vm_compute; reflexivity|]));
    intros Hsame; apply (f_equal String.length) in Hsame; vm_compute in Hsame;
    discriminate.
Qed.

(** Neither block is plain, which is what the first scan needs. *)
Example sample_blocks_are_not_plain :
  plainBlocks [sampleNotedBlock] sampleZoneTail = false /\
  plainBlocks [sampleParamBlock] sampleZoneTail = false /\
  plainBlocks [sampleFleBlock] sampleZoneTail = true.
Proof. repeat split; vm_compute; reflexivity. Qed.

(** The rewriting relation does not hold of a text left as it is
    when the callback renames one of its references. *)
Example unchanged_text_is_not_the_rewriting :
  ~ Rewritten (rewriteReference sampleFindIana (declaredZones sampleIcsWithoutZone))
      sampleIcsWithoutZone sampleIcsWithoutZone.
Proof.
  intros Hsame.
  pose proof (Rewritten_replaceAll _ _ _ Hsame (scanFuel sampleIcsWithoutZone)
                ltac:(unfold scanFuel; lia)) as Hout.
  apply (f_equal String.length) in Hout. vm_compute in Hout. discriminate.
Qed.

(** A text without any block whose references no table entry
    matches. *)
Example unknown_zone_is_left_alone :
  wellFormedBlocks [] sampleIcsUnknownZone = true /\
  referencedZones sampleIcsUnknownZone = ["Custom Zone"; "Custom Zone"] /\
  sampleFindIana "Custom Zone" = [] /\
  normalizeIcsTimezones sampleFindIana sampleIcsUnknownZone = sampleIcsUnknownZone.
Proof. repeat split; vm_compute; reflexivity. Qed.

(** ** The request gate and the cache *)

Section RequestGateProps.
Variable isValidTimeZone : string -> bool.
Variable Date_parse : string -> option Z.
Variable decodeBase64 : string -> string.
Variable buildBody : Runtime -> Z -> string -> string -> string + ResponseBody.

Lemma handler_cases (env : Env) (cache : Cache) (rt : Runtime) (event : Event) :
  (snd (handler isValidTimeZone Date_parse decodeBase64 buildBody env cache rt event) = cache /\
   (statusCode (fst (handler isValidTimeZone Date_parse decodeBase64 buildBody
                       env cache rt event)) = 200 ->
    hasInlineIcs event = false ->
    exists body nowMs,
      fst (handler isValidTimeZone Date_parse decodeBase64 buildBody env cache rt event)
        = json 200 (OkBody body) [("x-cache", "HIT")] /\
      cache_body cache = Some body /\
      requestNow Date_parse env rt event = Some nowMs /\
      nowMs - cache_at cache < CACHE_MS env))
  \/
  (hasInlineIcs event = false /\ truthy (ICS_URL env) = true /\
   isValidTimeZone (requestTz env event) = true /\
   exists body nowMs text,
     requestNow Date_parse env rt event = Some nowMs /\
     fetchText rt (default "" (ICS_URL env)) = inr text /\
     buildBody rt nowMs (requestTz env event) text = inr body /\
     (cache_body cache = None \/ CACHE_MS env <= nowMs - cache_at cache) /\
     handler isValidTimeZone Date_parse decodeBase64 buildBody env cache rt event
       = (json 200 (OkBody body) [("x-cache", "MISS")],
          {| cache_at := nowMs; cache_body := Some body |})).
Proof.
  unfold handler.
  destruct (hasInlineIcs event) eqn:Hinline; cbn [negb andb].
  - left.
    destruct (isValidTimeZone (requestTz env event));
      cbn [negb]; [|split; [reflexivity | discriminate]].
    destruct (requestNow Date_parse env rt event) as [nowMs|];
      [|split; [reflexivity | discriminate]].
    destruct (buildBody _ _ _ _); split; first [reflexivity | discriminate].
  - destruct (truthy (ICS_URL env)) eqn:Hurl;
      cbn [negb]; [|left; split; [reflexivity | discriminate]].
    destruct (isValidTimeZone (requestTz env event)) eqn:Htz;
      cbn [negb]; [|left; split; [reflexivity | discriminate]].
    destruct (requestNow Date_parse env rt event) as [nowMs|] eqn:Hnow;
      [|left; split; [reflexivity | discriminate]].
    destruct (cache_body cache) as [cached|] eqn:Hcached.
    + destruct (Z.ltb_spec (nowMs - cache_at cache) (CACHE_MS env)) as [Hfresh|Hstale].
      * left. split; [reflexivity|]. intros _ _. exists cached, nowMs. auto.
      * destruct (fetchText rt _) as [message|text] eqn:Hfetch;
          [left; split; [reflexivity | discriminate]|].
        destruct (buildBody rt nowMs _ text) as [message|body] eqn:Hbuild;
          [left; split; [reflexivity | discriminate]|].
        right. repeat split. exists body, nowMs, text. auto 10.
    + destruct (fetchText rt _) as [message|text] eqn:Hfetch;
        [left; split; [reflexivity | discriminate]|].
      destruct (buildBody rt nowMs _ text) as [message|body] eqn:Hbuild;
        [left; split; [reflexivity | discriminate]|].
      right. repeat split. exists body, nowMs, text. auto 10.
Qed.

(** X21.  An invocation leaves the cache as it found it unless it
    answers 200 with [x-cache: MISS] to a request without inline
    calendar; it then holds exactly the body sent, stamped with the
    [now] of that request, which is the overridden one when the
    request overrides it.  No error response and no request with an
    inline calendar changes the cache. *)
Theorem cache_written_only_by_url_miss (env : Env) (cache : Cache) (rt : Runtime)
    (event : Event) :
  snd (handler isValidTimeZone Date_parse decodeBase64 buildBody env cache rt event) = cache \/
  (hasInlineIcs event = false /\
   exists body nowMs,
     requestNow Date_parse env rt event = Some nowMs /\
     fst (handler isValidTimeZone Date_parse decodeBase64 buildBody env cache rt event)
       = json 200 (OkBody body) [("x-cache", "MISS")] /\
     snd (handler isValidTimeZone Date_parse decodeBase64 buildBody env cache rt event)
       = {| cache_at := nowMs; cache_body := Some body |}).
Proof.
  destruct (handler_cases env cache rt event)
    as [[Hkept _]|(Hinline & _ & _ & body & nowMs & text & Hnow & _ & _ & _ & Hrun)].
  - left. exact Hkept.
  - right. split; [exact Hinline|]. exists body, nowMs. rewrite Hrun. auto.
Qed.

(** X22.  Once an invocation has written the cache, every later
    request without inline calendar whose zone is valid and whose
    [now] is less than CACHE_MS after the stamp is answered 200 with
    [x-cache: HIT] and the stored body, and leaves the cache as it
    is: whatever zone it asks for, whatever the URL would return
    now, and also when its [now] lies before the stamp. *)
Theorem later_requests_get_the_stored_body (env : Env) (cache : Cache) (rt rt' : Runtime)
    (event event' : Event) (nowMs' : Z) :
  snd (handler isValidTimeZone Date_parse decodeBase64 buildBody env cache rt event)
    <> cache ->
  hasInlineIcs event' = false ->
  isValidTimeZone (requestTz env event') = true ->
  requestNow Date_parse env rt' event' = Some nowMs' ->
  nowMs' - cache_at (snd (handler isValidTimeZone Date_parse decodeBase64 buildBody
                            env cache rt event)) < CACHE_MS env ->
  handler isValidTimeZone Date_parse decodeBase64 buildBody env
    (snd (handler isValidTimeZone Date_parse decodeBase64 buildBody env cache rt event))
    rt' event'
  = (json 200
       (payload (fst (handler isValidTimeZone Date_parse decodeBase64 buildBody
                        env cache rt event)))
       [("x-cache", "HIT")],
     snd (handler isValidTimeZone Date_parse decodeBase64 buildBody env cache rt event)).
Proof.
  intros Hwritten Hinline' Htz' Hnow' Hfresh.
  destruct (handler_cases env cache rt event)
    as [[Hkept _]|(_ & Hurl & _ & body & nowMs & text & _ & _ & _ & _ & Hrun)];
    [contradiction|].
  rewrite Hrun in *. cbn [fst snd payload json cache_at] in *.
  unfold handler. rewrite Hinline', Hurl, Htz', Hnow'. cbn [negb andb cache_body cache_at].
  replace (nowMs' - nowMs <? CACHE_MS env) with true by (symmetry; apply Z.ltb_lt; lia).
  reflexivity.
Qed.

(** X23.  A request that carries its calendar is answered without the
    cache and without the URL: it never gets [x-cache: HIT], it
    leaves the cache alone, and its response is the same whatever the
    cache holds, whatever ICS_URL is set to (also when it is not
    set) and whatever CACHE_MS is. *)
Theorem inline_calendar_bypasses_cache_and_url (env : Env) (cache : Cache) (rt : Runtime)
    (event : Event) :
  hasInlineIcs event = true ->
  snd (handler isValidTimeZone Date_parse decodeBase64 buildBody env cache rt event) = cache /\
  JsMap.get (headers (fst (handler isValidTimeZone Date_parse decodeBase64 buildBody
                             env cache rt event))) "x-cache" <> Some "HIT" /\
  (forall url cacheMs cache',
     fst (handler isValidTimeZone Date_parse decodeBase64 buildBody
            {| ICS_URL := url; TZ := TZ env; OVERRIDE_NOW := OVERRIDE_NOW env;
               CACHE_MS := cacheMs |} cache' rt event)
     = fst (handler isValidTimeZone Date_parse decodeBase64 buildBody env cache rt event)).
Proof.
  intros Hinline. unfold handler. rewrite Hinline. cbn [negb andb].
  unfold requestTz, requestNow, nowOverride. cbn [TZ OVERRIDE_NOW].
  destruct (isValidTimeZone (jsOrStr (param_tz event) (TZ env))); cbn [negb];
    [|repeat split; discriminate].
  destruct (match jsOr (param_now event) (OVERRIDE_NOW env) with
            | Some text => if truthy (Some text) then Date_parse text else Some (Date_now rt)
            | None => Some (Date_now rt)
            end) as [nowMs|]; [|repeat split; discriminate].
  destruct (buildBody _ _ _ _); repeat split; discriminate.
Qed.

(** X24.  The status is 400 exactly when a calendar source is at hand
    (an inline calendar or ICS_URL) and the zone is not valid or the
    [now] override cannot be parsed; a missing source is reported
    first, as a 500, and the zone is checked before the override. *)
Theorem bad_zone_or_now_is_a_400 (env : Env) (cache : Cache) (rt : Runtime)
    (event : Event) :
  (statusCode (fst (handler isValidTimeZone Date_parse decodeBase64 buildBody
                      env cache rt event)) = 400
   <-> (hasInlineIcs event = true \/ truthy (ICS_URL env) = true) /\
       (isValidTimeZone (requestTz env event) = false \/
        requestNow Date_parse env rt event = None)) /\
  (hasInlineIcs event = false -> truthy (ICS_URL env) = false ->
   fst (handler isValidTimeZone Date_parse decodeBase64 buildBody env cache rt event)
   = json 500 (ErrorBody "ICS_URL env var is missing") []) /\
  (isValidTimeZone (requestTz env event) = false ->
   statusCode (fst (handler isValidTimeZone Date_parse decodeBase64 buildBody
                      env cache rt event)) = 400 ->
   payload (fst (handler isValidTimeZone Date_parse decodeBase64 buildBody
                   env cache rt event))
   = ErrorBody ("Invalid timezone: " +:+ requestTz env event)).
Proof.
  unfold handler.
  destruct (hasInlineIcs event) eqn:Hinline; cbn [negb andb].
  - destruct (isValidTimeZone (requestTz env event)) eqn:Htz; cbn [negb].
    + destruct (requestNow Date_parse env rt event) as [nowMs|] eqn:Hnow.
      * destruct (buildBody _ _ _ _); cbn [fst json statusCode];
          (split; [split; [discriminate | intros [_ [H|H]]; discriminate]|]);
          split; discriminate.
      * cbn [fst json statusCode]. split; [split; [auto | reflexivity]|].
        split; discriminate.
    + cbn [fst json statusCode payload]. split; [split; [auto | reflexivity]|].
      split; [discriminate | reflexivity].
  - destruct (truthy (ICS_URL env)) eqn:Hurl; cbn [negb].
    + destruct (isValidTimeZone (requestTz env event)) eqn:Htz; cbn [negb].
      * destruct (requestNow Date_parse env rt event) as [nowMs|] eqn:Hnow.
        -- assert (Hnot : forall r : Response * Cache,
                     statusCode (fst r) <> 400 ->
                     (statusCode (fst r) = 400 <->
                      (false = true \/ true = true) /\ (true = false \/ Some nowMs = None))).
           { intros r Hr. split; [contradiction | intros [_ [H|H]]; discriminate]. }
           split; [|split; discriminate].
           apply Hnot.
           destruct (cache_body cache) as [cached|];
             [destruct (nowMs - cache_at cache <? CACHE_MS env)|];
             try (cbn; discriminate);
             destruct (fetchText rt _); try (cbn; discriminate);
             destruct (buildBody _ _ _ _); cbn; discriminate.
        -- cbn [fst json statusCode]. split; [split; [auto | reflexivity]|].
           split; discriminate.
      * cbn [fst json statusCode payload]. split; [split; [auto | reflexivity]|].
        split; [discriminate | reflexivity].
    + cbn [fst json statusCode]. split; [|split; [reflexivity | discriminate]].
      split; [discriminate | intros [[H|H] _]; discriminate].
Qed.
End RequestGateProps.

Lemma later_requests_witness :
  handler sampleIsValidTimeZone sampleDateParse sampleDecodeBase64 sampleBuildBody sampleEnv
    (snd (handler sampleIsValidTimeZone sampleDateParse sampleDecodeBase64 sampleBuildBody
            sampleEnv emptyCache (sampleRuntime 1770631200000) samplePlainRequest))
    (sampleRuntime 1770631260000) sampleEarlierRequest
  = (json 200
       (payload (fst (handler sampleIsValidTimeZone sampleDateParse sampleDecodeBase64
                        sampleBuildBody sampleEnv emptyCache (sampleRuntime 1770631200000)
                        samplePlainRequest)))
       [("x-cache", "HIT")],
     snd (handler sampleIsValidTimeZone sampleDateParse sampleDecodeBase64 sampleBuildBody
            sampleEnv emptyCache (sampleRuntime 1770631200000) samplePlainRequest)).
Proof.
  apply (later_requests_get_the_stored_body sampleIsValidTimeZone sampleDateParse
           sampleDecodeBase64 sampleBuildBody sampleEnv emptyCache
           (sampleRuntime 1770631200000) (sampleRuntime 1770631260000)
           samplePlainRequest sampleEarlierRequest 1770616800000).
  - vm_compute. discriminate.
  - reflexivity.
  - reflexivity.
  - reflexivity.
  - vm_compute. reflexivity.
Defined.

Lemma inline_calendar_witness :
  snd (handler sampleIsValidTimeZone sampleDateParse sampleDecodeBase64 sampleBuildBody
         sampleEnv emptyCache (sampleRuntime 1770631200000) sampleInlineRequest)
    = emptyCache /\
  JsMap.get (headers (fst (handler sampleIsValidTimeZone sampleDateParse sampleDecodeBase64
                             sampleBuildBody sampleEnv emptyCache
                             (sampleRuntime 1770631200000) sampleInlineRequest))) "x-cache"
    <> Some "HIT" /\
  (forall url cacheMs cache',
     fst (handler sampleIsValidTimeZone sampleDateParse sampleDecodeBase64 sampleBuildBody
            {| ICS_URL := url; TZ := TZ sampleEnv; OVERRIDE_NOW := OVERRIDE_NOW sampleEnv;
               CACHE_MS := cacheMs |} cache' (sampleRuntime 1770631200000)
            sampleInlineRequest)
     = fst (handler sampleIsValidTimeZone sampleDateParse sampleDecodeBase64 sampleBuildBody
              sampleEnv emptyCache (sampleRuntime 1770631200000) sampleInlineRequest)).
Proof.
  apply (inline_calendar_bypasses_cache_and_url sampleIsValidTimeZone sampleDateParse
           sampleDecodeBase64 sampleBuildBody sampleEnv emptyCache
           (sampleRuntime 1770631200000) sampleInlineRequest).
  reflexivity.
Defined.


(** ** The node-ical variant's handler loop *)

Section LegacyExpanderProps.
Variable DEFAULT_DURATION_MIN : Z.
Variable rruleBetween : NodeEvent -> Z -> Z -> list Z.

Lemma legacy_fold_keeps (nowMs endMs' : Z) (byUid : list (string * list (Z * NodeEvent)))
    (P : Occurrence -> Prop) :
  (forall ev, Forall P (Legacy.keepUpcoming nowMs endMs'
                          (LegacyExpander.expandOccurrencesInWindow DEFAULT_DURATION_MIN
                             rruleBetween ev nowMs endMs' byUid))) ->
  forall events acc,
    Forall P acc ->
    Forall P (fold_left
                (fun occs ev =>
                   occs ++ Legacy.keepUpcoming nowMs endMs'
                             (LegacyExpander.expandOccurrencesInWindow DEFAULT_DURATION_MIN
                                rruleBetween ev nowMs endMs' byUid))
                events acc).
Proof.
  intros Hstep. induction events as [|ev events IH]; intros acc Hacc; cbn [fold_left];
    [exact Hacc|].
  apply IH, Forall_app. split; [exact Hacc | apply Hstep].
Qed.

Lemma legacy_fold_grows (nowMs endMs' : Z) (byUid : list (string * list (Z * NodeEvent)))
    (o : Occurrence) :
  forall events acc,
    In o acc \/
    (exists ev, In ev events /\
       In o (Legacy.keepUpcoming nowMs endMs'
               (LegacyExpander.expandOccurrencesInWindow DEFAULT_DURATION_MIN
                  rruleBetween ev nowMs endMs' byUid))) ->
    In o (fold_left
            (fun occs ev =>
               occs ++ Legacy.keepUpcoming nowMs endMs'
                         (LegacyExpander.expandOccurrencesInWindow DEFAULT_DURATION_MIN
                            rruleBetween ev nowMs endMs' byUid))
            events acc).
Proof.
  induction events as [|ev events IH]; intros acc; cbn [fold_left].
  - intros [Hacc|(ev & [] & _)]. exact Hacc.
  - intros [Hacc|(ev' & [<-|Hin] & Ho)]; apply IH.
    + left. apply in_or_app. left. exact Hacc.
    + left. apply in_or_app. right. exact Ho.
    + right. exists ev'. auto.
Qed.

(** X25.  The node-ical variant's handler only passes on occurrences
    that start after [now] and before the window end, so the metrics
    it computes from that list never report an overlap with [now]:
    [isOverlappingNow] is always [false]. *)
Theorem legacy_handler_never_reports_overlap (isoWithTimeZone : Z -> string -> string)
    (Date_parse : string -> Z) (TZ : string) (events : list NodeEvent) (nowMs endMs' : Z)
    (nextDto : option Dto) :
  Forall (fun o => nowMs < startMs o < endMs')
    (LegacyExpander.handlerOccurrences DEFAULT_DURATION_MIN rruleBetween
       events nowMs endMs') /\
  lm_isOverlappingNow
    (LegacyExpander.computeMetrics isoWithTimeZone Date_parse TZ
       (LegacyExpander.handlerOccurrences DEFAULT_DURATION_MIN rruleBetween
          events nowMs endMs')
       nowMs nextDto) = false.
Proof.
  assert (Hall : Forall (fun o => nowMs < startMs o < endMs')
                   (LegacyExpander.handlerOccurrences DEFAULT_DURATION_MIN rruleBetween
                      events nowMs endMs')).
  { unfold LegacyExpander.handlerOccurrences. cbv zeta.
    match goal with |- Forall _ (sortByStart ?l) =>
      destruct (sortByStart_fold l [] ltac:(constructor)) as (_ & Hperm & _);
      assert (Hl : Forall (fun o => nowMs < startMs o < endMs') l)
    end.
    { apply legacy_fold_keeps; [|constructor].
      intros ev. unfold Legacy.keepUpcoming. apply List.Forall_forall. intros o Ho.
      apply list_elem_of_In, list_elem_of_filter in Ho. destruct Ho as [Hkeep _].
      apply andb_true_iff in Hkeep. lia. }
    apply List.Forall_forall. intros o Ho.
    apply (Permutation_in _ Hperm) in Ho. cbn [app] in Ho.
    rewrite List.Forall_forall in Hl. apply Hl, Ho. }
  split; [exact Hall|].
  assert (Hnone : existsb (coversNow nowMs)
                    (LegacyExpander.handlerOccurrences DEFAULT_DURATION_MIN rruleBetween
                       events nowMs endMs') = false).
  { induction Hall as [|o l Ho _ IH]; [reflexivity|]. cbn [existsb].
    rewrite IH. unfold coversNow.
    destruct (Z.geb_spec nowMs (startMs o)); [lia | reflexivity]. }
  unfold LegacyExpander.computeMetrics. destruct nextDto; cbn [lm_isOverlappingNow]; exact Hnone.
Qed.

(** X26.  In the node-ical variant every parsed timed event without a
    rule that starts after [now] and before the window end is listed
    as an occurrence built from its own fields: also when it is the
    override of an instance (it has a recurrence id) and also when
    its status is CANCELLED, since the loop runs over all events and
    only the rule expansion looks at overrides and their status. *)
Theorem legacy_lists_every_upcoming_single_event (events : list NodeEvent)
    (nowMs endMs' : Z) (ev : NodeEvent) (t : Z) :
  In ev events ->
  ne_datetype ev = DateTime -> ne_start ev = Some t -> ne_rrule ev = None ->
  nowMs < t < endMs' ->
  In (LegacyExpander.mkOcc DEFAULT_DURATION_MIN ev t None)
     (LegacyExpander.handlerOccurrences DEFAULT_DURATION_MIN rruleBetween
        events nowMs endMs').
Proof.
  intros Hin Hdt Hstart Hrule Hwin.
  unfold LegacyExpander.handlerOccurrences. cbv zeta.
  match goal with |- In _ (sortByStart ?l) =>
    destruct (sortByStart_fold l [] ltac:(constructor)) as (_ & Hperm & _)
  end.
  eapply Permutation_in; [symmetry; exact Hperm|]. cbn [app].
  apply legacy_fold_grows. right. exists ev. split; [exact Hin|].
  unfold LegacyExpander.expandOccurrencesInWindow. rewrite Hdt, Hstart, Hrule. cbv zeta.
  replace (t >=? nowMs) with true by (symmetry; apply Z.geb_le; lia).
  replace (t <? endMs') with true by (symmetry; apply Z.ltb_lt; lia).
  cbn [andb]. unfold Legacy.keepUpcoming.
  apply list_elem_of_In, list_elem_of_filter. split.
  - cbn [LegacyExpander.mkOcc startMs]. apply andb_true_iff. split.
    + apply Z.gtb_lt. lia.
    + apply Z.ltb_lt. lia.
  - apply list_elem_of_In. left. reflexivity.
Qed.

Lemma legacy_calcEndMs_after_start (ev : NodeEvent) (occStart : Z)
    (overrideEv : option NodeEvent) :
  0 < DEFAULT_DURATION_MIN ->
  occStart < LegacyExpander.calcEndMs DEFAULT_DURATION_MIN ev occStart overrideEv.
Proof.
  intros Hpos.
  assert (Hdur : forall e, 0 < LegacyExpander.calcDurationMsFromEvent DEFAULT_DURATION_MIN e).
  { intros e. unfold LegacyExpander.calcDurationMsFromEvent. cbv zeta.
    assert (Hby : 0 < match ne_duration e with
                      | Some d => if d >? 0 then d else DEFAULT_DURATION_MIN * 60000
                      | None => DEFAULT_DURATION_MIN * 60000
                      end).
    { destruct (ne_duration e) as [d|]; [|lia].
      destruct (Z.gtb_spec d 0); lia. }
    destruct (ne_start e) as [s|]; [|exact Hby].
    destruct (ne_end e) as [en|]; [|exact Hby].
    destruct (Z.gtb_spec (en - s) 0); cbn [andb]; [|exact Hby].
    destruct (en - s <? 7 * 24 * 60 * 60 * 1000); [lia | exact Hby]. }
  unfold LegacyExpander.calcEndMs. cbv zeta.
  pose proof (Hdur (default ev overrideEv)) as Hd.
  destruct (overrideEv ≫= ne_end) as [e|]; [|lia].
  destruct (Z.gtb_spec e occStart); lia.
Qed.

(** X27.  With a positive default duration every occurrence the
    node-ical variant's expansion returns ends after it starts and
    starts inside the window: it has no path that takes an override's
    end without comparing it with the start. *)
Theorem legacy_occurrences_end_after_start (ev : NodeEvent) (ws we : Z)
    (byUid : list (string * list (Z * NodeEvent))) :
  0 < DEFAULT_DURATION_MIN ->
  Forall (fun o => ws <= startMs o < we /\ startMs o < endMs o)
    (LegacyExpander.expandOccurrencesInWindow DEFAULT_DURATION_MIN rruleBetween
       ev ws we byUid).
Proof.
  intros Hpos. unfold LegacyExpander.expandOccurrencesInWindow. cbv zeta.
  destruct (ne_datetype ev); [constructor|].
  destruct (ne_start ev) as [s|]; [|constructor].
  destruct (ne_rrule ev) as [rule|].
  - set (uo := JsMap.get byUid (jsOrStr (ne_uid ev) "")).
    assert (Hfold : forall ds acc,
              Forall (fun o => ws <= startMs o < we /\ startMs o < endMs o) acc ->
              Forall (fun o => ws <= startMs o < we /\ startMs o < endMs o)
                (fold_left (LegacyExpander.betweenStep DEFAULT_DURATION_MIN ev ws we uo)
                   ds acc)).
    { induction ds as [|d ds IH]; intros acc Hacc; cbn [fold_left]; [exact Hacc|].
      apply IH. unfold LegacyExpander.betweenStep.
      destruct (existsb _ _); [exact Hacc|]. cbv zeta.
      destruct (bool_decide _); [exact Hacc|].
      destruct (Z.geb_spec (default d ((uo ≫= fun m => JsMap.get m d) ≫= ne_start)) ws);
        cbn [andb]; [|exact Hacc].
      destruct (Z.ltb_spec (default d ((uo ≫= fun m => JsMap.get m d) ≫= ne_start)) we);
        [|exact Hacc].
      apply Forall_app. split; [exact Hacc|]. constructor; [|constructor].
      cbn [LegacyExpander.mkOcc startMs endMs].
      split; [lia | apply legacy_calcEndMs_after_start, Hpos]. }
    apply Hfold. constructor.
  - destruct (Z.geb_spec s ws); cbn [andb]; [|constructor].
    destruct (Z.ltb_spec s we); [|constructor].
    constructor; [|constructor]. cbn [LegacyExpander.mkOcc startMs endMs].
    split; [lia | apply legacy_calcEndMs_after_start, Hpos].
Qed.
End LegacyExpanderProps.

Lemma legacy_single_event_witness :
  In (LegacyExpander.mkOcc 60 sampleNodeCancelled (dayMs 80 + 11 * hourMs) None)
     (LegacyExpander.handlerOccurrences 60 sampleBetween
        [sampleNodeTriage; sampleNodeCancelled] (dayMs 80 + 8 * hourMs) (dayMs 81)).
Proof.
  apply (legacy_lists_every_upcoming_single_event 60 sampleBetween
           [sampleNodeTriage; sampleNodeCancelled] (dayMs 80 + 8 * hourMs) (dayMs 81)
           sampleNodeCancelled (dayMs 80 + 11 * hourMs)).
  - right. left. reflexivity.
  - reflexivity.
  - reflexivity.
  - reflexivity.
  - vm_compute. split; reflexivity.
Defined.

Lemma legacy_end_after_start_witness :
  Forall (fun o => dayMs 80 <= startMs o < dayMs 82 /\ startMs o < endMs o)
    (LegacyExpander.expandOccurrencesInWindow 60 sampleBetween sampleNodeTriage
       (dayMs 80) (dayMs 82) []).
Proof.
  apply (legacy_occurrences_end_after_start 60 sampleBetween sampleNodeTriage
           (dayMs 80) (dayMs 82) []).
  reflexivity.
Defined.

(** The cancelled instance itself is skipped by the rule expansion;
    what the list holds for day 80 is the override as an event of its
    own. *)
Example legacy_cancelled_override_is_still_listed :
  map (fun o => (title o, startMs o))
      (LegacyExpander.handlerOccurrences 60 sampleBetween
         [sampleNodeTriage; sampleNodeCancelled] (dayMs 80 + 8 * hourMs) (dayMs 81))
  = [("Daily Bug Triage", dayMs 80 + 11 * hourMs)] /\
  LegacyExpander.expandOccurrencesInWindow 60 sampleBetween sampleNodeTriage
    (dayMs 80 + 8 * hourMs) (dayMs 81)
    (LegacyExpander.buildOverridesByUid [sampleNodeTriage; sampleNodeCancelled]) = [].
Proof. split; vm_compute; reflexivity. Qed.


(** ** From the parsed events to the response *)

Lemma sorted_first_hit_is_earliest (p : Occurrence -> bool) (l : list Occurrence)
    (x : Occurrence) :
  StartSorted l -> find p l = Some x ->
  In x l /\ p x = true /\
  Forall (fun o => p o = true -> startMs x <= startMs o) l.
Proof.
  intros Hsorted Hfind.
  destruct (find_split p l x Hfind) as (l1 & Hl & Hmiss & Hx).
  split; [rewrite Hl; apply in_or_app; right; left; reflexivity|].
  split; [exact Hx|].
  rewrite Hl in Hsorted |- *. unfold StartSorted in Hsorted.
  apply StronglySorted_app_1_r in Hsorted.
  apply StronglySorted_inv in Hsorted. destruct Hsorted as [_ Hrest].
  apply Forall_app. split.
  - eapply Forall_impl; [exact Hmiss|]. intros o Ho Hp. congruence.
  - constructor; [intros _; lia|].
    eapply Forall_impl; [exact Hrest|]. intros o Ho _. exact Ho.
Qed.

Section EndToEnd.
Variable DEFAULT_DURATION_MIN : Z.
Variable icalIterator : VEvent -> nat -> option Z.
Variable isoWithTimeZone : Z -> string -> string.
Variable Date_parse : string -> Z.

(** X28.  In the response built from the handler's list, [current] is
    the occurrence with the earliest start among those that hold
    [now], and [next] the one with the earliest start among those
    that start at or after the end of [current] (or [now], when
    nothing holds it); each is [null] exactly when there is no such
    occurrence. *)
Theorem response_picks_the_earliest (fuel : nat) (events : list VEvent)
    (s e nowMs : Z) (tz : string) (l : list Occurrence) :
  handlerOccurrences DEFAULT_DURATION_MIN icalIterator fuel events s e nowMs = Some l ->
  exists cur nxt,
    current (body_metrics (responseBody isoWithTimeZone Date_parse l nowMs tz))
      = toDtoWithTz isoWithTimeZone cur tz /\
    next (body_triple (responseBody isoWithTimeZone Date_parse l nowMs tz))
      = toDtoWithTz isoWithTimeZone nxt tz /\
    match cur with
    | Some c =>
        In c l /\ HoldsNow nowMs c /\
        Forall (fun o => HoldsNow nowMs o -> startMs c <= startMs o) l
    | None => Forall (fun o => ~ HoldsNow nowMs o) l
    end /\
    match nxt with
    | Some n =>
        In n l /\ searchFrom cur nowMs <= startMs n /\
        Forall (fun o => searchFrom cur nowMs <= startMs o -> startMs n <= startMs o) l
    | None => Forall (fun o => startMs o < searchFrom cur nowMs) l
    end.
Proof.
  intros Hl.
  assert (Hsorted : StartSorted l).
  { unfold handlerOccurrences in Hl. cbv zeta in Hl.
    destruct (expandMasters _ _ _ _ _ _ _ _ _) as [occs|]; [|discriminate].
    injection Hl as <-.
    apply (sortByStart_fold _ [] ltac:(constructor)). }
  exists (find (coversNow nowMs) l).
  exists (find (fun o => startMs o >=? searchFrom (find (coversNow nowMs) l) nowMs) l).
  unfold responseBody. cbn [body_metrics body_triple].
  split; [apply computeMetrics_current|].
  split; [apply computeNextTriple_next|].
  split.
  - destruct (find (coversNow nowMs) l) as [c|] eqn:Hcur.
    + destruct (sorted_first_hit_is_earliest _ _ _ Hsorted Hcur) as (Hin & Hc & Hall).
      split; [exact Hin|]. split; [apply coversNow_HoldsNow, Hc|].
      eapply Forall_impl; [exact Hall|]. intros o Ho Hholds.
      apply Ho, coversNow_HoldsNow, Hholds.
    + apply List.Forall_forall. intros o Ho Hholds.
      apply coversNow_HoldsNow in Hholds.
      rewrite (find_none _ _ Hcur o Ho) in Hholds. discriminate.
  - set (sf := searchFrom (find (coversNow nowMs) l) nowMs).
    destruct (find (fun o => startMs o >=? sf) l) as [n|] eqn:Hnxt.
    + destruct (sorted_first_hit_is_earliest _ _ _ Hsorted Hnxt) as (Hin & Hn & Hall).
      split; [exact Hin|]. split; [lia|].
      eapply Forall_impl; [exact Hall|]. intros o Ho Hfrom. apply Ho. lia.
    + apply List.Forall_forall. intros o Ho.
      pose proof (find_none _ _ Hnxt o Ho) as Hmiss. cbn beta in Hmiss. lia.
Qed.
End EndToEnd.

Lemma response_picks_the_earliest_witness :
  exists l cur nxt,
    handlerOccurrences 60 sampleIterator 100 sampleCalendar
      (dayMs 80) (dayMs 81) (dayMs 80 + 13 * hourMs + 10 * minuteMs) = Some l /\
    current (body_metrics (responseBody sampleIso sampleParse l
                             (dayMs 80 + 13 * hourMs + 10 * minuteMs) "UTC"))
      = toDtoWithTz sampleIso cur "UTC" /\
    next (body_triple (responseBody sampleIso sampleParse l
                         (dayMs 80 + 13 * hourMs + 10 * minuteMs) "UTC"))
      = toDtoWithTz sampleIso nxt "UTC" /\
    match cur with
    | Some c =>
        In c l /\ HoldsNow (dayMs 80 + 13 * hourMs + 10 * minuteMs) c /\
        Forall (fun o => HoldsNow (dayMs 80 + 13 * hourMs + 10 * minuteMs) o ->
                         startMs c <= startMs o) l
    | None => Forall (fun o => ~ HoldsNow (dayMs 80 + 13 * hourMs + 10 * minuteMs) o) l
    end /\
    match nxt with
    | Some n =>
        In n l /\ searchFrom cur (dayMs 80 + 13 * hourMs + 10 * minuteMs) <= startMs n /\
        Forall (fun o => searchFrom cur (dayMs 80 + 13 * hourMs + 10 * minuteMs) <= startMs o ->
                         startMs n <= startMs o) l
    | None =>
        Forall (fun o => startMs o < searchFrom cur (dayMs 80 + 13 * hourMs + 10 * minuteMs)) l
    end.
Proof.
  eexists.
  destruct (response_picks_the_earliest 60 sampleIterator sampleIso sampleParse 100
              sampleCalendar (dayMs 80) (dayMs 81) (dayMs 80 + 13 * hourMs + 10 * minuteMs)
              "UTC" _ ltac:(vm_compute; reflexivity))
    as (cur & nxt & H).
  exists cur, nxt. split; [reflexivity | exact H].
Defined.
